(** * moped-tracker: gas-station discovery and route utilities

    A shallow embedding of [src/utils/getNearestStation.js], together with
    the fragment of ECMAScript semantics that module relies on, and the
    properties of its functions: [calculateDistance], [formatAddress],
    [fetchNearbyGasStations], [findNearestStation], [fetchRoute] and
    [formatDistance].  The callers of the module are embedded as well: the
    station fetcher, the exhaust trail and the station filter of the map
    component ([src/unnamed/part_000]), and the reverse geocoding and the
    geolocation callbacks of the page ([src/unnamed/part_003]).

    - Numbers are IEEE-754 binary64 values (Rocq's primitive [float]), which
      is what a JavaScript Number is.
    - Data decoded from JSON is an untyped [value]; property reads,
      truthiness, coercions and exceptions follow ECMAScript.
    - An [async] function body runs in the [completion] monad; its [try] /
      [catch] turns a thrown completion into the returned value, and the
      promise it returns is [settled].  The network is a function from the
      request to what [fetch] and [response.json()] do with it.
    - The implementation-approximated functions of [Math], String-to-Number
      parsing and the general Number-to-String algorithm are taken from a
      [Host]; everything proved holds for every host.
    - [console.error] does not affect any returned value and is left out, as
      is [calculateETA], which reads the wall clock and the locale.
    - A React state setter replaces the stored value; a component's state is
      a record.  The [async] functions of the station fetcher make their
      setter calls between network round trips, so a run of one is the
      sequence of setter calls it makes together with its completion.
      Rendering, timers and the Leaflet calls are left out. *)

From Stdlib Require Import ZArith Uint63 Floats DecimalString Sorted.
From Stdlib Require Import DecimalFacts DecimalPos.
From stdpp Require Import gmap strings list.

Set Warnings "-inexact-float,-register-all".

Local Open Scope Z_scope.

(* ================================================================== *)
(** * ECMAScript fragment                                              *)
(* ================================================================== *)

Module JS.

(** ** Completions: a computation returns normally or throws *)

Inductive error : Type :=
  | TypeError
  | SyntaxError
  | NetworkError
  | Error (message : string).

Inductive completion (A : Type) : Type :=
  | Normal (a : A)
  | Throw (e : error).
Arguments Normal {A} a.
Arguments Throw {A} e.

#[global] Instance completion_ret : MRet completion := @Normal.
#[global] Instance completion_bind : MBind completion :=
  λ A B f c, match c with Normal a => f a | Throw e => Throw e end.

Definition throws {A} (c : completion A) : Prop := ∃ e, c = Throw e.

(** A promise, once settled. *)
Inductive settled (A : Type) : Type :=
  | Fulfilled (a : A)
  | Rejected (e : error).
Arguments Fulfilled {A} a.
Arguments Rejected {A} e.

(** ** Values *)

(** What [JSON.parse] can produce, plus [undefined].  An object is a finite
    map from property names to values. *)
Inductive value : Type :=
  | VUndef
  | VNull
  | VBool (b : bool)
  | VNum (x : float)
  | VStr (s : string)
  | VArr (l : list value)
  | VObj (m : gmap string value).

Definition is_nullish (v : value) : bool :=
  match v with VUndef | VNull => true | _ => false end.

(** ToBoolean *)
Definition truthy (v : value) : bool :=
  match v with
  | VUndef | VNull => false
  | VBool b => b
  | VNum x => negb (PrimFloat.is_zero x || PrimFloat.is_nan x)
  | VStr s => negb (String.eqb s "")
  | VArr _ | VObj _ => true
  end.

(** [a || b] *)
Definition or_else (a b : value) : value := if truthy a then a else b.

(** ** Numbers *)

(** The Number for an integer (exact whenever the integer is representable). *)
Definition float_of_Z (z : Z) : float :=
  SF2Prim (binary_normalize prec emax z 0 false).

(** [Some z] exactly when [x] is finite and its value is the integer [z]. *)
Definition integral_value (x : float) : option Z :=
  match Prim2SF x with
  | S754_zero _ => Some 0
  | S754_finite s m e =>
      let z := if s then Z.neg m else Z.pos m in
      if 0 <=? e then Some (z * 2 ^ e)
      else if Z.pos m mod 2 ^ (- e) =? 0 then Some (z / 2 ^ (- e))
      else None
  | S754_infinity _ | S754_nan => None
  end.

(** The Number for the length of an array or string.  Lengths stay below
    2^53; the bound keeps the conversion total. *)
Definition length_number (n : nat) : float :=
  of_uint63 (Uint63.of_Z (Z.min (Z.of_nat n) (2 ^ 53 - 1))).

Definition digits_of_N (n : N) : string := NilZero.string_of_uint (N.to_uint n).

(** The platform-dependent part of the language. *)
Class Host : Type := {
  (** implementation-approximated [Math.sin], [Math.cos], [Math.atan2] on
      arguments that are not NaN *)
  sin_approx : float → float;
  cos_approx : float → float;
  atan2_approx : float → float → float;
  (** StringToNumber *)
  string_to_number : string → float;
  (** Number::toString on finite values above zero that are not integers
      below 2^53 (shortest round-trip digits, exponent notation) *)
  number_to_string_general : float → string;
}.

Section WithHost.
Context `{Host}.

(** Number::toString(x), radix 10, on a finite [x] above zero: an integer
    below 2^53 prints as its decimal digits. *)
Definition positive_to_string (x : float) : string :=
  match integral_value x with
  | Some z =>
      if z <? 2 ^ 53 then digits_of_N (Z.to_N z)
      else number_to_string_general x
  | None => number_to_string_general x
  end.

(** Number::toString(x), radix 10 *)
Definition number_to_string (x : float) : string :=
  match Prim2SF x with
  | S754_nan => "NaN"
  | S754_zero _ => "0"
  | S754_infinity s => (if s then "-" else "") +:+ "Infinity"
  | S754_finite s _ _ =>
      (if s then "-" else "") +:+ positive_to_string (PrimFloat.abs x)
  end.

(** Array.prototype.join *)
Definition join (sep : string) (parts : list string) : string :=
  match parts with
  | [] => ""
  | p :: ps => foldl (λ acc q, acc +:+ sep +:+ q) p ps
  end.

(** ToString.  A primitive converts without exception.  An object goes
    through OrdinaryToPrimitive, which calls the [toString] and [valueOf] it
    finds.  An object decoded from JSON finds those of [Object.prototype],
    and prints as "[object Object]", unless it has an own property
    "toString": that property is never callable, the inherited [valueOf]
    returns the object itself, and the conversion throws a TypeError.  The
    [toString] of an array is [join], which converts every element other
    than [undefined] and [null]. *)
Fixpoint to_string (v : value) : completion string :=
  match v with
  | VUndef => Normal "undefined"
  | VNull => Normal "null"
  | VBool b => Normal (if b then "true" else "false")
  | VNum x => Normal (number_to_string x)
  | VStr s => Normal s
  | VArr l =>
      parts ← mapM (λ e, match e with
                         | VUndef | VNull => Normal ""
                         | _ => to_string e
                         end) l;
      mret (join "," parts)
  | VObj m =>
      match m !! "toString" with
      | Some _ => Throw TypeError
      | None => Normal "[object Object]"
      end
  end.

(** [l.join(sep)]: [undefined] and [null] elements print as nothing. *)
Definition array_join (sep : string) (l : list value) : completion string :=
  parts ← mapM (λ e, if is_nullish e then Normal "" else to_string e) l;
  mret (join sep parts).

(** ToPrimitive: an array or object becomes the string it prints as. *)
Definition to_primitive (v : value) : completion value :=
  match v with
  | VArr _ | VObj _ => s ← to_string v; mret (VStr s)
  | _ => mret v
  end.

(** ToNumber *)
Definition to_number (v : value) : completion float :=
  match v with
  | VUndef => Normal nan
  | VNull => Normal 0%float
  | VBool b => Normal (if b then 1 else 0)%float
  | VNum x => Normal x
  | VStr s => Normal (string_to_number s)
  | VArr _ | VObj _ => s ← to_string v; mret (string_to_number s)
  end.

(** [a - b], [a / b]: both operands are coerced with ToNumber, the left
    one first. *)
Definition js_sub (a b : value) : completion float :=
  x ← to_number a; y ← to_number b; mret (x - y)%float.
Definition js_div (a b : value) : completion float :=
  x ← to_number a; y ← to_number b; mret (x / y)%float.

(** [a + b]: concatenation once either operand's primitive is a string. *)
Definition js_add (a b : value) : completion value :=
  lprim ← to_primitive a;
  rprim ← to_primitive b;
  match lprim, rprim with
  | VStr _, _ | _, VStr _ =>
      lstr ← to_string lprim; rstr ← to_string rprim; mret (VStr (lstr +:+ rstr))
  | _, _ =>
      x ← to_number lprim; y ← to_number rprim; mret (VNum (x + y)%float)
  end.

(** [a < b] on an operand pair of which the right one is a Number. *)
Definition js_lt_num (a : value) (b : float) : completion bool :=
  x ← to_number a; mret (x <? b)%float.

End WithHost.

(** ** Property access *)

(** The canonical array index a property name denotes, if any. *)
Definition array_index (k : string) : option nat :=
  match NilEmpty.uint_of_string k with
  | Some d =>
      let n := Nat.of_uint d in
      if String.eqb (NilZero.string_of_uint (Nat.to_uint n)) k
      then Some n else None
  | None => None
  end.

(** [v.k] / [v[k]].  Reading a property of [undefined] or [null] throws; the
    names read by the modelled code are data properties only, so the inherited
    methods of primitives and objects read as [undefined]. *)
Definition get (v : value) (k : string) : completion value :=
  match v with
  | VUndef | VNull => Throw TypeError
  | VBool _ | VNum _ => Normal VUndef
  | VStr s =>
      if String.eqb k "length"
      then Normal (VNum (length_number (String.length s)))
      else match array_index k with
           | Some i =>
               Normal (match String.get i s with
                       | Some c => VStr (String c "")
                       | None => VUndef
                       end)
           | None => Normal VUndef
           end
  | VArr l =>
      if String.eqb k "length"
      then Normal (VNum (length_number (length l)))
      else match array_index k with
           | Some i => Normal (default VUndef (l !! i))
           | None => Normal VUndef
           end
  | VObj m => Normal (default VUndef (m !! k))
  end.

(** [v?.k] *)
Definition get_opt (v : value) (k : string) : completion value :=
  if is_nullish v then Normal VUndef else get v k.

(** [v.map(f)]: only arrays carry a callable [map]. *)
Definition array_map {B} (v : value) (f : value → completion B)
  : completion (list B) :=
  match v with
  | VArr l => mapM f l
  | _ => Throw TypeError
  end.

(** [v === s] for a string literal [s] *)
Definition strict_eq_str (v : value) (s : string) : bool :=
  match v with VStr t => String.eqb t s | _ => false end.

(** [v === n] for a Number [n] *)
Definition strict_eq_num (v : value) (n : float) : bool :=
  match v with VNum x => (x =? n)%float | _ => false end.

(** ** Math *)

Definition PI : float := 3.141592653589793%float.

Section MathWithHost.
Context `{Host}.

(** [Math.sin], [Math.cos], [Math.atan2]: NaN in, NaN out; every other
    argument is handed to the host's approximation. *)
Definition sin (x : float) : float :=
  if PrimFloat.is_nan x then nan else sin_approx x.

Definition cos (x : float) : float :=
  if PrimFloat.is_nan x then nan else cos_approx x.

Definition atan2 (y x : float) : float :=
  if PrimFloat.is_nan y || PrimFloat.is_nan x then nan else atan2_approx y x.

End MathWithHost.

(** [Math.sqrt]: the correctly rounded IEEE-754 square root. *)
Definition sqrt (x : float) : float := PrimFloat.sqrt x.

(** [Math.round]: an integral or non-finite argument is returned as it is;
    otherwise the result is floor(x + 1/2), computed exactly, with the sign of
    [x] kept on a zero result. *)
Definition round (x : float) : float :=
  match Prim2SF x with
  | S754_finite s m e =>
      if 0 <=? e then x
      else
        let den := 2 ^ (- e) in
        if Z.pos m mod den =? 0 then x
        else
          let num := if s then Z.neg m else Z.pos m in
          let r := (2 * num + den) / (2 * den) in
          if r =? 0 then (if s then neg_zero else zero) else float_of_Z r
  | _ => x
  end.

(** ** Number.prototype.toFixed *)

(** The decimal digits of [n] with a point before the last [f] of them,
    left-padded with zeros to at least [f + 1] digits. *)
Definition fixed_digits (n : N) (f : nat) : string :=
  let m := digits_of_N n in
  match f with
  | O => m
  | _ =>
      let k := String.length m in
      let m := if (k <=? f)%nat
               then String.concat "" (replicate (S f - k) "0") +:+ m else m in
      let k := String.length m in
      String.substring 0 (k - f) m +:+ "." +:+ String.substring (k - f) f m
  end.

Section FixedWithHost.
Context `{Host}.

(** [x.toFixed(f)]: the integer [n] with n / 10^f closest to [x], the larger
    one on a tie, printed with [f] fraction digits. *)
Definition toFixed (x : float) (f : nat) : string :=
  match Prim2SF x with
  | S754_nan | S754_infinity _ => number_to_string x
  | S754_zero _ => fixed_digits 0 f
  | S754_finite s m e =>
      (if s then "-" else "") +:+
      (if (0 <=? e) && (10 ^ 21 <=? Z.pos m * 2 ^ e)
       then number_to_string (PrimFloat.abs x)
       else
         let scaled := Z.pos m * 10 ^ Z.of_nat f in
         let n := if 0 <=? e then scaled * 2 ^ e
                  else (2 * scaled + 2 ^ (- e)) / 2 ^ (1 - e) in
         fixed_digits (Z.to_N n) f)
  end.

End FixedWithHost.

(** ** Array.prototype.sort *)

Section Sort.
Context {A : Type} (comparefn : A → A → float).

(** SortCompare: a NaN verdict counts as +0. *)
Definition SortCompare (x y : A) : float :=
  let v := comparefn x y in
  if PrimFloat.is_nan v then zero else v.

(** ECMAScript fixes the result of [sort] only for a consistent comparator,
    where it is the stable sorted arrangement, and leaves it
    implementation-defined otherwise.  The model is the stable insertion
    sort: an element moves behind exactly those it compares greater than. *)
Fixpoint sort_insert (x : A) (l : list A) : list A :=
  match l with
  | [] => [x]
  | y :: l' =>
      if (0 <? SortCompare x y)%float then y :: sort_insert x l' else x :: l
  end.

Definition sort (l : list A) : list A := foldr sort_insert [] l.

End Sort.

(** ** fetch *)

Record request : Type := {
  url : string;
  method : string;
  body : option string;
  headers : list (string * string);
}.

(** What [await response.json()] does: reject on unparsable text, or yield
    the decoded value. *)
Inductive json_outcome : Type :=
  | JsonRejects
  | JsonResolves (data : value).

(** What [await fetch(...)] does: reject (network failure), or yield a
    response with its [ok] flag and body. *)
Inductive fetch_outcome : Type :=
  | FetchRejects
  | FetchResolves (ok : bool) (json : json_outcome).

Definition await_fetch (o : fetch_outcome) : completion (bool * json_outcome) :=
  match o with
  | FetchRejects => Throw NetworkError
  | FetchResolves ok json => Normal (ok, json)
  end.

Definition await_json (o : json_outcome) : completion value :=
  match o with
  | JsonRejects => Throw SyntaxError
  | JsonResolves data => Normal data
  end.

End JS.

(* ================================================================== *)
(** * src/utils/getNearestStation.js                                   *)
(* ================================================================== *)

Module Station.
(** The object literal built for each element of the Overpass response. *)
Record t : Type := {
  id : JS.value;
  lat : JS.value;
  lng : JS.value;
  name : JS.value;
  brand : JS.value;
  operator : JS.value;
  address : JS.value;
  distance : float;
  tags : JS.value;
}.
End Station.

Module Route.
(** The object literal returned by [fetchRoute]; a coordinate pair
    [[a, b]] is the Rocq pair [(a, b)]. *)
Record t : Type := {
  coordinates : list (JS.value * JS.value);
  distance : float;
  duration : float;
  steps : JS.value;
}.
End Route.

Section GetNearestStation.
Import JS.
Context `{Host}.

(** Convert degrees to radians *)
Definition toRadians (degrees : value) : completion float :=
  degrees ← to_number degrees;
  mret (degrees * (PI / 180))%float.

(** Haversine formula, distance in miles.  The four arguments are coerced
    where the arithmetic reaches them: [lat2], [lat1], [lon2], [lon1] by the
    two subtractions, then [lat1] and [lat2] again by [toRadians]. *)
Definition calculateDistance (lat1 lon1 lat2 lon2 : value) : completion float :=
  let R := 3959%float in
  difference ← js_sub lat2 lat1;
  dLat ← toRadians (VNum difference);
  difference ← js_sub lon2 lon1;
  dLon ← toRadians (VNum difference);
  a ← (radians1 ← toRadians lat1;
       radians2 ← toRadians lat2;
       mret (JS.sin (dLat / 2) * JS.sin (dLat / 2) +
             JS.cos radians1 *
               JS.cos radians2 *
               JS.sin (dLon / 2) *
               JS.sin (dLon / 2))%float);
  let c := (2 * JS.atan2 (JS.sqrt a) (JS.sqrt (1 - a)))%float in
  mret (R * c)%float.

(** Format address from OSM tags *)
Definition formatAddress (tags : value) : completion value :=
  if negb (truthy tags) then mret VNull
  else
    let parts := [] in
    housenumber ← get tags "addr:housenumber";
    let parts := if truthy housenumber then parts ++ [housenumber] else parts in
    street ← get tags "addr:street";
    let parts := if truthy street then parts ++ [street] else parts in
    city ← get tags "addr:city";
    let parts := if truthy city then parts ++ [city] else parts in
    if (0 <? length parts)%nat
    then joined ← array_join ", " parts; mret (VStr joined)
    else mret VNull.

(** [const stationLat = element.center?.lat || element.lat] *)
Definition stationLat (element : value) : completion value :=
  center ← get element "center";
  center_lat ← get_opt center "lat";
  if truthy center_lat then mret center_lat else get element "lat".

(** [const stationLon = element.center?.lon || element.lon] *)
Definition stationLon (element : value) : completion value :=
  center ← get element "center";
  center_lon ← get_opt center "lon";
  if truthy center_lon then mret center_lon else get element "lon".

(** The callback of [data.elements.map] *)
Definition toStation (lat lng : value) (element : value) : completion Station.t :=
  stationLat ← stationLat element;
  stationLon ← stationLon element;
  distance ← calculateDistance lat lng stationLat stationLon;
  id ← get element "id";
  tags ← get element "tags";
  tags_name ← get_opt tags "name";
  name ← (if truthy tags_name then mret tags_name
          else tags ← get element "tags";
               tags_brand ← get_opt tags "brand";
               mret (or_else tags_brand (VStr "Gas Station")));
  tags ← get element "tags";
  brand ← get_opt tags "brand";
  tags ← get element "tags";
  operator ← get_opt tags "operator";
  tags ← get element "tags";
  address ← formatAddress tags;
  tags ← get element "tags";
  mret {| Station.id := id;
          Station.lat := stationLat;
          Station.lng := stationLon;
          Station.name := name;
          Station.brand := brand;
          Station.operator := operator;
          Station.address := address;
          Station.distance := distance;
          Station.tags := tags |}.

Definition nl : string := String (Ascii.ascii_of_nat 10) "".
Definition dq : string := String (Ascii.ascii_of_nat 34) "".

(** The bounding box that each of the two clauses of the Overpass query
    spells out; the four substitutions are evaluated and converted from left
    to right. *)
Definition bbox (lat lng : value) (radiusInDegrees : float) : completion string :=
  south ← js_sub lat (VNum radiusInDegrees);
  west ← js_sub lng (VNum radiusInDegrees);
  north ← js_add lat (VNum radiusInDegrees);
  north ← to_string north;
  east ← js_add lng (VNum radiusInDegrees);
  east ← to_string east;
  mret ("(" +:+ number_to_string south +:+
        "," +:+ number_to_string west +:+
        "," +:+ north +:+
        "," +:+ east +:+ ");").

Definition overpassQuery (lat lng : value) (radiusInDegrees : float)
  : completion string :=
  nodes ← bbox lat lng radiusInDegrees;
  ways ← bbox lat lng radiusInDegrees;
  mret (
    nl +:+ "      [out:json];" +:+
    nl +:+ "      (" +:+
    nl +:+ "        node[" +:+ dq +:+ "amenity" +:+ dq +:+ "=" +:+ dq +:+ "fuel" +:+ dq +:+ "]" +:+
    nl +:+ "          " +:+ nodes +:+
    nl +:+ "        way[" +:+ dq +:+ "amenity" +:+ dq +:+ "=" +:+ dq +:+ "fuel" +:+ dq +:+ "]" +:+
    nl +:+ "          " +:+ ways +:+
    nl +:+ "      );" +:+
    nl +:+ "      out center;" +:+
    nl +:+ "    ").

Definition userAgent : string * string :=
  ("User-Agent", "MopedFuel/1.0 (moped-tracker.vercel.app)").

(** The arguments of the call to [fetch] in [fetchNearbyGasStations] *)
Definition overpassRequest (query : string) : request :=
  {| url := "https://overpass-api.de/api/interpreter";
     method := "POST";
     body := Some query;
     headers := [("Content-Type", "application/x-www-form-urlencoded");
                 userAgent] |}.

(** The comparator [(a, b) => a.distance - b.distance] *)
Definition byDistance (a b : Station.t) : float :=
  (Station.distance a - Station.distance b)%float.

(** The [try] block of [fetchNearbyGasStations] *)
Definition fetchNearbyGasStations_try (fetch : request → fetch_outcome)
    (lat lng radius : value) : completion (list Station.t) :=
  radiusInDegrees ← js_div radius (VNum 111000);
  query ← overpassQuery lat lng radiusInDegrees;
  '(ok, json) ← await_fetch (fetch (overpassRequest query));
  if negb ok then Throw (Error "Failed to fetch gas stations")
  else
    data ← await_json json;
    elements ← get data "elements";
    stations ← array_map elements (toStation lat lng);
    mret (JS.sort byDistance stations).

(** The default of the third parameter: [radius = 5000] *)
Definition radiusOrDefault (radius : value) : value :=
  match radius with VUndef => VNum 5000 | _ => radius end.

(** Fetch nearby gas stations using the Overpass API.  The [catch] clause
    logs to the console and returns the empty array. *)
Definition fetchNearbyGasStations (fetch : request → fetch_outcome)
    (lat lng radius : value) : settled (list Station.t) :=
  let radius := radiusOrDefault radius in
  match fetchNearbyGasStations_try fetch lat lng radius with
  | Normal stations => Fulfilled stations
  | Throw error => Fulfilled []
  end.

(** Find the nearest gas station from a list; [None] stands for a [null] or
    [undefined] argument and for the [null] result. *)
Definition findNearestStation {S U : Type} (stations : option (list S))
    (userLocation : U) : option S :=
  match stations with
  | None => None
  | Some l => if (length l =? 0)%nat then None else l !! 0%nat
  end.

(** [const url] of [fetchRoute] *)
Definition routeUrl (start end_ : value) : completion string :=
  start_lng ← get start "lng";
  start_lng ← to_string start_lng;
  start_lat ← get start "lat";
  start_lat ← to_string start_lat;
  end_lng ← get end_ "lng";
  end_lng ← to_string end_lng;
  end_lat ← get end_ "lat";
  end_lat ← to_string end_lat;
  mret ("https://router.project-osrm.org/route/v1/driving/" +:+
        start_lng +:+ "," +:+ start_lat +:+ ";" +:+
        end_lng +:+ "," +:+ end_lat +:+
        "?overview=full&geometries=geojson&steps=true").

(** The arguments of the call to [fetch] in [fetchRoute] *)
Definition routeRequest (url : string) : request :=
  {| url := url; method := "GET"; body := None; headers := [userAgent] |}.

(** The [try] block of [fetchRoute] *)
Definition fetchRoute_try (fetch : request → fetch_outcome)
    (start end_ : value) : completion Route.t :=
  url ← routeUrl start end_;
  '(ok, json) ← await_fetch (fetch (routeRequest url));
  if negb ok then Throw (Error "Failed to fetch route")
  else
    data ← await_json json;
    code ← get data "code";
    no_route ←
      (if negb (strict_eq_str code "Ok") then mret true
       else routes ← get data "routes";
            if negb (truthy routes) then mret true
            else routes ← get data "routes";
                 len ← get routes "length";
                 mret (strict_eq_num len 0));
    if no_route : bool then Throw (Error "No route found")
    else
      routes ← get data "routes";
      route ← get routes "0";
      geometry ← get route "geometry";
      coords ← get geometry "coordinates";
      coordinates ← array_map coords (λ coord,
        c1 ← get coord "1"; c0 ← get coord "0"; mret (c1, c0));
      distance ← get route "distance";
      distance ← js_div distance (VNum 1609.34);
      duration ← get route "duration";
      duration ← js_div duration (VNum 60);
      legs ← get route "legs";
      leg ← get legs "0";
      leg_steps ← get_opt leg "steps";
      mret {| Route.coordinates := coordinates;
              Route.distance := distance;
              Route.duration := duration;
              Route.steps := or_else leg_steps (VArr []) |}.

(** Fetch route between two points using OSRM; [None] is [null].  The
    [catch] clause logs to the console and returns [null]. *)
Definition fetchRoute (fetch : request → fetch_outcome)
    (start end_ : value) : settled (option Route.t) :=
  match fetchRoute_try fetch start end_ with
  | Normal route => Fulfilled (Some route)
  | Throw error => Fulfilled None
  end.

(** Format distance for display *)
Definition formatDistance (miles : value) : completion string :=
  below ← js_lt_num miles 0.1;
  if below : bool
  then feet ← to_number miles;
       mret (number_to_string (JS.round (feet * 5280)) +:+ " ft")
  else
    match miles with
    | VNum x => mret (toFixed x 1 +:+ " mi")
    | VUndef | VNull | VBool _ | VStr _ | VArr _ | VObj _ => Throw TypeError
    end.

End GetNearestStation.

(* ================================================================== *)
(** * The map component (src/unnamed/part_000)                         *)
(* ================================================================== *)

(** The station fetcher calls the three utilities in sequence and stores
    what they return with React state setters.  A setter replaces the stored
    value, and the calls of one run are separated by network round trips, so
    a run is modelled by the setter calls it makes, in order, and by how its
    promise settles.  The debounce timer and the rendering are not
    modelled. *)

Module Nearest.
(** [{...nearest, route: route?.coordinates, duration: route?.duration}];
    [None] is [undefined]. *)
Record t : Type := {
  station : Station.t;
  route : option (list (JS.value * JS.value));
  duration : option float;
}.

(** A station object as the list holds it, read as such an object: its
    [route] and [duration] are [undefined]. *)
Definition of_station (s : Station.t) : t :=
  {| station := s; route := None; duration := None |}.
End Nearest.

Module MapState.
(** The state the station fetcher reads and writes: [gasStations] and
    [nearestStation] of the page, [hasInitialized] of the fetcher. *)
Record t : Type := {
  gasStations : list Station.t;
  nearestStation : option Nearest.t;
  hasInitialized : bool;
}.
End MapState.

(** A call of one of the three setters. *)
Inductive setterCall : Type :=
  | setGasStations (stations : list Station.t)
  | setNearestStation (nearest : Nearest.t)
  | setHasInitialized (initialized : bool).

(** The state after a setter call, and after a sequence of them. *)
Definition afterCall (state : MapState.t) (call : setterCall) : MapState.t :=
  match call with
  | setGasStations stations =>
      {| MapState.gasStations := stations;
         MapState.nearestStation := MapState.nearestStation state;
         MapState.hasInitialized := MapState.hasInitialized state |}
  | setNearestStation nearest =>
      {| MapState.gasStations := MapState.gasStations state;
         MapState.nearestStation := Some nearest;
         MapState.hasInitialized := MapState.hasInitialized state |}
  | setHasInitialized initialized =>
      {| MapState.gasStations := MapState.gasStations state;
         MapState.nearestStation := MapState.nearestStation state;
         MapState.hasInitialized := initialized |}
  end.

Definition afterCalls (state : MapState.t) (calls : list setterCall) : MapState.t :=
  foldl afterCall state calls.

Module Run.
(** What the body of an [async] function has done when it ends: the setter
    calls it made, and its completion. *)
Record t (A : Type) : Type := {
  calls : list setterCall;
  completion : JS.completion A;
}.
Arguments calls {A} _.
Arguments completion {A} _.
End Run.

#[global] Instance run_ret : MRet Run.t :=
  λ A a, {| Run.calls := []; Run.completion := JS.Normal a |}.
#[global] Instance run_bind : MBind Run.t :=
  λ A B f r,
    match Run.completion r with
    | JS.Normal a =>
        {| Run.calls := Run.calls r ++ Run.calls (f a);
           Run.completion := Run.completion (f a) |}
    | JS.Throw e => {| Run.calls := Run.calls r; Run.completion := JS.Throw e |}
    end.

Module Puff.
(** One puff of the exhaust trail. *)
Record t : Type := {
  id : float;
  left : float;
  opacity : float;
}.
End Puff.

Section MapComponent.
Import JS.
Context `{Host}.

(** [await p] *)
Definition await {A} (p : settled A) : completion A :=
  match p with
  | Fulfilled a => Normal a
  | Rejected e => Throw e
  end.

(** The promise of an [async] function whose body has completed. *)
Definition async {A} (body : completion A) : settled A :=
  match body with
  | Normal a => Fulfilled a
  | Throw e => Rejected e
  end.

(** A step of a run that calls no setter, and a setter call. *)
Definition step {A} (c : completion A) : Run.t A :=
  {| Run.calls := []; Run.completion := c |}.

Definition calling (call : setterCall) : Run.t unit :=
  {| Run.calls := [call]; Run.completion := Normal tt |}.

(** A station record as the object the utilities built. *)
Definition stationObject (s : Station.t) : value :=
  VObj {[ "id" := Station.id s;
          "lat" := Station.lat s;
          "lng" := Station.lng s;
          "name" := Station.name s;
          "brand" := Station.brand s;
          "operator" := Station.operator s;
          "address" := Station.address s;
          "distance" := VNum (Station.distance s);
          "tags" := Station.tags s ]}.

(** [const fetchStations = async () => ...] of the first effect *)
Definition fetchStations (fetch : request → fetch_outcome)
    (userLocation : value) : Run.t unit :=
  lat ← step (get userLocation "lat");
  lng ← step (get userLocation "lng");
  stations ← step (await (fetchNearbyGasStations fetch lat lng (VNum 8000)));
  calling (setGasStations stations);;
  (if (0 <? length stations)%nat then
     let nearest := findNearestStation (Some stations) userLocation in
     match nearest with
     | Some nearest =>
         route ← step (await (fetchRoute fetch userLocation (stationObject nearest)));
         calling (setNearestStation
                    {| Nearest.station := nearest;
                       Nearest.route := Route.coordinates <$> route;
                       Nearest.duration := Route.duration <$> route |})
     | None => mret tt
     end
   else mret tt);;
  calling (setHasInitialized true).

(** The body of the first effect, in a render where the fetcher's state is
    [hasInitialized]: nothing happens without a user location or once
    initialised; the promise of [fetchStations] is dropped. *)
Definition initialEffect (fetch : request → fetch_outcome)
    (userLocation : value) (hasInitialized : bool) : Run.t unit :=
  if negb (truthy userLocation) || hasInitialized
  then mret tt
  else fetchStations fetch userLocation.

(** [const updateNearest = async () => ...] of the second effect *)
Definition updateNearest (fetch : request → fetch_outcome)
    (userLocation : value) : Run.t unit :=
  lat ← step (get userLocation "lat");
  lng ← step (get userLocation "lng");
  stations ← step (await (fetchNearbyGasStations fetch lat lng (VNum 8000)));
  calling (setGasStations stations);;
  (if (0 <? length stations)%nat then
     let nearest := findNearestStation (Some stations) userLocation in
     match nearest with
     | Some nearest =>
         route ← step (await (fetchRoute fetch userLocation (stationObject nearest)));
         calling (setNearestStation
                    {| Nearest.station := nearest;
                       Nearest.route := Route.coordinates <$> route;
                       Nearest.duration := Route.duration <$> route |})
     | None => mret tt
     end
   else mret tt).

End MapComponent.

(** [array.slice(-n)]: the last [n] elements. *)
Definition slice_last {A} (n : nat) (l : list A) : list A :=
  drop (length l - n) l.

(** The updater passed to [setExhaustPuffs]; [now] is what [Date.now()]
    returns. *)
Definition updateExhaustPuffs (now : float) (prev : list Puff.t) : list Puff.t :=
  let newPuff := {| Puff.id := now; Puff.left := (-10)%float;
                    Puff.opacity := 0.8%float |} in
  let updated :=
    List.filter (λ puff, (0 <? Puff.opacity puff)%float)
      (map (λ puff, {| Puff.id := Puff.id puff;
                       Puff.left := (Puff.left puff - 5)%float;
                       Puff.opacity := (Puff.opacity puff - 0.1)%float |})
           prev) in
  slice_last 5 (updated ++ [newPuff]).

(** [const displayedStations = showAllStations ? gasStations
    : nearestStation ? [nearestStation] : []]; the objects displayed are
    the stored ones, the nearest station with its [route] and [duration]. *)
Definition displayedStations (showAllStations : bool)
    (gasStations : list Station.t) (nearestStation : option Nearest.t)
  : list Nearest.t :=
  if showAllStations then Nearest.of_station <$> gasStations
  else match nearestStation with
       | Some nearest => [nearest]
       | None => []
       end.

(* ================================================================== *)
(** * The page component (src/unnamed/part_003)                        *)
(* ================================================================== *)

Section Page.
Import JS.
Context `{Host}.

(** The template literal passed to [fetch] in [reverseGeocode] *)
Definition nominatimUrl (lat lng : value) : completion string :=
  lat ← to_string lat;
  lng ← to_string lng;
  mret ("https://nominatim.openstreetmap.org/reverse?format=json&lat=" +:+
        lat +:+ "&lon=" +:+ lng +:+ "&zoom=18&addressdetails=1").

(** The arguments of the call to [fetch] in [reverseGeocode] *)
Definition nominatimRequest (url : string) : request :=
  {| url := url; method := "GET"; body := None; headers := [] |}.

(** The [try] block of [reverseGeocode]; the result is the stored address
    after it, [currentAddress] being the one before. *)
Definition reverseGeocode_try (fetch : request → fetch_outcome)
    (lat lng : value) (currentAddress : value) : completion value :=
  url ← nominatimUrl lat lng;
  '(ok, json) ← await_fetch (fetch (nominatimRequest url));
  data ← await_json json;
  address ← get data "address";
  if truthy address then
    address ← get data "address";
    road ← get address "road";
    neighbourhood ← get address "neighbourhood";
    suburb ← get address "suburb";
    city ← get address "city";
    let addr :=
      or_else (or_else (or_else (or_else road neighbourhood) suburb) city)
              (VStr "Unknown location") in
    mret addr
  else mret currentAddress.

(** Reverse geocode coordinates to a readable address; the [catch] clause
    stores "Unknown location". *)
Definition reverseGeocode (fetch : request → fetch_outcome)
    (lat lng : value) (currentAddress : value) : settled value :=
  match reverseGeocode_try fetch lat lng currentAddress with
  | Normal address => Fulfilled address
  | Throw error => Fulfilled (VStr "Unknown location")
  end.

End Page.

Module PageState.
(** The state of the page that the geolocation callbacks write. *)
Record t : Type := {
  userLocation : JS.value;
  currentAddress : JS.value;
  isLoading : bool;
}.
End PageState.

Section PageCallbacks.
Import JS.
Context `{Host}.

(** The [useState] initial values. *)
Definition initialPageState : PageState.t :=
  {| PageState.userLocation := VNull;
     PageState.currentAddress := VStr "Locating...";
     PageState.isLoading := true |}.

(** [{ lat: ..., lng: ... }] *)
Definition locationObject (lat lng : value) : value :=
  VObj {[ "lat" := lat; "lng" := lng ]}.

(** The callback [success] of [watchPosition], with the reverse geocoding
    it starts run to its end. *)
Definition success (fetch : request → fetch_outcome) (position : value)
    (state : PageState.t) : completion PageState.t :=
  coords ← get position "coords";
  latitude ← get coords "latitude";
  longitude ← get coords "longitude";
  let userLocation := locationObject latitude longitude in
  let isLoading := false in
  currentAddress ←
    await (reverseGeocode fetch latitude longitude (PageState.currentAddress state));
  mret {| PageState.userLocation := userLocation;
          PageState.currentAddress := currentAddress;
          PageState.isLoading := isLoading |}.

(** The callback [error] of [watchPosition]: default to Madison, WI. *)
Definition error_ (state : PageState.t) : PageState.t :=
  {| PageState.userLocation := locationObject (VNum 43.0731) (VNum (-89.4012));
     PageState.currentAddress := VStr "Madison, WI (Default)";
     PageState.isLoading := false |}.

(** [{!isLoading && userLocation && (<Map ... />)}] *)
Definition mapMounted (state : PageState.t) : bool :=
  negb (PageState.isLoading state) && truthy (PageState.userLocation state).

End PageCallbacks.

(* ================================================================== *)
(** * Vocabulary of the properties                                     *)
(* ================================================================== *)

Section Vocabulary.
Import JS.

(** ** Order of binary64 values *)

(** An integer that orders the valid values other than NaN as IEEE-754
    comparison does: the value scaled by 2^-emin, with the infinities just
    beyond the finite range. *)
Definition SFord (x : spec_float) : Z :=
  match x with
  | S754_zero _ | S754_nan => 0
  | S754_infinity s => cond_Zopp s (2 ^ (emax - emin))
  | S754_finite s m e => cond_Zopp s (Z.pos m * 2 ^ (e - emin))
  end.

Definition ord (x : float) : Z := SFord (Prim2SF x).

(** A signed infinity or finite value of sign [s]. *)
Definition SFsigned (s : bool) (x : spec_float) : Prop :=
  x = S754_infinity s ∨ ∃ m e, x = S754_finite s m e.

(** [v.k] where the read cannot throw ([undefined] on a nullish [v]). *)
Definition field (v : value) (k : string) : value :=
  match get v k with Normal x => x | Throw _ => VUndef end.

(** [v?.k] as a total read *)
Definition field_opt (v : value) (k : string) : value :=
  if is_nullish v then VUndef else field v k.

(** The values whose conversion to a string or a number returns: no object
    with an own "toString", at any depth of arrays. *)
Fixpoint convertible (v : value) : bool :=
  match v with
  | VArr l => forallb convertible l
  | VObj m => match m !! "toString" with Some _ => false | None => true end
  | _ => true
  end.

(** A host with crude stand-ins, to run examples whose outcome does not
    depend on the host. *)
Definition plain_host : Host :=
  {| sin_approx := λ x, x;
     cos_approx := λ _, 1%float;
     atan2_approx := λ y _, y;
     string_to_number := λ _, nan;
     number_to_string_general := λ _, "" |}.

(** ** Address Formatter *)

(** A [mapping<string,string>|absent] as the value the code receives. *)
Definition tags_value (tags : option (gmap string string)) : value :=
  match tags with
  | None => VUndef
  | Some m => VObj (VStr <$> m)
  end.

(** A [string|absent] result as the value the code returns. *)
Definition string_or_null (o : option string) : value :=
  match o with
  | Some s => VStr s
  | None => VNull
  end.

Definition addressKeys : list string :=
  ["addr:housenumber"; "addr:street"; "addr:city"].

(** The Address Formatter in the words of the specification: the values of
    the address keys that are present, in fixed order, joined by [", "]. *)
Definition formatAddress_spec (tags : option (gmap string string))
  : option string :=
  match tags with
  | None => None
  | Some m =>
      match omap (λ k, m !! k) addressKeys with
      | [] => None
      | parts => Some (join ", " parts)
      end
  end.

(** The same, keeping only the keys present with a non-empty value. *)
Definition nonempty (s : string) : option string :=
  if String.eqb s "" then None else Some s.

Definition formatAddress_nonempty (tags : option (gmap string string))
  : option string :=
  match tags with
  | None => None
  | Some m =>
      match omap (λ k, m !! k ≫= nonempty) addressKeys with
      | [] => None
      | parts => Some (join ", " parts)
      end
  end.

(** ** Route Fetcher *)

(** A coordinate pair [[a, b]] as it arrives. *)
Definition pair_value (p : value * value) : value := VArr [p.1; p.2].

(** The first route can be read: it carries [geometry.coordinates], an
    array without [null] entries, a [distance] and a [duration] that
    convert to numbers, and [legs]. *)
Definition wellFormedRoute (route : value) : bool :=
  match field (field route "geometry") "coordinates" with
  | VArr coords => forallb (λ c, negb (is_nullish c)) coords
  | _ => false
  end &&
  convertible (field route "distance") &&
  convertible (field route "duration") &&
  negb (is_nullish (field route "legs")).

(** The request URL can be built: both endpoints can be read and their
    coordinates print. *)
Definition endpointsReadable (start end_ : value) : bool :=
  negb (is_nullish start) &&
  convertible (field start "lng") && convertible (field start "lat") &&
  negb (is_nullish end_) &&
  convertible (field end_ "lng") && convertible (field end_ "lat").

(** The ways a routing exchange ends without a route. *)
Inductive routeFailure : fetch_outcome → Prop :=
  | route_request_rejected :
      routeFailure FetchRejects
  | route_status_not_ok json :
      routeFailure (FetchResolves false json)
  | route_body_unparsable :
      routeFailure (FetchResolves true JsonRejects)
  | route_code_not_Ok data :
      strict_eq_str (field data "code") "Ok" = false →
      routeFailure (FetchResolves true (JsonResolves data))
  | route_routes_missing data :
      truthy (field data "routes") = false →
      routeFailure (FetchResolves true (JsonResolves data))
  | route_routes_empty data :
      strict_eq_num (field (field data "routes") "length") 0 = true →
      routeFailure (FetchResolves true (JsonResolves data))
  | route_first_malformed data :
      wellFormedRoute (field (field data "routes") "0") = false →
      routeFailure (FetchResolves true (JsonResolves data)).

(** The failures the specification names: a non-success transport result, a
    status field other than "Ok", an empty routes collection. *)
Inductive routeFailure_spec : fetch_outcome → Prop :=
  | spec_request_rejected :
      routeFailure_spec FetchRejects
  | spec_status_not_ok json :
      routeFailure_spec (FetchResolves false json)
  | spec_code_not_Ok ok data :
      field data "code" ≠ VStr "Ok" →
      routeFailure_spec (FetchResolves ok (JsonResolves data))
  | spec_routes_empty ok data :
      field data "routes" = VArr [] →
      routeFailure_spec (FetchResolves ok (JsonResolves data)).

(** A network that answers every request with the same outcome. *)
Definition answering (o : fetch_outcome) : request → fetch_outcome := λ _, o.

Definition sample_start : value :=
  VObj {[ "lat" := VNum 40.7; "lng" := VNum (-74) ]}.
Definition sample_end : value :=
  VObj {[ "lat" := VNum 41; "lng" := VNum (-73) ]}.

(** [{code: "Ok", routes: [route]}] *)
Definition routing_response (route : value) : value :=
  VObj {[ "code" := VStr "Ok"; "routes" := VArr [route] ]}.

(** A route of two points and one leg of two steps, 160934 m and 7200 s. *)
Definition sample_route : value :=
  VObj {[ "geometry" := VObj {[ "coordinates" :=
            VArr [VArr [VNum (-74); VNum 40.7]; VArr [VNum (-73); VNum 41]] ]};
          "distance" := VNum 160934;
          "duration" := VNum 7200;
          "legs" := VArr [VObj {[ "steps" := VArr [VStr "depart"; VStr "arrive"] ]}] ]}.

(** The same route with its [legs] property missing. *)
Definition sample_route_without_legs : value :=
  VObj {[ "geometry" := VObj {[ "coordinates" :=
            VArr [VArr [VNum (-74); VNum 40.7]; VArr [VNum (-73); VNum 41]] ]};
          "distance" := VNum 160934;
          "duration" := VNum 7200 ]}.

(** A route of one point that carries neither [distance] nor [duration]. *)
Definition sample_route_without_distance : value :=
  VObj {[ "geometry" := VObj {[ "coordinates" :=
            VArr [VArr [VNum (-74); VNum 40.7]] ]};
          "legs" := VArr [] ]}.

(** ** Station Fetcher *)

(** The position [toStation] resolves for an element, axis by axis: the
    centroid coordinate when that is truthy, the element's own otherwise. *)
Definition positionLat (element : value) : value :=
  or_else (field_opt (field element "center") "lat") (field element "lat").
Definition positionLon (element : value) : value :=
  or_else (field_opt (field element "center") "lon") (field element "lon").

(** The parts [formatAddress] joins: the truthy values at the address keys
    of truthy tags. *)
Definition addressParts (tags : value) : list value :=
  if truthy tags then List.filter truthy (field tags <$> addressKeys) else [].

(** An element can be mapped to a station: it is not [null], its position
    converts to numbers and its address parts print. *)
Definition mappable (element : value) : bool :=
  negb (is_nullish element) &&
  convertible (positionLat element) && convertible (positionLon element) &&
  forallb convertible (addressParts (field element "tags")).

(** The elements of a readable payload: [data.elements] is an array of
    elements that can be mapped. *)
Definition elementsOf (data : value) : option (list value) :=
  match field data "elements" with
  | VArr elements => if forallb mappable elements then Some elements else None
  | _ => None
  end.

(** The payload shape the specification expects of the point-of-interest
    source: an [elements] collection of objects. *)
Definition expectedShape_spec (data : value) : bool :=
  match field data "elements" with
  | VArr elements =>
      forallb (λ e, match e with VObj _ => true | _ => false end) elements
  | _ => false
  end.

(** The ways a point-of-interest exchange ends without a payload to map. *)
Inductive stationsFailure : fetch_outcome → Prop :=
  | stations_request_rejected :
      stationsFailure FetchRejects
  | stations_status_not_ok json :
      stationsFailure (FetchResolves false json)
  | stations_body_unparsable :
      stationsFailure (FetchResolves true JsonRejects)
  | stations_payload_malformed data :
      elementsOf data = None →
      stationsFailure (FetchResolves true (JsonResolves data)).

(** [{elements: [...]}] *)
Definition overpass_response (elements : list value) : value :=
  VObj {[ "elements" := VArr elements ]}.

(** A payload whose elements are no station records: [{}], [5], ["x"]. *)
Definition sample_malformed_payload : value :=
  overpass_response [VObj ∅; VNum 5; VStr "x"].

(** A point with its own coordinates, and an element that carries neither
    [lat]/[lon] nor a [center]. *)
Definition sample_node : value :=
  VObj {[ "id" := VNum 1; "lat" := VNum 40.8; "lon" := VNum (-74.1) ]}.
Definition sample_near_node : value :=
  VObj {[ "id" := VNum 3; "lat" := VNum 40.71; "lon" := VNum (-74.01) ]}.
Definition sample_element_without_position : value :=
  VObj {[ "id" := VNum 2; "tags" := VObj {[ "name" := VStr "Shell" ]} ]}.

(** Ascending order of [distance], as IEEE-754 [<=]. *)
Definition distance_le (a b : Station.t) : Prop :=
  (Station.distance a <=? Station.distance b)%float = true.

(** The stations at distance [d], in list order. *)
Definition at_distance (d : float) (l : list Station.t) : list Station.t :=
  List.filter (λ s, (Station.distance s =? d)%float) l.

(** The request [fetchNearbyGasStations] sends for given arguments, when
    the query can be built. *)
Definition stationsRequest `{Host} (lat lng radius : value) : completion request :=
  radiusInDegrees ← js_div (radiusOrDefault radius) (VNum 111000);
  query ← overpassQuery lat lng radiusInDegrees;
  mret (overpassRequest query).

(** The query can be built: the position and the radius convert. *)
Definition queryReadable (lat lng radius : value) : bool :=
  convertible lat && convertible lng && convertible (radiusOrDefault radius).

(** ** Distance Calculator *)

(** The value converts to the Number NaN. *)
Definition coercesToNaN `{Host} (v : value) : bool :=
  match to_number v with
  | Normal x => PrimFloat.is_nan x
  | Throw _ => false
  end.

(** ** Presentation Formatters *)

(** The exact value of a finite Number, as a fraction [(num, den)] with a
    positive denominator. *)
Definition exact_value (x : float) : option (Z * Z) :=
  match Prim2SF x with
  | S754_zero _ => Some (0, 1)
  | S754_finite s m e =>
      if 0 <=? e then Some (cond_Zopp s (Z.pos m) * 2 ^ e, 1)
      else Some (cond_Zopp s (Z.pos m), 2 ^ (- e))
  | S754_infinity _ | S754_nan => None
  end.

(** [n] is the integer nearest to [num / den], the larger one when two are
    equally near: n <= num / den + 1/2 < n + 1. *)
Definition nearest_integer (q : Z * Z) (n : Z) : Prop :=
  2 * q.2 * n <= 2 * q.1 + q.2 < 2 * q.2 * (n + 1).

(** Ten times a fraction. *)
Definition tenfold (q : Z * Z) : Z * Z := (10 * q.1, q.2).

(** The decimal numeral of an integer. *)
Definition decimal (n : Z) : string :=
  (if n <? 0 then "-" else "") +:+ digits_of_N (Z.abs_N n).

(** The labels in the words of the specification: whole feet, or miles to
    one decimal place, with the unit suffix. *)
Definition feetLabel_spec (label : string) : Prop :=
  ∃ n : Z, label = decimal n +:+ " ft".

Definition milesLabel_spec (label : string) : Prop :=
  ∃ whole tenth : N,
    (tenth < 10)%N ∧
    label = digits_of_N whole +:+ "." +:+ digits_of_N tenth +:+ " mi".

End Vocabulary.

(** Runs the monadic plumbing of a completion. *)
Ltac run :=
  cbn [mbind mret JS.completion_bind JS.completion_ret JS.await_fetch
       JS.await_json negb].

(** ** Map and page components *)

Section ComponentVocabulary.
Import JS.

(** A network that answers the Overpass endpoint with [stations] and every
    other request with [other]. *)
Definition overpassAnswering (stations other : fetch_outcome)
  : request → fetch_outcome :=
  λ r, if String.eqb (url r) "https://overpass-api.de/api/interpreter"
       then stations else other.

(** The exhaust trail after the interval callback has fired at the given
    times, oldest first, starting from the initial empty trail. *)
Definition exhaustTrail (ticks : list float) : list Puff.t :=
  foldl (λ prev now, updateExhaustPuffs now prev) [] ticks.

(** The puff created at time [now], after [k] further firings. *)
Definition agedPuff (k : nat) (now : float) : Puff.t :=
  {| Puff.id := now;
     Puff.left := Nat.iter k (λ x, x - 5)%float (-10)%float;
     Puff.opacity := Nat.iter k (λ x, x - 0.1)%float 0.8%float |}.

(** A puff that is still drawn: [puff.opacity > 0]. *)
Definition visible (puff : Puff.t) : Prop :=
  (0 <? Puff.opacity puff)%float = true.

(** A nearest station stored by an earlier refresh. *)
Definition sample_nearest : Nearest.t :=
  {| Nearest.station :=
       {| Station.id := VNum 1;
          Station.lat := VNum 40.8;
          Station.lng := VNum (-74.1);
          Station.name := VStr "Gas Station";
          Station.brand := VUndef;
          Station.operator := VUndef;
          Station.address := VNull;
          Station.distance := 8.5%float;
          Station.tags := VUndef |};
     Nearest.route := None;
     Nearest.duration := None |}.

(** What Nominatim answers for a position it cannot resolve. *)
Definition nominatim_error : value :=
  VObj {[ "error" := VStr "Unable to geocode" ]}.

End ComponentVocabulary.

(* ================================================================== *)
(** * Supporting facts                                                 *)
(* ================================================================== *)

(** ** Binary64 arithmetic *)

Section FloatFacts.

Lemma Prim2SF_nan : Prim2SF nan = S754_nan.
Proof. reflexivity. Qed.

Lemma sub_nan_l x : (nan - x)%float = nan.
Proof. apply Prim2SF_inj. rewrite sub_spec, Prim2SF_nan. reflexivity. Qed.

Lemma add_nan_l x : (nan + x)%float = nan.
Proof. apply Prim2SF_inj. rewrite add_spec, Prim2SF_nan. reflexivity. Qed.

Lemma mul_nan_l x : (nan * x)%float = nan.
Proof. apply Prim2SF_inj. rewrite mul_spec, Prim2SF_nan. reflexivity. Qed.

Lemma mul_nan_r x : (x * nan)%float = nan.
Proof.
  apply Prim2SF_inj. rewrite mul_spec, Prim2SF_nan.
  destruct (Prim2SF x); reflexivity.
Qed.

Lemma div_nan_l x : (nan / x)%float = nan.
Proof. apply Prim2SF_inj. rewrite div_spec, Prim2SF_nan. reflexivity. Qed.

(** *** Comparison through [SFord] *)

Lemma digits2_pos_bounds m :
  2 ^ (Z.pos (digits2_pos m) - 1) <= Z.pos m < 2 ^ Z.pos (digits2_pos m).
Proof.
  induction m as [m IH|m IH|]; cbn [digits2_pos];
    [rewrite (Pos2Z.inj_xI m) | rewrite (Pos2Z.inj_xO m) | cbn; lia];
    rewrite Pos2Z.inj_succ;
    replace (Z.succ (Z.pos (digits2_pos m)) - 1)
      with (Z.succ (Z.pos (digits2_pos m) - 1)) by lia;
    rewrite !Z.pow_succ_r by lia; lia.
Qed.

(** What validity says about a finite binary64 value *)
Lemma bounded_inv m e :
  bounded prec emax m e = true →
  emin <= e <= emax - prec ∧
  Z.pos (digits2_pos m) <= prec ∧
  (emin < e → Z.pos (digits2_pos m) = prec).
Proof.
  unfold bounded, canonical_mantissa, fexp.
  intros [Hc He]%andb_true_iff. apply Z.eqb_eq in Hc. apply Z.leb_le in He.
  lia.
Qed.

Lemma finite_below_infinity m e :
  bounded prec emax m e = true →
  Z.pos m * 2 ^ (e - emin) < 2 ^ (emax - emin).
Proof.
  intros (He & Hd & _)%bounded_inv.
  pose proof (digits2_pos_bounds m) as [_ Hm].
  assert (Z.pos m < 2 ^ prec).
  { eapply Z.lt_le_trans; [exact Hm|]. apply Z.pow_le_mono_r; lia. }
  replace (emax - emin) with (prec + (emax - prec - emin)) by lia.
  rewrite Z.pow_add_r by (unfold emin, prec, emax in *; lia).
  assert (0 < 2 ^ (e - emin)) by (apply Z.pow_pos_nonneg; lia).
  assert (2 ^ (e - emin) <= 2 ^ (emax - prec - emin))
    by (apply Z.pow_le_mono_r; lia).
  nia.
Qed.

Lemma lower_exponent_smaller m1 e1 m2 e2 :
  bounded prec emax m1 e1 = true → bounded prec emax m2 e2 = true →
  e1 < e2 →
  Z.pos m1 * 2 ^ (e1 - emin) < Z.pos m2 * 2 ^ (e2 - emin).
Proof.
  intros (He1 & Hd1 & _)%bounded_inv (He2 & _ & Hd2)%bounded_inv Hlt.
  pose proof (digits2_pos_bounds m1) as [_ Hm1].
  pose proof (digits2_pos_bounds m2) as [Hm2 _].
  rewrite Hd2 in Hm2 by lia.
  assert (Hm1' : Z.pos m1 < 2 * 2 ^ (prec - 1)).
  { eapply Z.lt_le_trans; [exact Hm1|].
    change (2 * 2 ^ (prec - 1)) with (2 ^ prec).
    apply Z.pow_le_mono_r; lia. }
  replace (e2 - emin) with ((e2 - e1 - 1) + 1 + (e1 - emin)) by lia.
  rewrite !Z.pow_add_r by lia. change (2 ^ 1) with 2.
  set (a := 2 ^ (e1 - emin)). set (b := 2 ^ (e2 - e1 - 1)).
  set (K := 2 ^ (prec - 1)) in *.
  assert (0 < a) by (apply Z.pow_pos_nonneg; lia).
  assert (1 <= b) by (apply (Z.pow_le_mono_r 2 0); lia).
  apply Z.lt_le_trans with (2 * K * a); [nia|].
  apply Z.le_trans with (2 * Z.pos m2 * a); [nia|].
  replace (Z.pos m2 * (b * 2 * a)) with (b * (2 * Z.pos m2 * a)) by ring.
  assert (0 <= 2 * Z.pos m2 * a) by nia. nia.
Qed.

Lemma pow2_pos k : 0 <= k → 0 < 2 ^ k.
Proof. intros. apply Z.pow_pos_nonneg; lia. Qed.

(** On valid values other than NaN, comparison is comparison of [SFord]. *)
Lemma SFcompare_SFord x y :
  valid_binary x = true → valid_binary y = true →
  x ≠ S754_nan → y ≠ S754_nan →
  SFcompare x y = Some (SFord x ?= SFord y).
Proof.
  intros Hx Hy Nx Ny.
  assert (Hinf : 0 < 2 ^ (emax - emin)) by (apply pow2_pos; discriminate).
  destruct x as [sx|sx| |sx mx ex], y as [sy|sy| |sy my ey];
    try congruence; cbn [SFcompare SFord valid_binary] in *.
  - reflexivity.
  - f_equal. symmetry. destruct sy; cbn [cond_Zopp];
      [apply Z.compare_gt_iff | apply Z.compare_lt_iff]; lia.
  - pose proof (bounded_inv _ _ Hy) as (He & _).
    pose proof (pow2_pos (ey - emin) ltac:(lia)).
    f_equal. symmetry. destruct sy; cbn [cond_Zopp];
      [apply Z.compare_gt_iff | apply Z.compare_lt_iff]; lia.
  - f_equal. symmetry. destruct sx; cbn [cond_Zopp];
      [apply Z.compare_lt_iff | apply Z.compare_gt_iff]; lia.
  - f_equal. symmetry. destruct sx, sy; cbn [cond_Zopp];
      first [apply Z.compare_eq_iff | apply Z.compare_lt_iff
            | apply Z.compare_gt_iff]; lia.
  - pose proof (finite_below_infinity _ _ Hy).
    pose proof (bounded_inv _ _ Hy) as (He & _).
    pose proof (pow2_pos (ey - emin) ltac:(lia)).
    f_equal. symmetry. destruct sx, sy; cbn [cond_Zopp];
      first [apply Z.compare_lt_iff | apply Z.compare_gt_iff]; lia.
  - pose proof (bounded_inv _ _ Hx) as (He & _).
    pose proof (pow2_pos (ex - emin) ltac:(lia)).
    f_equal. symmetry. destruct sx; cbn [cond_Zopp];
      [apply Z.compare_lt_iff | apply Z.compare_gt_iff]; lia.
  - pose proof (finite_below_infinity _ _ Hx).
    pose proof (bounded_inv _ _ Hx) as (He & _).
    pose proof (pow2_pos (ex - emin) ltac:(lia)).
    f_equal. symmetry. destruct sx, sy; cbn [cond_Zopp];
      first [apply Z.compare_lt_iff | apply Z.compare_gt_iff]; lia.
  - pose proof (bounded_inv _ _ Hx) as (Hex & _).
    pose proof (bounded_inv _ _ Hy) as (Hey & _).
    pose proof (pow2_pos (ex - emin) ltac:(lia)) as Px.
    pose proof (pow2_pos (ey - emin) ltac:(lia)) as Py.
    assert (Hcmp : (Z.pos mx * 2 ^ (ex - emin) ?= Z.pos my * 2 ^ (ey - emin)) =
                   match ex ?= ey with
                   | Lt => Lt | Gt => Gt
                   | Eq => Pos.compare_cont Eq mx my
                   end).
    { destruct (Z.compare_spec ex ey) as [->|Hlt|Hgt].
      - change (Pos.compare_cont Eq mx my) with (Z.pos mx ?= Z.pos my).
        destruct (Z.compare_spec (Z.pos mx) (Z.pos my)) as [E|E|E].
        + rewrite E. apply Z.compare_refl.
        + apply Z.compare_lt_iff. nia.
        + apply Z.compare_gt_iff. nia.
      - apply Z.compare_lt_iff. now apply lower_exponent_smaller.
      - apply Z.compare_gt_iff. now apply lower_exponent_smaller. }
    f_equal. destruct sx, sy; cbn [cond_Zopp].
    + rewrite Z.compare_opp,
        (Z.compare_antisym (Z.pos mx * 2 ^ (ex - emin))), Hcmp.
      destruct (ex ?= ey); reflexivity.
    + symmetry. apply Z.compare_lt_iff. nia.
    + symmetry. apply Z.compare_gt_iff. nia.
    + now rewrite Hcmp.
Qed.

Lemma is_nan_Prim2SF x : PrimFloat.is_nan x = true ↔ Prim2SF x = S754_nan.
Proof.
  unfold PrimFloat.is_nan. rewrite FloatAxioms.eqb_spec, negb_true_iff. unfold SFeqb.
  split.
  - intros Hc. destruct (Prim2SF x) eqn:E; [| |reflexivity|];
      rewrite SFcompare_SFord, Z.compare_refl in Hc;
      try discriminate; rewrite <- E; apply Prim2SF_valid.
  - intros ->. reflexivity.
Qed.

Lemma not_nan_Prim2SF x : PrimFloat.is_nan x = false → Prim2SF x ≠ S754_nan.
Proof. intros Hx E. apply is_nan_Prim2SF in E. congruence. Qed.

Lemma compare_ord x y :
  PrimFloat.is_nan x = false → PrimFloat.is_nan y = false →
  SFcompare (Prim2SF x) (Prim2SF y) = Some (ord x ?= ord y).
Proof.
  intros Hx Hy. apply SFcompare_SFord;
    auto using Prim2SF_valid, not_nan_Prim2SF.
Qed.

Lemma ltb_ord x y :
  PrimFloat.is_nan x = false → PrimFloat.is_nan y = false →
  (x <? y)%float = (ord x <? ord y).
Proof.
  intros Hx Hy. rewrite FloatAxioms.ltb_spec. unfold SFltb, Z.ltb.
  rewrite compare_ord by assumption. reflexivity.
Qed.

Lemma leb_ord x y :
  PrimFloat.is_nan x = false → PrimFloat.is_nan y = false →
  (x <=? y)%float = (ord x <=? ord y).
Proof.
  intros Hx Hy. rewrite FloatAxioms.leb_spec. unfold SFleb, Z.leb.
  rewrite compare_ord by assumption. reflexivity.
Qed.

Lemma eqb_ord x y :
  PrimFloat.is_nan x = false → PrimFloat.is_nan y = false →
  (x =? y)%float = (ord x =? ord y).
Proof.
  intros Hx Hy. rewrite FloatAxioms.eqb_spec. unfold SFeqb.
  rewrite compare_ord by assumption.
  destruct (Z.compare_spec (ord x) (ord y)); symmetry;
    [apply Z.eqb_eq | apply Z.eqb_neq | apply Z.eqb_neq]; lia.
Qed.

Lemma eqb_nan_l x y : PrimFloat.is_nan x = true → (x =? y)%float = false.
Proof.
  intros Hx%is_nan_Prim2SF. rewrite FloatAxioms.eqb_spec, Hx. reflexivity.
Qed.

Lemma eqb_nan_r x y : PrimFloat.is_nan y = true → (x =? y)%float = false.
Proof.
  intros Hy%is_nan_Prim2SF. rewrite FloatAxioms.eqb_spec, Hy. unfold SFeqb.
  destruct (Prim2SF x); reflexivity.
Qed.

(** *** Rounding keeps the sign of a non-zero integer *)

Lemma shr_m_shr_1 mrs : 0 <= shr_m mrs → shr_m (shr_1 mrs) = shr_m mrs / 2.
Proof.
  destruct mrs as [m r s]. cbn [shr_m shr_1]. intros Hm.
  destruct m as [|[p|p|]|p]; cbn [shr_m].
  - reflexivity.
  - rewrite (Pos2Z.inj_xI p).
    apply (Z.div_unique _ _ _ 1); lia.
  - rewrite (Pos2Z.inj_xO p).
    apply (Z.div_unique _ _ _ 0); lia.
  - reflexivity.
  - lia.
Qed.

Lemma shr_m_iter p : ∀ mrs,
  0 <= shr_m mrs →
  shr_m (SpecFloat.iter_pos shr_1 p mrs) = shr_m mrs / 2 ^ Z.pos p.
Proof.
  induction p as [p IH|p IH|]; intros mrs Hm; cbn [SpecFloat.iter_pos].
  - assert (P : 0 < 2 ^ Z.pos p) by (apply pow2_pos; lia).
    assert (H1 : 0 <= shr_m (shr_1 mrs)).
    { rewrite shr_m_shr_1 by assumption. apply Z.div_pos; lia. }
    assert (H2 : 0 <= shr_m (SpecFloat.iter_pos shr_1 p (shr_1 mrs))).
    { rewrite IH by assumption. apply Z.div_pos; lia. }
    rewrite (IH _ H2), (IH _ H1), shr_m_shr_1 by assumption.
    rewrite !Z.div_div by lia. f_equal.
    rewrite (Pos2Z.inj_xI p), Z.pow_add_r, Z.pow_mul_r by lia.
    change (2 ^ 2) with (2 * 2). change (2 ^ 1) with 2.
    rewrite Z.pow_mul_l. ring.
  - assert (P : 0 < 2 ^ Z.pos p) by (apply pow2_pos; lia).
    assert (H1 : 0 <= shr_m (SpecFloat.iter_pos shr_1 p mrs)).
    { rewrite IH by assumption. apply Z.div_pos; lia. }
    rewrite (IH _ H1), (IH _ Hm).
    rewrite !Z.div_div by lia. f_equal.
    rewrite (Pos2Z.inj_xO p), Z.pow_mul_r by lia.
    change (2 ^ 2) with (2 * 2).
    rewrite Z.pow_mul_l. ring.
  - now rewrite shr_m_shr_1.
Qed.

Lemma shr_m_of_loc m l : shr_m (shr_record_of_loc m l) = m.
Proof. destruct l as [|[]]; reflexivity. Qed.

Lemma shr_fexp_positive m e l :
  0 < m → emin <= e →
  0 < shr_m (fst (shr_fexp prec emax m e l)) ∧
  emin <= snd (shr_fexp prec emax m e l).
Proof.
  intros Hm He. unfold shr_fexp, shr.
  destruct m as [|p|p]; try lia. cbn [Zdigits2].
  pose proof (digits2_pos_bounds p) as [Hlo _].
  set (d := Z.pos (digits2_pos p)) in *.
  destruct (fexp prec emax (d + e) - e) as [|n|n] eqn:En; cbn [fst snd];
    rewrite ?shr_m_of_loc; try (split; lia).
  rewrite shr_m_iter by (rewrite shr_m_of_loc; lia).
  rewrite shr_m_of_loc. unfold fexp in En.
  assert (Z.pos n <= d - 1) by (unfold prec in *; lia).
  split; [|lia].
  apply Z.div_str_pos. split; [now apply pow2_pos|].
  apply Z.le_trans with (2 ^ (d - 1)); [|exact Hlo].
  apply Z.pow_le_mono_r; lia.
Qed.

Lemma round_nearest_even_positive m l : 0 < m → 0 < round_nearest_even m l.
Proof.
  intros Hm. destruct l as [|[]]; cbn [round_nearest_even];
    try destruct (Z.even m); lia.
Qed.

Lemma binary_round_aux_signed s m e l :
  0 < m → emin <= e → SFsigned s (binary_round_aux prec emax s m e l).
Proof.
  intros Hm He. unfold binary_round_aux.
  pose proof (shr_fexp_positive m e l Hm He) as [Hm1 He1].
  destruct (shr_fexp prec emax m e l) as [mrs1 e1]. cbn [fst snd] in *.
  pose proof (round_nearest_even_positive _ (loc_of_shr_record mrs1) Hm1) as Hr.
  pose proof (shr_fexp_positive _ e1 loc_Exact Hr He1) as [Hm2 He2].
  destruct (shr_fexp prec emax _ e1 loc_Exact) as [mrs2 e2].
  cbn [fst snd] in *.
  destruct (shr_m mrs2) as [|q|q]; try lia.
  destruct (e2 <=? emax - prec); [right; eauto | now left].
Qed.

Lemma iter_xO m d : Z.pos (Pos.iter xO m d) = Z.pos m * 2 ^ Z.pos d.
Proof.
  induction d as [|d IH] using Pos.peano_ind.
  - cbn. lia.
  - rewrite Pos.iter_succ, Pos2Z.inj_xO, IH, Pos2Z.inj_succ, Z.pow_succ_r by lia.
    ring.
Qed.

Lemma shl_align_value m e e' :
  e' <= e → Z.pos (fst (shl_align m e e')) = Z.pos m * 2 ^ (e - e').
Proof.
  intros He. unfold shl_align.
  destruct (e' - e) as [|d|d] eqn:Ed; cbn [fst]; try lia.
  - replace (e - e') with 0 by lia. lia.
  - rewrite iter_xO. f_equal. f_equal. lia.
Qed.

Lemma binary_round_signed s m e :
  emin <= e → SFsigned s (binary_round prec emax s m e).
Proof.
  intros He. unfold binary_round.
  destruct (shl_align m e _) as [mz ez] eqn:Ea.
  apply binary_round_aux_signed; [lia|].
  unfold shl_align in Ea.
  destruct (fexp prec emax (Z.pos (digits2_pos m) + e) - e) eqn:Ed;
    injection Ea as <- <-; try lia.
  unfold fexp. lia.
Qed.

(** *** The sign of a difference *)

Lemma cond_Zopp_mul s a b : cond_Zopp s a * b = cond_Zopp s (a * b).
Proof. destruct s; cbn [cond_Zopp]; ring. Qed.

Lemma SFsub_positive x y :
  valid_binary x = true → valid_binary y = true →
  x ≠ S754_nan → y ≠ S754_nan →
  SFltb (S754_zero false) (SF64sub x y) = (SFord y <? SFord x).
Proof.
  intros Hx Hy Nx Ny.
  assert (Hinf : 0 < 2 ^ (emax - emin)) by (apply pow2_pos; discriminate).
  destruct x as [sx|sx| |sx mx ex], y as [sy|sy| |sy my ey];
    try congruence; cbn [valid_binary] in *.
  - destruct sx, sy; reflexivity.
  - destruct sy; cbn [SF64sub SFsub negb SFltb SFcompare SFord cond_Zopp];
      symmetry; [apply Z.ltb_lt | apply Z.ltb_ge]; lia.
  - pose proof (bounded_inv _ _ Hy) as (He & _).
    pose proof (pow2_pos (ey - emin) ltac:(lia)).
    destruct sy; cbn [SF64sub SFsub negb SFltb SFcompare SFord cond_Zopp];
      symmetry; [apply Z.ltb_lt | apply Z.ltb_ge]; lia.
  - destruct sx; cbn [SF64sub SFsub negb SFltb SFcompare SFord cond_Zopp];
      symmetry; [apply Z.ltb_ge | apply Z.ltb_lt]; lia.
  - destruct sx, sy; cbn [SF64sub SFsub negb SFltb SFcompare SFord cond_Zopp];
      symmetry; first [apply Z.ltb_ge; lia | apply Z.ltb_lt; lia].
  - pose proof (finite_below_infinity _ _ Hy).
    pose proof (bounded_inv _ _ Hy) as (He & _).
    pose proof (pow2_pos (ey - emin) ltac:(lia)).
    destruct sx, sy; cbn [SF64sub SFsub negb SFltb SFcompare SFord cond_Zopp];
      symmetry; first [apply Z.ltb_ge; lia | apply Z.ltb_lt; lia].
  - pose proof (bounded_inv _ _ Hx) as (He & _).
    pose proof (pow2_pos (ex - emin) ltac:(lia)).
    destruct sx; cbn [SF64sub SFsub negb SFltb SFcompare SFord cond_Zopp];
      symmetry; [apply Z.ltb_ge | apply Z.ltb_lt]; lia.
  - pose proof (finite_below_infinity _ _ Hx).
    pose proof (bounded_inv _ _ Hx) as (He & _).
    pose proof (pow2_pos (ex - emin) ltac:(lia)).
    destruct sx, sy; cbn [SF64sub SFsub negb SFltb SFcompare SFord cond_Zopp];
      symmetry; first [apply Z.ltb_ge; lia | apply Z.ltb_lt; lia].
  - pose proof (bounded_inv _ _ Hx) as (Hex & _).
    pose proof (bounded_inv _ _ Hy) as (Hey & _).
    cbn [SF64sub SFsub SFord]. set (ez := Z.min ex ey).
    pose proof (shl_align_value mx ex ez ltac:(lia)) as Hmx.
    pose proof (shl_align_value my ey ez ltac:(lia)) as Hmy.
    set (d := cond_Zopp sx (Z.pos (fst (shl_align mx ex ez))) -
              cond_Zopp sy (Z.pos (fst (shl_align my ey ez)))).
    pose proof (pow2_pos (ez - emin) ltac:(lia)) as Pz.
    assert (Hd : d * 2 ^ (ez - emin) =
                 cond_Zopp sx (Z.pos mx * 2 ^ (ex - emin)) -
                 cond_Zopp sy (Z.pos my * 2 ^ (ey - emin))).
    { unfold d. rewrite Z.mul_sub_distr_r, !cond_Zopp_mul, Hmx, Hmy.
      rewrite <- !Z.mul_assoc, <- !Z.pow_add_r by lia.
      do 4 f_equal; lia. }
    unfold binary_normalize. destruct d as [|p|p] eqn:Ed.
    + cbn [SFltb SFcompare]. symmetry. apply Z.ltb_ge. lia.
    + destruct (binary_round_signed false p ez ltac:(lia)) as [->|(m & e & ->)];
        cbn [SFltb SFcompare]; symmetry; apply Z.ltb_lt; nia.
    + destruct (binary_round_signed true p ez ltac:(lia)) as [->|(m & e & ->)];
        cbn [SFltb SFcompare]; symmetry; apply Z.ltb_ge; nia.
Qed.

Lemma sub_positive x y :
  PrimFloat.is_nan x = false → PrimFloat.is_nan y = false →
  (0 <? x - y)%float = (ord y <? ord x).
Proof.
  intros Hx Hy. rewrite FloatAxioms.ltb_spec, sub_spec.
  change (Prim2SF 0) with (S754_zero false).
  apply SFsub_positive; auto using Prim2SF_valid, not_nan_Prim2SF.
Qed.

(** *** Sign symmetry of the arithmetic operations *)

Lemma opp_involutive x : (- - x)%float = x.
Proof.
  apply Prim2SF_inj. rewrite !opp_spec.
  destruct (Prim2SF x) as [s|s| |s m e]; cbn [SFopp];
    rewrite ?negb_involutive; reflexivity.
Qed.

Lemma is_nan_opp x : PrimFloat.is_nan (- x) = PrimFloat.is_nan x.
Proof.
  destruct (PrimFloat.is_nan x) eqn:Hx.
  - apply is_nan_Prim2SF. apply is_nan_Prim2SF in Hx.
    rewrite opp_spec, Hx. reflexivity.
  - destruct (PrimFloat.is_nan (- x)) eqn:Hn; [|reflexivity].
    apply is_nan_Prim2SF in Hn. rewrite opp_spec in Hn.
    apply not_nan_Prim2SF in Hx.
    destruct (Prim2SF x); cbn [SFopp] in Hn; congruence.
Qed.

Lemma mul_comm x y : (x * y)%float = (y * x)%float.
Proof.
  apply Prim2SF_inj. rewrite !mul_spec.
  destruct (Prim2SF x) as [sx|sx| |sx mx ex],
           (Prim2SF y) as [sy|sy| |sy my ey];
    cbn [SF64mul SFmul]; rewrite ?(xorb_comm sx sy); try reflexivity.
  rewrite (Pos.mul_comm mx my), (Z.add_comm ex ey). reflexivity.
Qed.

Lemma binary_round_aux_opp s m e l :
  binary_round_aux prec emax (negb s) m e l =
  SFopp (binary_round_aux prec emax s m e l).
Proof.
  unfold binary_round_aux.
  destruct (shr_fexp prec emax m e l) as [mrs1 e1].
  destruct (shr_fexp prec emax _ e1 loc_Exact) as [mrs2 e2].
  destruct (shr_m mrs2); [reflexivity| |reflexivity].
  destruct (e2 <=? emax - prec); reflexivity.
Qed.

Lemma binary_round_opp s m e :
  binary_round prec emax (negb s) m e = SFopp (binary_round prec emax s m e).
Proof.
  unfold binary_round. destruct (shl_align m e _) as [mz ez].
  apply binary_round_aux_opp.
Qed.

Lemma xorb_negb_l a b : xorb (negb a) b = negb (xorb a b).
Proof. destruct a, b; reflexivity. Qed.

Lemma mul_opp_l x y : (- x * y)%float = (- (x * y))%float.
Proof.
  apply Prim2SF_inj. rewrite opp_spec, !mul_spec, opp_spec.
  destruct (Prim2SF x) as [sx|sx| |sx mx ex],
           (Prim2SF y) as [sy|sy| |sy my ey];
    cbn [SF64mul SFmul SFopp]; rewrite ?xorb_negb_l; try reflexivity.
  apply binary_round_aux_opp.
Qed.

Lemma mul_opp_r x y : (x * - y)%float = (- (x * y))%float.
Proof. now rewrite (mul_comm x (- y)), mul_opp_l, (mul_comm y x). Qed.

Lemma mul_opp_opp x : (- x * - x)%float = (x * x)%float.
Proof.
  rewrite mul_opp_l, (mul_comm x (- x)), mul_opp_l. apply opp_involutive.
Qed.

Lemma div_opp_l x y : (- x / y)%float = (- (x / y))%float.
Proof.
  apply Prim2SF_inj. rewrite opp_spec, !div_spec, opp_spec.
  destruct (Prim2SF x) as [sx|sx| |sx mx ex],
           (Prim2SF y) as [sy|sy| |sy my ey];
    cbn [SF64div SFdiv SFopp]; rewrite ?xorb_negb_l; try reflexivity.
  destruct (SFdiv_core_binary prec emax (Z.pos mx) ex (Z.pos my) ey)
    as [[mz ez] lz].
  apply binary_round_aux_opp.
Qed.

(** Swapping the operands of a subtraction negates the result, unless both
    differences are +0. *)
Lemma sub_swap x y :
  (y - x)%float = (- (x - y))%float ∨
  ((x - y)%float = 0%float ∧ (y - x)%float = 0%float).
Proof.
  assert (E : SF64sub (Prim2SF y) (Prim2SF x) =
              SFopp (SF64sub (Prim2SF x) (Prim2SF y)) ∨
              (SF64sub (Prim2SF x) (Prim2SF y) = S754_zero false ∧
               SF64sub (Prim2SF y) (Prim2SF x) = S754_zero false)).
  { destruct (Prim2SF x) as [sx|sx| |sx mx ex],
             (Prim2SF y) as [sy|sy| |sy my ey];
      cbn [SF64sub SFsub SFopp]; try (left; reflexivity);
      try (destruct sx, sy; cbn [negb]; auto; fail).
    rewrite (Z.min_comm ey ex). set (ez := Z.min ex ey).
    set (a := cond_Zopp sx (Z.pos (fst (shl_align mx ex ez)))).
    set (b := cond_Zopp sy (Z.pos (fst (shl_align my ey ez)))).
    replace (b - a) with (- (a - b)) by ring.
    destruct (a - b) as [|p|p]; cbn [Z.opp binary_normalize].
    - right. split; reflexivity.
    - left. apply (binary_round_opp false).
    - left. apply (binary_round_opp true). }
  destruct E as [E|[E1 E2]].
  - left. apply Prim2SF_inj. rewrite opp_spec, !sub_spec. exact E.
  - right. split; apply Prim2SF_inj; rewrite sub_spec; assumption.
Qed.

(** *** Array and string lengths *)

Lemma length_number_is_zero n :
  (JS.length_number n =? 0)%float = (n =? 0)%nat.
Proof.
  unfold JS.length_number. rewrite FloatAxioms.eqb_spec, of_uint63_spec.
  change (Prim2SF 0) with (S754_zero false).
  rewrite Uint63.of_Z_spec, Z.mod_small
    by (change Uint63.wB with (2 ^ 63); lia).
  destruct n as [|n].
  - reflexivity.
  - destruct (Z.of_nat (S n) `min` (2 ^ 53 - 1)) as [|p|p] eqn:Ep; try lia.
    cbn [binary_normalize].
    destruct (binary_round_signed false p 0 ltac:(discriminate))
      as [->|(m & e & ->)]; reflexivity.
Qed.

End FloatFacts.

(** ** Reading values *)

Section ReadingValues.
Import JS.

Lemma get_field v k : is_nullish v = false → get v k = Normal (field v k).
Proof.
  intros Hv. unfold field. destruct (get v k) as [x|e] eqn:E; [reflexivity|].
  destruct v; try discriminate Hv; simpl in E;
    repeat match type of E with
           | context [if ?b then _ else _] => destruct b
           | context [match ?o with Some _ => _ | None => _ end] => destruct o
           end; discriminate E.
Qed.

Lemma get_nullish {v} k : is_nullish v = true → get v k = Throw TypeError.
Proof. destruct v; try discriminate; reflexivity. Qed.

Lemma field_nullish {v} k : is_nullish v = true → field v k = VUndef.
Proof. destruct v; try discriminate; reflexivity. Qed.

Lemma get_opt_field v k : get_opt v k = Normal (field_opt v k).
Proof.
  unfold get_opt, field_opt. destruct (is_nullish v) eqn:Hv; [reflexivity|].
  now apply get_field.
Qed.

Lemma field_defined v k : is_nullish (field v k) = false → is_nullish v = false.
Proof.
  destruct (is_nullish v) eqn:Hv; [|reflexivity].
  rewrite (field_nullish k Hv). discriminate.
Qed.

Lemma truthy_not_nullish v : truthy v = true → is_nullish v = false.
Proof. destruct v; try discriminate; reflexivity. Qed.

Lemma mapM_Normal {A B} (f : A → completion B) (g : A → B) (l : list A) :
  Forall (λ x, f x = Normal (g x)) l → mapM f l = Normal (map g l).
Proof.
  induction 1 as [|x l Hx _ IH]; [reflexivity|].
  cbn. rewrite Hx. cbn. rewrite IH. reflexivity.
Qed.

Lemma mapM_Throw {A B} (f : A → completion B) (l : list A) :
  Exists (λ x, throws (f x)) l → throws (mapM f l).
Proof.
  induction 1 as [x l [e Hx]|x l _ [e IH]].
  - exists e. cbn. rewrite Hx. reflexivity.
  - cbn. destruct (f x) as [y|e']; cbn; [|eexists; reflexivity].
    rewrite IH. eexists; reflexivity.
Qed.

Lemma forallb_true_Forall {A} (f : A → bool) (l : list A) :
  forallb f l = true → Forall (λ x, f x = true) l.
Proof.
  induction l as [|x l IH]; cbn; [constructor|].
  intros [Hx Hl]%andb_true_iff. constructor; auto.
Qed.

Lemma forallb_false_Exists {A} (f : A → bool) (l : list A) :
  forallb f l = false → Exists (λ x, f x = false) l.
Proof.
  induction l as [|x l IH]; cbn; [discriminate|].
  destruct (f x) eqn:Hx; cbn; [|now left]. intros Hl. right. auto.
Qed.

Lemma map_as_fmap {A B} (f : A → B) (l : list A) : map f l = f <$> l.
Proof. induction l as [|x l IH]; [reflexivity|]. cbn. now rewrite IH. Qed.

End ReadingValues.

(** ** Conversions *)

Section Conversions.
Import JS.
Context `{Host}.

(** Induction on a value through the elements of arrays. *)
Lemma value_array_ind (P : value → Prop) :
  P VUndef → P VNull → (∀ b, P (VBool b)) → (∀ x, P (VNum x)) →
  (∀ s, P (VStr s)) → (∀ l, Forall P l → P (VArr l)) → (∀ m, P (VObj m)) →
  ∀ v, P v.
Proof.
  intros Hu Hn Hb Hx Hs Ha Ho. fix IH 1.
  intros [| |b|x|s|l|m];
    [exact Hu|exact Hn|apply Hb|apply Hx|apply Hs| |apply Ho].
  apply Ha. induction l as [|e l IHl]; constructor; [apply IH | exact IHl].
Qed.

Lemma mapM_Throw_inv {A B} (f : A → completion B) (l : list A) e :
  mapM f l = Throw e → Exists (λ x, f x = Throw e) l.
Proof.
  induction l as [|x l IH]; [discriminate|]. cbn [mapM].
  destruct (f x) as [y|e'] eqn:Hx; cbn [mbind completion_bind].
  - destruct (mapM f l) as [k|e'']; [discriminate|]. intros [= <-].
    right. now apply IH.
  - intros [= <-]. now left.
Qed.

Lemma mapM_returns {A B} (f : A → completion B) (l : list A) :
  Forall (λ x, ∃ y, f x = Normal y) l → ∃ k, mapM f l = Normal k.
Proof.
  induction 1 as [|x l [y Hy] _ [k Hk]]; [now exists []|].
  exists (y :: k). cbn [mapM]. rewrite Hy. run. now rewrite Hk.
Qed.

(** A conversion throws nothing but a TypeError. *)
Lemma to_string_error v e : to_string v = Throw e → e = TypeError.
Proof.
  revert e. induction v as [| | | | |l IH|m] using value_array_ind; intros e;
    cbn [to_string]; try discriminate.
  - destruct (mapM _ l) as [k|e'] eqn:Hk; [discriminate|]. intros [= <-].
    apply mapM_Throw_inv in Hk. rewrite Exists_exists in Hk.
    destruct Hk as (x & Hin & Hx). rewrite Forall_forall in IH.
    destruct x; try discriminate Hx; exact (IH _ Hin _ Hx).
  - destruct (m !! "toString"); [now intros [= <-]|discriminate].
Qed.

Lemma to_string_convertible v :
  convertible v = true → ∃ s, to_string v = Normal s.
Proof.
  induction v as [| | | | |l IH|m] using value_array_ind;
    cbn [to_string convertible]; eauto.
  - intros Hl. apply forallb_true_Forall in Hl.
    destruct (mapM_returns
                (λ e, match e with
                      | VUndef | VNull => Normal ""
                      | _ => to_string e
                      end) l) as [k ->]; [|run; eauto].
    rewrite Forall_forall in *. intros x Hin.
    destruct (IH x Hin (Hl x Hin)) as [sx Hsx].
    destruct x; eauto.
  - destruct (m !! "toString"); [discriminate|eauto].
Qed.

Lemma to_string_unconvertible v :
  convertible v = false → to_string v = Throw TypeError.
Proof.
  intros Hv. destruct (to_string v) as [s|e] eqn:Hs.
  - exfalso. revert s Hs Hv.
    induction v as [| | | | |l IH|m] using value_array_ind;
      cbn [to_string convertible]; try discriminate.
    + intros s Hs Hl. apply forallb_false_Exists in Hl.
      rewrite Exists_exists in Hl. destruct Hl as (x & Hin & Hx).
      rewrite Forall_forall in IH.
      destruct (mapM _ l) as [k|e] eqn:Hk; [|discriminate Hs].
      clear Hs. revert k Hk. induction l as [|y l IHl]; intros k Hk;
        [now apply not_elem_of_nil in Hin|].
      cbn [mapM] in Hk.
      destruct (match y with
                | VUndef | VNull => Normal ""
                | _ => to_string y
                end) as [sy|] eqn:Hy; [|discriminate Hk].
      revert Hk. run. destruct (mapM _ l) as [k'|] eqn:Hk'; [|discriminate].
      intros _. apply elem_of_cons in Hin as [->|Hin].
      * destruct y; try discriminate Hx; exact (IH _ ltac:(left) _ Hy Hx).
      * apply (IHl (λ z Hz, IH z ltac:(now right)) Hin k' eq_refl).
    + intros s. destruct (m !! "toString"); discriminate.
  - now rewrite (to_string_error _ _ Hs).
Qed.

Lemma to_number_convertible v :
  convertible v = true → ∃ x, to_number v = Normal x.
Proof.
  intros Hv. destruct v; cbn [to_number]; eauto;
    destruct (to_string_convertible _ Hv) as [s ->]; run; eauto.
Qed.

Lemma to_number_unconvertible v :
  convertible v = false → to_number v = Throw TypeError.
Proof.
  intros Hv. destruct v; try discriminate Hv; cbn [to_number];
    now rewrite (to_string_unconvertible _ Hv).
Qed.

Lemma to_number_returns v x : to_number v = Normal x → convertible v = true.
Proof.
  intros Hx. destruct (convertible v) eqn:Hv; [reflexivity|].
  rewrite (to_number_unconvertible _ Hv) in Hx. discriminate Hx.
Qed.

Lemma to_string_returns v s : to_string v = Normal s → convertible v = true.
Proof.
  intros Hs. destruct (convertible v) eqn:Hv; [reflexivity|].
  rewrite (to_string_unconvertible _ Hv) in Hs. discriminate Hs.
Qed.

(** The conversions of a converted Number. *)
Lemma to_number_VNum x : to_number (VNum x) = Normal x.
Proof. reflexivity. Qed.

(** [a + b] returns when both operands convert. *)
Lemma js_add_convertible a b :
  convertible a = true → convertible b = true →
  ∃ v, js_add a b = Normal v ∧ convertible v = true.
Proof.
  intros Ha Hb. unfold js_add, to_primitive.
  destruct a; destruct b; run;
    repeat match goal with
    | |- context [to_string ?v] =>
        let s := fresh "s" in let E := fresh "E" in
        destruct (to_string_convertible v ltac:(assumption)) as [s E];
        rewrite E; run
    end;
    cbn [to_string to_number]; run; eauto.
Qed.

Lemma js_add_unconvertible a b :
  convertible a && convertible b = false → js_add a b = Throw TypeError.
Proof.
  intros Hab. unfold js_add, to_primitive.
  destruct (convertible a) eqn:Ha.
  - cbn [andb] in Hab.
    destruct a; destruct b; try discriminate Hab; run;
      repeat match goal with
      | |- context [to_string (VArr ?l)] =>
          first [ rewrite (to_string_unconvertible (VArr l)) by assumption
                | let s := fresh "s" in let E := fresh "E" in
                  destruct (to_string_convertible (VArr l) ltac:(assumption))
                    as [s E]; rewrite E ]; run
      | |- context [to_string (VObj ?m)] =>
          first [ rewrite (to_string_unconvertible (VObj m)) by assumption
                | let s := fresh "s" in let E := fresh "E" in
                  destruct (to_string_convertible (VObj m) ltac:(assumption))
                    as [s E]; rewrite E ]; run
      end; reflexivity.
  - destruct a; try discriminate Ha;
      now rewrite (to_string_unconvertible _ Ha).
Qed.

End Conversions.

(** ** The stable insertion sort *)

Section SortFacts.
Context {A : Type} (comparefn : A → A → float) (key : A → Z) (ok : A → Prop).
Hypothesis comparefn_key : ∀ x y, ok x → ok y →
  (0 <? JS.SortCompare comparefn x y)%float = (key y <? key x).

Lemma sort_insert_Permutation x l :
  Permutation (JS.sort_insert comparefn x l) (x :: l).
Proof.
  induction l as [|y l IH]; cbn [JS.sort_insert]; [reflexivity|].
  destruct (0 <? JS.SortCompare comparefn x y)%float; [|reflexivity].
  rewrite IH. apply perm_swap.
Qed.

Lemma sort_cons x l :
  JS.sort comparefn (x :: l) = JS.sort_insert comparefn x (JS.sort comparefn l).
Proof. reflexivity. Qed.

Lemma sort_Permutation l : Permutation (JS.sort comparefn l) l.
Proof.
  induction l as [|x l IH]; [reflexivity|].
  rewrite sort_cons, sort_insert_Permutation. now constructor.
Qed.

Lemma sort_insert_sorted x l :
  ok x → Forall ok l →
  StronglySorted (λ a b, key a <= key b) l →
  StronglySorted (λ a b, key a <= key b) (JS.sort_insert comparefn x l).
Proof.
  intros Hx Hl Hs. induction Hs as [|y l Hs IH Hy]; cbn [JS.sort_insert].
  - repeat constructor.
  - apply Forall_cons in Hl as [Hoky Hl].
    rewrite comparefn_key by assumption.
    destruct (Z.ltb_spec (key y) (key x)) as [Hlt|Hge].
    + constructor; [now apply IH|].
      rewrite sort_insert_Permutation. constructor; [lia|exact Hy].
    + constructor; [now constructor|].
      constructor; [exact Hge|].
      eapply Forall_impl; [exact Hy|]. cbn beta. intros z Hz. lia.
Qed.

Lemma sort_sorted l :
  Forall ok l → StronglySorted (λ a b, key a <= key b) (JS.sort comparefn l).
Proof.
  induction 1 as [|x l Hx Hl IH]; [constructor|].
  rewrite sort_cons. apply sort_insert_sorted; [exact Hx| |exact IH].
  now rewrite sort_Permutation.
Qed.

Lemma sort_insert_stable x l k :
  ok x → Forall ok l →
  List.filter (λ a, key a =? k) (JS.sort_insert comparefn x l) =
  List.filter (λ a, key a =? k) (x :: l).
Proof.
  intros Hx Hl. induction Hl as [|y l Hy Hl IH]; cbn [JS.sort_insert];
    [reflexivity|].
  rewrite comparefn_key by assumption.
  destruct (Z.ltb_spec (key y) (key x)) as [Hlt|Hge]; [|reflexivity].
  cbn [List.filter] in *. rewrite IH.
  destruct (Z.eqb_spec (key y) k) as [Ey|Ny];
    destruct (Z.eqb_spec (key x) k) as [Ex|Nx]; try reflexivity; lia.
Qed.

Lemma sort_stable l k :
  Forall ok l →
  List.filter (λ a, key a =? k) (JS.sort comparefn l) =
  List.filter (λ a, key a =? k) l.
Proof.
  induction 1 as [|x l Hx Hl IH]; [reflexivity|].
  rewrite sort_cons.
  rewrite sort_insert_stable; [|exact Hx|now rewrite sort_Permutation].
  cbn [List.filter]. now rewrite IH.
Qed.

End SortFacts.

(** The sorted, stable arrangement of a list is unique, so the insertion
    sort returns what any stable sort returns. *)
Section StableSortUnique.
Context {A : Type} (key : A → Z).

Lemma filter_key_In k (l : list A) x :
  In x l → key x = k → In x (List.filter (λ a, key a =? k) l).
Proof.
  intros Hin Hk. apply List.filter_In. split; [exact Hin|].
  now apply Z.eqb_eq.
Qed.

Lemma sorted_stable_unique (l1 l2 : list A) :
  StronglySorted (λ a b, key a <= key b) l1 →
  StronglySorted (λ a b, key a <= key b) l2 →
  (∀ k, List.filter (λ a, key a =? k) l1 = List.filter (λ a, key a =? k) l2) →
  l1 = l2.
Proof.
  intros H1. revert l2.
  induction H1 as [|x l1 H1 IH Hx]; intros l2 H2 Hf.
  - destruct l2 as [|y l2]; [reflexivity|].
    specialize (Hf (key y)). cbn in Hf. rewrite Z.eqb_refl in Hf.
    discriminate Hf.
  - destruct H2 as [|y l2 H2 Hy].
    { specialize (Hf (key x)). cbn in Hf. rewrite Z.eqb_refl in Hf.
      discriminate Hf. }
    assert (Hkey : key y = key x).
    { assert (Hxy : key y <= key x).
      { assert (Hin : In x (y :: l2)).
        { eapply (proj1 (List.filter_In (λ a, key a =? key x) x (y :: l2))).
          rewrite <- Hf. cbn. rewrite Z.eqb_refl. now left. }
        destruct Hin as [->|Hin]; [lia|].
        rewrite List.Forall_forall in Hy. now apply Hy. }
      assert (Hyx : key x <= key y).
      { assert (Hin : In y (x :: l1)).
        { eapply (proj1 (List.filter_In (λ a, key a =? key y) y (x :: l1))).
          rewrite Hf. cbn. rewrite Z.eqb_refl. now left. }
        destruct Hin as [->|Hin]; [lia|].
        rewrite List.Forall_forall in Hx. now apply Hx. }
      lia. }
    assert (Hhead : x = y).
    { specialize (Hf (key x)). cbn in Hf.
      rewrite Z.eqb_refl, Hkey, Z.eqb_refl in Hf. now injection Hf. }
    subst y. f_equal. apply IH; [exact H2|].
    intros k. specialize (Hf k). cbn in Hf.
    destruct (key x =? k); [now injection Hf | exact Hf].
Qed.

End StableSortUnique.

Lemma sort_is_the_stable_sort {A : Type} (comparefn : A → A → float)
    (key : A → Z) (ok : A → Prop) (l l' : list A) :
  (∀ x y, ok x → ok y →
     (0 <? JS.SortCompare comparefn x y)%float = (key y <? key x)) →
  Forall ok l →
  StronglySorted (λ a b, key a <= key b) l' →
  (∀ k, List.filter (λ a, key a =? k) l' = List.filter (λ a, key a =? k) l) →
  l' = JS.sort comparefn l.
Proof.
  intros Hcmp Hok Hsorted Hstable. apply (sorted_stable_unique key).
  - exact Hsorted.
  - now apply (sort_sorted comparefn key ok).
  - intros k. rewrite Hstable. symmetry.
    now apply (sort_stable comparefn key ok).
Qed.

(* ================================================================== *)
(** * Properties of the module                                         *)
(* ================================================================== *)

(** ** Distance Calculator *)

Section DistanceCalculator.
Import JS.
Context `{Host}.

Lemma sin_opp x :
  (∀ y, sin_approx (- y) = (- sin_approx y)%float) →
  JS.sin (- x) = (- JS.sin x)%float.
Proof.
  intros Hodd. unfold JS.sin. rewrite is_nan_opp.
  destruct (PrimFloat.is_nan x); [reflexivity | apply Hodd].
Qed.

(** The two haversine terms do not change when a difference of operands is
    taken the other way round. *)
Lemma haversine_term_swap (u v k : float) :
  (∀ y, sin_approx (- y) = (- sin_approx y)%float) →
  let d := ((v - u) * (PI / 180) / 2)%float in
  let d' := ((u - v) * (PI / 180) / 2)%float in
  (JS.sin d * JS.sin d = JS.sin d' * JS.sin d')%float ∧
  (k * JS.sin d * JS.sin d = k * JS.sin d' * JS.sin d')%float.
Proof.
  intros Hodd d d'.
  destruct (sub_swap u v) as [E|[E1 E2]].
  - assert (Hd : d = (- d')%float).
    { unfold d, d'. now rewrite E, mul_opp_l, div_opp_l. }
    rewrite Hd, (sin_opp _ Hodd). split.
    + apply mul_opp_opp.
    + now rewrite !mul_opp_r, mul_opp_l, opp_involutive.
  - unfold d, d'. rewrite E1, E2. split; reflexivity.
Qed.

(** The distance of four values is the distance of the Numbers they
    convert to. *)
Lemma calculateDistance_coerced lat1 lon1 lat2 lon2 a1 o1 a2 o2 :
  to_number lat1 = Normal a1 → to_number lon1 = Normal o1 →
  to_number lat2 = Normal a2 → to_number lon2 = Normal o2 →
  calculateDistance lat1 lon1 lat2 lon2 =
  calculateDistance (VNum a1) (VNum o1) (VNum a2) (VNum o2).
Proof.
  intros E1 E2 E3 E4. unfold calculateDistance, toRadians, js_sub.
  rewrite E1, E2, E3, E4. reflexivity.
Qed.

(** An argument that does not convert makes the call throw. *)
Lemma calculateDistance_unconvertible lat1 lon1 lat2 lon2 :
  convertible lat1 && convertible lon1 && convertible lat2 && convertible lon2
    = false →
  calculateDistance lat1 lon1 lat2 lon2 = Throw TypeError.
Proof.
  intros Hc. unfold calculateDistance, toRadians, js_sub.
  destruct (convertible lat2) eqn:H3;
    [|now rewrite (to_number_unconvertible _ H3)].
  destruct (to_number_convertible _ H3) as [a2 ->]. run.
  destruct (convertible lat1) eqn:H1;
    [|now rewrite (to_number_unconvertible _ H1)].
  destruct (to_number_convertible _ H1) as [a1 ->]. run.
  destruct (convertible lon2) eqn:H4;
    [|now rewrite (to_number_unconvertible _ H4)].
  destruct (to_number_convertible _ H4) as [o2 ->]. run.
  destruct (convertible lon1) eqn:H2; [discriminate Hc|].
  now rewrite (to_number_unconvertible _ H2).
Qed.

(** C8.  On a platform whose sine is an odd function, [calculateDistance]
    gives the same result whichever of the two points comes first: the same
    Number, or in both orders the TypeError of an argument that does not
    convert. *)
Theorem calculateDistance_symmetric (lat1 lon1 lat2 lon2 : value) :
  (∀ y, sin_approx (- y) = (- sin_approx y)%float) →
  calculateDistance lat1 lon1 lat2 lon2 = calculateDistance lat2 lon2 lat1 lon1.
Proof.
  intros Hodd.
  destruct (convertible lat1 && convertible lon1 &&
            convertible lat2 && convertible lon2) eqn:Hc.
  2:{ rewrite (calculateDistance_unconvertible _ _ _ _ Hc).
      rewrite calculateDistance_unconvertible; [reflexivity|].
      rewrite <- Hc. destruct (convertible lat1), (convertible lon1),
        (convertible lat2), (convertible lon2); reflexivity. }
  apply andb_true_iff in Hc as [Hc H4]. apply andb_true_iff in Hc as [Hc H3].
  apply andb_true_iff in Hc as [H1 H2].
  destruct (to_number_convertible _ H1) as [A1 E1].
  destruct (to_number_convertible _ H2) as [O1 E2].
  destruct (to_number_convertible _ H3) as [A2 E3].
  destruct (to_number_convertible _ H4) as [O2 E4].
  rewrite (calculateDistance_coerced _ _ _ _ _ _ _ _ E1 E2 E3 E4).
  rewrite (calculateDistance_coerced _ _ _ _ _ _ _ _ E3 E4 E1 E2).
  unfold calculateDistance, toRadians, js_sub. cbn [to_number]. run.
  cbv zeta. f_equal.
  destruct (haversine_term_swap A1 A2 0 Hodd) as [Elat _].
  destruct (haversine_term_swap O1 O2
              (JS.cos (A2 * (PI / 180)) * JS.cos (A1 * (PI / 180))) Hodd)
    as [_ Elon].
  cbv zeta in Elat, Elon.
  rewrite Elat, (mul_comm (JS.cos (A1 * _)) (JS.cos (A2 * _))), Elon.
  reflexivity.
Qed.

End DistanceCalculator.

Section DistanceCalculatorExamples.
Import JS.

Lemma calculateDistance_symmetric_witness :
  @calculateDistance plain_host (VNum 40.7) (VNum (-74)) (VNum 41) (VNum (-73)) =
  @calculateDistance plain_host (VNum 41) (VNum (-73)) (VNum 40.7) (VNum (-74)).
Proof.
  apply (@calculateDistance_symmetric plain_host).
  intros y. reflexivity.
Defined.

End DistanceCalculatorExamples.

(** ** Address Formatter *)

Section AddressFormatter.
Import JS.

Lemma formatAddress_object `{Host} (m : gmap string string) :
  formatAddress (tags_value (Some m)) =
  Normal (string_or_null (formatAddress_nonempty (Some m))).
Proof.
  unfold formatAddress, formatAddress_nonempty, addressKeys, tags_value; simpl.
  rewrite !lookup_fmap.
  destruct (m !! "addr:housenumber") as [h|]; simpl;
    [unfold nonempty at 1; destruct (String.eqb h "") eqn:Eh; simpl|];
  (destruct (m !! "addr:street") as [s|]; simpl;
    [unfold nonempty at 1; destruct (String.eqb s "") eqn:Es; simpl|]);
  (destruct (m !! "addr:city") as [c|]; simpl;
    [unfold nonempty at 1; destruct (String.eqb c "") eqn:Ec; simpl|]);
  reflexivity.
Qed.

(** C1, as amended.  [formatAddress] returns [null] for absent tags; for a
    mapping it joins with [", "], in the order housenumber, street, city,
    exactly the address keys present with a non-empty value, and returns
    [null] when there is none; housenumber "5" and street "Main St" give
    "5, Main St". *)
Theorem formatAddress_joins_nonempty_parts `{Host} :
  (∀ tags : option (gmap string string),
     formatAddress (tags_value tags) =
     Normal (string_or_null (formatAddress_nonempty tags))) ∧
  formatAddress VNull = Normal VNull ∧
  formatAddress
    (tags_value (Some {[ "addr:housenumber" := "5"; "addr:street" := "Main St" ]}))
  = Normal (VStr "5, Main St").
Proof.
  split; [|split].
  - intros [m|]; [apply formatAddress_object | reflexivity].
  - reflexivity.
  - rewrite formatAddress_object. vm_compute. reflexivity.
Qed.

(** C1, as stated, fails on a key that is present with the empty string:
    the code skips it, the specification's wording keeps it. *)
Lemma formatAddress_skips_empty_value :
  ¬ (∀ (H : Host) (tags : option (gmap string string)),
       formatAddress (tags_value tags) =
       Normal (string_or_null (formatAddress_spec tags))).
Proof.
  intros claim.
  specialize (claim plain_host
    (Some {[ "addr:housenumber" := ""; "addr:street" := "Main St" ]})).
  vm_compute in claim. discriminate claim.
Qed.

End AddressFormatter.

(** ** Station Fetcher *)

Section StationFetcher.
Import JS.

(** The distance to a station whose latitude resolved to [undefined] is NaN. *)
Lemma calculateDistance_undefined_lat `{Host} (lat lng stationLon : value) :
  convertible lat = true → convertible lng = true →
  convertible stationLon = true →
  calculateDistance lat lng VUndef stationLon = Normal nan.
Proof.
  intros Hlat Hlng Hlon.
  assert (E : ∀ t u,
    (3959 * (2 * JS.atan2 (JS.sqrt (nan + t)) u))%float = nan).
  { intros t u. rewrite add_nan_l. change (JS.sqrt nan) with nan.
    unfold JS.atan2. change (PrimFloat.is_nan nan) with true.
    cbn [orb]. rewrite !mul_nan_r. reflexivity. }
  destruct (to_number_convertible _ Hlat) as [a1 E1].
  destruct (to_number_convertible _ Hlng) as [o1 E2].
  destruct (to_number_convertible _ Hlon) as [o2 E4].
  rewrite (calculateDistance_coerced lat lng VUndef stationLon a1 o1 nan o2
             E1 E2 eq_refl E4).
  unfold calculateDistance, toRadians, js_sub. cbn [to_number]. run.
  cbv zeta. f_equal.
  rewrite (sub_nan_l a1), (mul_nan_l (PI / 180)), (div_nan_l 2).
  change (JS.sin nan) with nan. rewrite (mul_nan_l nan). apply E.
Qed.

(** C2, at the failing input.  An area whose centroid lies on the equator,
    [{id: 7, center: {lat: 0, lon: 9.45}}]: the falsy latitude 0 of the
    centroid is passed over for the element's own [lat], which an area does
    not have, so the station gets latitude [undefined], next to the
    longitude of the centroid, and distance NaN; this for every query
    coordinate that converts to a number (any other makes the callback
    throw). *)
Theorem stationLat_drops_zero_centroid `{Host} :
  let centroid := VObj {[ "lat" := VNum 0; "lon" := VNum 9.45 ]} in
  let element := VObj {[ "id" := VNum 7; "center" := centroid ]} in
  field centroid "lat" = VNum 0 ∧
  stationLat element = Normal VUndef ∧
  ∀ lat lng,
    (convertible lat && convertible lng = true →
     ∃ station,
       toStation lat lng element = Normal station ∧
       Station.lat station = VUndef ∧
       Station.lng station = VNum 9.45 ∧
       Station.distance station = nan) ∧
    (convertible lat && convertible lng = false →
     toStation lat lng element = Throw TypeError).
Proof.
  intros centroid element. split; [reflexivity|]. split; [reflexivity|].
  intros lat lng.
  assert (Hcall : toStation lat lng element =
            (distance ← calculateDistance lat lng VUndef (VNum 9.45);
             mret {| Station.id := VNum 7;
                     Station.lat := VUndef;
                     Station.lng := VNum 9.45;
                     Station.name := VStr "Gas Station";
                     Station.brand := VUndef;
                     Station.operator := VUndef;
                     Station.address := VNull;
                     Station.distance := distance;
                     Station.tags := VUndef |})).
  { unfold toStation.
    replace (stationLat element) with (Normal (A:=value) VUndef) by reflexivity.
    replace (stationLon element) with (Normal (VNum 9.45)) by reflexivity.
    cbn [mbind completion_bind].
    destruct (calculateDistance lat lng VUndef (VNum 9.45)); reflexivity. }
  rewrite Hcall. split.
  - intros [Hlat Hlng]%andb_true_iff.
    rewrite calculateDistance_undefined_lat by (assumption || reflexivity).
    eexists. split; [reflexivity|]. repeat split.
  - intros Hc. rewrite calculateDistance_unconvertible; [reflexivity|].
    now rewrite Hc.
Qed.

End StationFetcher.

Section StationFetcherFacts.
Import JS.
Context `{Host}.

(** [parts.join(sep)] returns exactly when every part prints. *)
Lemma array_join_convertible sep parts :
  forallb convertible parts = true → ∃ s, array_join sep parts = Normal s.
Proof.
  intros Hall. unfold array_join.
  destruct (mapM_returns (λ e, if is_nullish e then Normal "" else to_string e)
              parts) as [k ->]; [|run; eauto].
  apply forallb_true_Forall in Hall. eapply Forall_impl; [exact Hall|].
  cbn beta. intros x Hx. destruct (is_nullish x); [eauto|].
  exact (to_string_convertible _ Hx).
Qed.

Lemma array_join_unconvertible sep parts :
  forallb convertible parts = false → array_join sep parts = Throw TypeError.
Proof.
  intros Hall. unfold array_join.
  assert (Hmap : mapM (λ e, if is_nullish e then Normal "" else to_string e)
                   parts = Throw TypeError); [|now rewrite Hmap].
  induction parts as [|x parts IH]; [discriminate Hall|].
  cbn [forallb] in Hall. cbn [mapM].
  destruct (convertible x) eqn:Hx.
  - cbn [andb] in Hall. rewrite (IH Hall).
    destruct (is_nullish x); [reflexivity|].
    now destruct (to_string_convertible _ Hx) as [sx ->].
  - destruct x; try discriminate Hx; cbn [is_nullish];
      now rewrite (to_string_unconvertible _ Hx).
Qed.

(** [formatAddress] joins the address parts, if there are any. *)
Lemma formatAddress_joins tags :
  formatAddress tags =
  match addressParts tags with
  | [] => Normal VNull
  | parts => joined ← array_join ", " parts; mret (VStr joined)
  end.
Proof.
  unfold formatAddress, addressParts.
  destruct (truthy tags) eqn:Ht; run; [|reflexivity].
  apply truthy_not_nullish in Ht.
  rewrite !get_field by assumption. run.
  cbn [fmap list_fmap addressKeys List.filter].
  destruct (truthy (field tags "addr:housenumber")),
    (truthy (field tags "addr:street")), (truthy (field tags "addr:city"));
    reflexivity.
Qed.

Lemma formatAddress_convertible tags :
  forallb convertible (addressParts tags) = true →
  ∃ v, formatAddress tags = Normal v.
Proof.
  intros Hall. rewrite formatAddress_joins.
  destruct (addressParts tags) as [|p parts]; [eauto|].
  destruct (array_join_convertible ", " _ Hall) as [s ->]. run. eauto.
Qed.

Lemma formatAddress_unconvertible tags :
  forallb convertible (addressParts tags) = false →
  formatAddress tags = Throw TypeError.
Proof.
  intros Hall. rewrite formatAddress_joins.
  destruct (addressParts tags) as [|p parts]; [discriminate Hall|].
  now rewrite (array_join_unconvertible ", " _ Hall).
Qed.

Lemma or_else_true a b : truthy a = true → or_else a b = a.
Proof. intros Ha. unfold or_else. now rewrite Ha. Qed.

Lemma or_else_false a b : truthy a = false → or_else a b = b.
Proof. intros Ha. unfold or_else. now rewrite Ha. Qed.

Lemma stationLat_field element :
  is_nullish element = false → stationLat element = Normal (positionLat element).
Proof.
  intros He. unfold stationLat, positionLat, or_else.
  rewrite !(get_field element) by assumption. run.
  rewrite get_opt_field. run.
  now destruct (truthy _).
Qed.

Lemma stationLon_field element :
  is_nullish element = false → stationLon element = Normal (positionLon element).
Proof.
  intros He. unfold stationLon, positionLon, or_else.
  rewrite !(get_field element) by assumption. run.
  rewrite get_opt_field. run.
  now destruct (truthy _).
Qed.

(** The station of an element that is not [null]: its position, the
    distance to it, and the fields copied from the element. *)
Lemma toStation_record lat lng element :
  is_nullish element = false →
  toStation lat lng element =
  (distance ← calculateDistance lat lng (positionLat element) (positionLon element);
   address ← formatAddress (field element "tags");
   mret {| Station.id := field element "id";
           Station.lat := positionLat element;
           Station.lng := positionLon element;
           Station.name :=
             or_else (field_opt (field element "tags") "name")
               (or_else (field_opt (field element "tags") "brand")
                        (VStr "Gas Station"));
           Station.brand := field_opt (field element "tags") "brand";
           Station.operator := field_opt (field element "tags") "operator";
           Station.address := address;
           Station.distance := distance;
           Station.tags := field element "tags" |}).
Proof.
  intros He. unfold toStation.
  rewrite (stationLat_field _ He), (stationLon_field _ He). run.
  destruct (calculateDistance lat lng _ _) as [distance|]; run; [|reflexivity].
  rewrite !(get_field element) by assumption. run.
  rewrite !get_opt_field. run.
  destruct (truthy (field_opt (field element "tags") "name")) eqn:Hname; run;
    rewrite ?(get_field element) by assumption; run;
    rewrite ?get_opt_field; run.
  all: destruct (formatAddress (field element "tags")) as [address|]; run;
    [|reflexivity].
  all: first [rewrite (or_else_true _ _ Hname) | rewrite (or_else_false _ _ Hname)];
    reflexivity.
Qed.

(** Mapping an element that can be mapped does not throw. *)
Lemma toStation_returns lat lng element :
  convertible lat = true → convertible lng = true →
  mappable element = true → ∃ st, toStation lat lng element = Normal st.
Proof.
  intros Hlat Hlng Hm. unfold mappable in Hm.
  apply andb_true_iff in Hm as [Hm Haddress].
  apply andb_true_iff in Hm as [Hm Hlon].
  apply andb_true_iff in Hm as [He%negb_true_iff Hla].
  rewrite (toStation_record _ _ _ He).
  destruct (to_number_convertible _ Hlat) as [a1 E1].
  destruct (to_number_convertible _ Hlng) as [o1 E2].
  destruct (to_number_convertible _ Hla) as [a2 E3].
  destruct (to_number_convertible _ Hlon) as [o2 E4].
  rewrite (calculateDistance_coerced _ _ _ _ _ _ _ _ E1 E2 E3 E4).
  unfold calculateDistance, toRadians, js_sub. cbn [to_number]. run.
  destruct (formatAddress_convertible _ Haddress) as [address ->]. run. eauto.
Qed.

(** Mapping any other element throws. *)
Lemma toStation_throws lat lng element :
  mappable element = false → throws (toStation lat lng element).
Proof.
  intros Hm. destruct (is_nullish element) eqn:He.
  { unfold toStation, stationLat. rewrite (get_nullish "center" He).
    eexists; reflexivity. }
  rewrite (toStation_record _ _ _ He).
  destruct (calculateDistance lat lng _ _) as [distance|] eqn:Hd;
    [|eexists; reflexivity].
  run. unfold mappable in Hm. rewrite He in Hm. cbn [negb andb] in Hm.
  destruct (convertible (positionLat element)) eqn:Hla.
  2:{ rewrite calculateDistance_unconvertible in Hd; [discriminate Hd|].
      rewrite Hla. now destruct (convertible lat), (convertible lng). }
  destruct (convertible (positionLon element)) eqn:Hlo.
  2:{ rewrite calculateDistance_unconvertible in Hd; [discriminate Hd|].
      rewrite Hlo. destruct (convertible lat), (convertible lng);
        cbn; now rewrite ?andb_false_r. }
  cbn [andb] in Hm. rewrite (formatAddress_unconvertible _ Hm).
  eexists; reflexivity.
Qed.

(** The position of a mapped station is the centroid coordinate when that
    is truthy, the element's own coordinate otherwise, axis by axis; its
    distance is measured from the query position to that position. *)
Lemma toStation_position lat lng element st :
  toStation lat lng element = Normal st →
  Station.lat st = positionLat element ∧
  Station.lng st = positionLon element ∧
  calculateDistance lat lng (Station.lat st) (Station.lng st)
    = Normal (Station.distance st).
Proof.
  destruct (is_nullish element) eqn:He.
  { unfold toStation, stationLat. rewrite (get_nullish "center" He).
    discriminate. }
  rewrite (toStation_record _ _ _ He).
  destruct (calculateDistance lat lng _ _) as [distance|] eqn:Hd;
    [|discriminate]. run.
  destruct (formatAddress _) as [address|]; [|discriminate]. run.
  intros [= <-]. cbn. auto.
Qed.

(** The fields a mapped station copies from its element. *)
Lemma toStation_fields lat lng element st :
  toStation lat lng element = Normal st →
  Station.id st = field element "id" ∧
  Station.name st =
    or_else (field_opt (field element "tags") "name")
      (or_else (field_opt (field element "tags") "brand") (VStr "Gas Station")) ∧
  Station.brand st = field_opt (field element "tags") "brand" ∧
  Station.operator st = field_opt (field element "tags") "operator" ∧
  Station.tags st = field element "tags".
Proof.
  destruct (is_nullish element) eqn:He.
  { unfold toStation, stationLat. rewrite (get_nullish "center" He).
    discriminate. }
  rewrite (toStation_record _ _ _ He).
  destruct (calculateDistance lat lng _ _) as [distance|]; [|discriminate]. run.
  destruct (formatAddress _) as [address|]; [|discriminate]. run.
  intros [= <-]. cbn. auto.
Qed.

(** The request is built exactly when the position and the radius convert. *)
Lemma bbox_returns lat lng r :
  convertible lat = true → convertible lng = true →
  ∃ box, bbox lat lng r = Normal box.
Proof.
  intros Hlat Hlng. unfold bbox, js_sub.
  destruct (to_number_convertible _ Hlat) as [a ->].
  destruct (to_number_convertible _ Hlng) as [o ->]. cbn [to_number]. run.
  destruct (js_add_convertible lat (VNum r) Hlat eq_refl) as (north & -> & Hn).
  run. destruct (to_string_convertible _ Hn) as [sn ->]. run.
  destruct (js_add_convertible lng (VNum r) Hlng eq_refl) as (east & -> & He).
  run. destruct (to_string_convertible _ He) as [se ->]. run. eauto.
Qed.

Lemma bbox_throws lat lng r :
  convertible lat && convertible lng = false → bbox lat lng r = Throw TypeError.
Proof.
  intros Hc. unfold bbox, js_sub.
  destruct (convertible lat) eqn:Hlat;
    [|now rewrite (to_number_unconvertible _ Hlat)].
  destruct (to_number_convertible _ Hlat) as [a ->]. cbn [to_number]. run.
  cbn [andb] in Hc. now rewrite (to_number_unconvertible _ Hc).
Qed.

Lemma stationsRequest_returns lat lng radius :
  queryReadable lat lng radius = true →
  ∃ request, stationsRequest lat lng radius = Normal request.
Proof.
  unfold queryReadable. intros Hq.
  apply andb_true_iff in Hq as [Hq Hr]. apply andb_true_iff in Hq as [Hlat Hlng].
  unfold stationsRequest, js_div, overpassQuery.
  destruct (to_number_convertible _ Hr) as [r ->]. cbn [to_number]. run.
  destruct (bbox_returns lat lng (r / 111000) Hlat Hlng) as [box ->]. run.
  eauto.
Qed.

Lemma stationsRequest_throws lat lng radius :
  queryReadable lat lng radius = false →
  stationsRequest lat lng radius = Throw TypeError.
Proof.
  unfold queryReadable. intros Hq.
  unfold stationsRequest, js_div, overpassQuery.
  destruct (convertible (radiusOrDefault radius)) eqn:Hr;
    [|now rewrite (to_number_unconvertible _ Hr)].
  destruct (to_number_convertible _ Hr) as [r ->]. cbn [to_number]. run.
  rewrite andb_true_r in Hq. now rewrite (bbox_throws _ _ _ Hq).
Qed.

Lemma stationsRequest_readable lat lng radius request :
  stationsRequest lat lng radius = Normal request →
  queryReadable lat lng radius = true.
Proof.
  intros Hr. destruct (queryReadable lat lng radius) eqn:Hq; [reflexivity|].
  rewrite (stationsRequest_throws _ _ _ Hq) in Hr. discriminate Hr.
Qed.

(** The [try] block builds the request, sends it and maps what comes back. *)
Lemma fetchNearbyGasStations_try_request fetch lat lng radius :
  fetchNearbyGasStations_try fetch lat lng (radiusOrDefault radius) =
  (request ← stationsRequest lat lng radius;
   '(ok, json) ← await_fetch (fetch request);
   if negb ok then Throw (Error "Failed to fetch gas stations")
   else
     data ← await_json json;
     elements ← get data "elements";
     stations ← array_map elements (toStation lat lng);
     mret (JS.sort byDistance stations)).
Proof.
  unfold fetchNearbyGasStations_try, stationsRequest.
  destruct (js_div _ _) as [r|]; run; [|reflexivity].
  destruct (overpassQuery _ _ _) as [query|]; run; reflexivity.
Qed.

Lemma fetchNearbyGasStations_try_unreadable fetch lat lng radius :
  queryReadable lat lng radius = false →
  throws (fetchNearbyGasStations_try fetch lat lng (radiusOrDefault radius)).
Proof.
  intros Hq. rewrite fetchNearbyGasStations_try_request.
  rewrite (stationsRequest_throws _ _ _ Hq). eexists; reflexivity.
Qed.

Lemma fetchNearbyGasStations_try_failure fetch lat lng radius request :
  stationsRequest lat lng radius = Normal request →
  stationsFailure (fetch request) →
  throws (fetchNearbyGasStations_try fetch lat lng (radiusOrDefault radius)).
Proof.
  intros Hrequest. rewrite fetchNearbyGasStations_try_request, Hrequest. run.
  set (o := fetch _). intros Hfail.
  inversion Hfail as [Ho|json Ho|Ho|data Hd Ho]; run;
    try (eexists; reflexivity).
  destruct (is_nullish data) eqn:Hdata;
    [rewrite (get_nullish "elements" Hdata); eexists; reflexivity|].
  rewrite (get_field data) by assumption. run.
  unfold elementsOf in Hd.
  destruct (field data "elements") as [| | | | |elements|];
    try (eexists; reflexivity).
  unfold array_map.
  destruct (forallb mappable elements) eqn:Hall; [discriminate Hd|].
  destruct (mapM_Throw (toStation lat lng) elements) as [e He].
  - apply forallb_false_Exists in Hall.
    eapply Exists_impl; [exact Hall|]. cbn beta.
    intros el Hn. now apply toStation_throws.
  - rewrite He. eexists; reflexivity.
Qed.

Lemma fetchNearbyGasStations_try_readable
    fetch lat lng radius request data elements upstream :
  stationsRequest lat lng radius = Normal request →
  fetch request = FetchResolves true (JsonResolves data) →
  field data "elements" = VArr elements →
  mapM (toStation lat lng) elements = Normal upstream →
  fetchNearbyGasStations_try fetch lat lng (radiusOrDefault radius) =
  Normal (JS.sort byDistance upstream).
Proof.
  intros Hrequest Hfetch Hel Hmap.
  rewrite fetchNearbyGasStations_try_request, Hrequest. run.
  rewrite Hfetch. run.
  rewrite (get_field data).
  2:{ apply (field_defined data "elements"). now rewrite Hel. }
  run. rewrite Hel. unfold array_map. rewrite Hmap. reflexivity.
Qed.

(** Whatever happens, the result is the comparator sort of some list. *)
Lemma fetchNearbyGasStations_sorts fetch lat lng radius :
  ∃ upstream,
    fetchNearbyGasStations fetch lat lng radius =
    Fulfilled (JS.sort byDistance upstream).
Proof.
  unfold fetchNearbyGasStations. cbv zeta.
  rewrite fetchNearbyGasStations_try_request.
  destruct (stationsRequest lat lng radius) as [request|]; run;
    [|now exists []].
  destruct (fetch request) as [|[] [|data]]; run; try (now exists []).
  destruct (get data "elements") as [elements|]; run; [|now exists []].
  destruct (array_map elements (toStation lat lng)) as [upstream|]; run;
    [now exists upstream | now exists []].
Qed.

(** *** The comparator orders by [ord] of the distance *)

Lemma ltb_zero_nan_guard v :
  (0 <? (if PrimFloat.is_nan v then 0 else v))%float = (0 <? v)%float.
Proof.
  destruct (PrimFloat.is_nan v) eqn:Hv; [|reflexivity].
  apply is_nan_Prim2SF in Hv.
  rewrite (FloatAxioms.ltb_spec 0 v), Hv. reflexivity.
Qed.

Lemma byDistance_ord a b :
  PrimFloat.is_nan (Station.distance a) = false →
  PrimFloat.is_nan (Station.distance b) = false →
  (0 <? SortCompare byDistance a b)%float =
  (ord (Station.distance b) <? ord (Station.distance a)).
Proof.
  intros Ha Hb. unfold SortCompare, byDistance. cbv zeta.
  rewrite ltb_zero_nan_guard. now apply sub_positive.
Qed.

End StationFetcherFacts.

Section StationFetcherOrder.
Import JS.
Context `{Host}.

Lemma mapM_Forall2 {A B} (f : A → completion B) (l : list A) (k : list B) :
  Forall2 (λ x y, f x = Normal y) l k → mapM f l = Normal k.
Proof.
  induction 1 as [|x y l k Hx _ IH]; [reflexivity|].
  cbn. rewrite Hx. cbn. rewrite IH. reflexivity.
Qed.

Lemma StronglySorted_on {A} (P : A → Prop) (R S : A → A → Prop) (l : list A) :
  (∀ a b, P a → P b → R a b → S a b) →
  Forall P l → StronglySorted R l → StronglySorted S l.
Proof.
  intros HRS HP Hs. induction Hs as [|x l Hs IH Hx]; [constructor|].
  apply Forall_cons in HP as [Px Pl]. constructor; [now apply IH|].
  clear IH Hs. induction Hx as [|y l Hy _ IH]; [constructor|].
  apply Forall_cons in Pl as [Py Pl]. constructor; auto.
Qed.

Lemma filter_none {A} (l : list A) : List.filter (λ _, false) l = [].
Proof. now induction l. Qed.

Lemma sort_byDistance_sorted upstream :
  Forall (λ s, PrimFloat.is_nan (Station.distance s) = false) upstream →
  StronglySorted distance_le (JS.sort byDistance upstream).
Proof.
  intros Hnum.
  apply (StronglySorted_on
           (λ s, PrimFloat.is_nan (Station.distance s) = false)
           (λ a b, ord (Station.distance a) <= ord (Station.distance b))).
  - intros a b Ha Hb Hab. unfold distance_le.
    rewrite leb_ord by assumption. now apply Z.leb_le.
  - now rewrite sort_Permutation.
  - apply (sort_sorted byDistance (λ s, ord (Station.distance s))
             (λ s, PrimFloat.is_nan (Station.distance s) = false));
      [|exact Hnum].
    intros a b. apply byDistance_ord.
Qed.

Lemma sort_byDistance_stable upstream d :
  Forall (λ s, PrimFloat.is_nan (Station.distance s) = false) upstream →
  at_distance d (JS.sort byDistance upstream) = at_distance d upstream.
Proof.
  intros Hnum. unfold at_distance.
  assert (Hsorted : Forall (λ s, PrimFloat.is_nan (Station.distance s) = false)
                      (JS.sort byDistance upstream))
    by now rewrite sort_Permutation.
  destruct (PrimFloat.is_nan d) eqn:Hd.
  - rewrite (List.filter_ext _ (λ _, false))
      by (intros s; now apply eqb_nan_r).
    rewrite (List.filter_ext (λ s, (Station.distance s =? d)%float) (λ _, false))
      by (intros s; now apply eqb_nan_r).
    now rewrite !filter_none.
  - rewrite (List.filter_ext_in _ (λ s, ord (Station.distance s) =? ord d)).
    2:{ intros s Hs. apply eqb_ord; [|exact Hd].
        rewrite List.Forall_forall in Hsorted. now apply Hsorted. }
    rewrite (List.filter_ext_in (λ s, (Station.distance s =? d)%float)
               (λ s, ord (Station.distance s) =? ord d) upstream).
    2:{ intros s Hs. apply eqb_ord; [|exact Hd].
        rewrite List.Forall_forall in Hnum. now apply Hnum. }
    apply (sort_stable byDistance (λ s, ord (Station.distance s))
             (λ s, PrimFloat.is_nan (Station.distance s) = false));
      [|exact Hnum].
    intros a b. apply byDistance_ord.
Qed.

(** C4, as amended.  Whenever no distance in the result is NaN,
    [fetchNearbyGasStations] returns its stations in ascending order of
    [distance]; they are the stations mapped from the elements of the
    payload, and those at one same distance keep the order in which the
    payload listed them. *)
Theorem fetchNearbyGasStations_sorted_stable fetch lat lng radius stations :
  fetchNearbyGasStations fetch lat lng radius = Fulfilled stations →
  Forall (λ s, PrimFloat.is_nan (Station.distance s) = false) stations →
  StronglySorted distance_le stations ∧
  ∀ request data elements upstream,
    stationsRequest lat lng radius = Normal request →
    fetch request = FetchResolves true (JsonResolves data) →
    field data "elements" = VArr elements →
    Forall2 (λ element station, toStation lat lng element = Normal station)
            elements upstream →
    Permutation upstream stations ∧
    ∀ d, at_distance d stations = at_distance d upstream.
Proof.
  intros Hres Hnum. split.
  - destruct (fetchNearbyGasStations_sorts fetch lat lng radius)
      as [upstream Hup].
    rewrite Hup in Hres. injection Hres as <-.
    apply sort_byDistance_sorted. now rewrite sort_Permutation in Hnum.
  - intros request data elements upstream Hrequest Hfetch Hel Hmap%mapM_Forall2.
    unfold fetchNearbyGasStations in Hres. cbv zeta in Hres.
    rewrite (fetchNearbyGasStations_try_readable _ _ _ _ _ _ _ _
               Hrequest Hfetch Hel Hmap) in Hres.
    injection Hres as <-. rewrite sort_Permutation in Hnum. split.
    + symmetry. apply sort_Permutation.
    + intros d. now apply sort_byDistance_stable.
Qed.

End StationFetcherOrder.

(** ** Station Fetcher: payloads that are mapped *)

Section StationFetcherPayload.
Import JS.
Context `{Host}.

Lemma elementsOf_Some data elements :
  elementsOf data = Some elements →
  field data "elements" = VArr elements ∧
  Forall (λ e, mappable e = true) elements.
Proof.
  unfold elementsOf.
  destruct (field data "elements") as [| | | | |l|]; try discriminate.
  destruct (forallb mappable l) eqn:Hall; [|discriminate]. intros [= <-].
  split; [reflexivity|]. now apply forallb_true_Forall in Hall.
Qed.

Lemma mapM_toStation lat lng elements :
  convertible lat = true → convertible lng = true →
  Forall (λ e, mappable e = true) elements →
  ∃ upstream,
    Forall2 (λ e st, toStation lat lng e = Normal st) elements upstream.
Proof.
  intros Hlat Hlng.
  induction 1 as [|e l He _ [upstream IH]]; [exists []; constructor|].
  destruct (toStation_returns lat lng e Hlat Hlng He) as [st Hst].
  exists (st :: upstream). now constructor.
Qed.

Lemma queryReadable_position lat lng radius :
  queryReadable lat lng radius = true →
  convertible lat = true ∧ convertible lng = true.
Proof.
  unfold queryReadable. intros [[Hlat Hlng]%andb_true_iff _]%andb_true_iff.
  now split.
Qed.

Lemma fetchNearbyGasStations_readable
    fetch lat lng radius request data elements upstream :
  stationsRequest lat lng radius = Normal request →
  fetch request = FetchResolves true (JsonResolves data) →
  field data "elements" = VArr elements →
  Forall2 (λ e st, toStation lat lng e = Normal st) elements upstream →
  fetchNearbyGasStations fetch lat lng radius =
  Fulfilled (JS.sort byDistance upstream).
Proof.
  intros Hreq Hfetch Hel Hmap. unfold fetchNearbyGasStations. cbv zeta.
  now rewrite (fetchNearbyGasStations_try_readable _ _ _ _ _ _ _ _
                 Hreq Hfetch Hel (mapM_Forall2 _ _ _ Hmap)).
Qed.

(** A payload that can be read is mapped, element by element. *)
Lemma fetchNearbyGasStations_maps fetch lat lng radius request data elements :
  stationsRequest lat lng radius = Normal request →
  fetch request = FetchResolves true (JsonResolves data) →
  elementsOf data = Some elements →
  ∃ upstream,
    Forall2 (λ e st, toStation lat lng e = Normal st) elements upstream ∧
    fetchNearbyGasStations fetch lat lng radius =
    Fulfilled (JS.sort byDistance upstream).
Proof.
  intros Hreq Hfetch [Hel Hall]%elementsOf_Some.
  destruct (queryReadable_position _ _ _ (stationsRequest_readable _ _ _ _ Hreq))
    as [Hlat Hlng].
  destruct (mapM_toStation lat lng elements Hlat Hlng Hall) as [upstream Hmap].
  exists upstream. split; [exact Hmap|].
  exact (fetchNearbyGasStations_readable _ _ _ _ _ _ _ _ Hreq Hfetch Hel Hmap).
Qed.

Lemma fetchNearbyGasStations_unreadable fetch lat lng radius :
  queryReadable lat lng radius = false →
  fetchNearbyGasStations fetch lat lng radius = Fulfilled [].
Proof.
  intros Hq.
  destruct (fetchNearbyGasStations_try_unreadable fetch _ _ _ Hq) as [e He].
  unfold fetchNearbyGasStations. cbv zeta. now rewrite He.
Qed.

Lemma fetchNearbyGasStations_failure fetch lat lng radius request :
  stationsRequest lat lng radius = Normal request →
  stationsFailure (fetch request) →
  fetchNearbyGasStations fetch lat lng radius = Fulfilled [].
Proof.
  intros Hreq Hf.
  destruct (fetchNearbyGasStations_try_failure fetch _ _ _ _ Hreq Hf) as [e He].
  unfold fetchNearbyGasStations. cbv zeta. now rewrite He.
Qed.

(** An exchange fails, or it delivers a payload that can be read. *)
Lemma stationsFailure_or_readable (o : fetch_outcome) :
  stationsFailure o ∨
  ∃ data elements,
    o = FetchResolves true (JsonResolves data) ∧
    elementsOf data = Some elements.
Proof.
  destruct o as [|[|] [|data]].
  - left. constructor.
  - left. constructor.
  - destruct (elementsOf data) as [elements|] eqn:Hel.
    + right. now exists data, elements.
    + left. now constructor.
  - left. constructor.
  - left. constructor.
Qed.

Lemma sort_nil_inv {A} (f : A → A → float) (l : list A) :
  JS.sort f l = [] → l = [].
Proof.
  intros Hs. pose proof (sort_Permutation f l) as Hp.
  rewrite Hs in Hp. now apply Permutation_nil_l in Hp.
Qed.

(** The result is empty exactly when the query cannot be built, the
    exchange fails, or the payload has no elements. *)
Lemma fetchNearbyGasStations_empty_iff fetch lat lng radius :
  fetchNearbyGasStations fetch lat lng radius = Fulfilled [] ↔
  queryReadable lat lng radius = false ∨
  ∃ request,
    stationsRequest lat lng radius = Normal request ∧
    (stationsFailure (fetch request) ∨
     ∃ data, fetch request = FetchResolves true (JsonResolves data) ∧
             field data "elements" = VArr []).
Proof.
  split.
  - intros Hempty.
    destruct (queryReadable lat lng radius) eqn:Hq; [right|now left].
    destruct (stationsRequest_returns _ _ _ Hq) as [request Hreq].
    exists request. split; [exact Hreq|].
    destruct (stationsFailure_or_readable (fetch request))
      as [Hf|(data & elements & Hfetch & Hel)]; [now left|right].
    exists data. split; [exact Hfetch|].
    destruct (fetchNearbyGasStations_maps _ _ _ _ _ _ _ Hreq Hfetch Hel)
      as (upstream & Hmap & Hs).
    rewrite Hs in Hempty. injection Hempty as Hsort.
    apply sort_nil_inv in Hsort. subst upstream.
    apply Forall2_nil_inv_r in Hmap. subst elements.
    now apply elementsOf_Some in Hel as [Hel _].
  - intros [Hq|(request & Hreq & [Hf|(data & Hfetch & Hel)])].
    + now apply fetchNearbyGasStations_unreadable.
    + now apply (fetchNearbyGasStations_failure _ _ _ _ request).
    + apply (fetchNearbyGasStations_readable _ _ _ _ _ _ [] []
               Hreq Hfetch Hel). constructor.
Qed.

End StationFetcherPayload.

Section StationFetcherExamples.
Import JS.

Lemma fetchNearbyGasStations_sorted_stable_witness :
  ∃ stations,
    @fetchNearbyGasStations plain_host
      (answering (FetchResolves true
         (JsonResolves (overpass_response [sample_node; sample_near_node]))))
      (VNum 40.7) (VNum (-74)) VUndef = Fulfilled stations ∧
    Station.id <$> stations = [VNum 3; VNum 1] ∧
    StronglySorted distance_le stations.
Proof.
  eexists. split; [reflexivity|]. split; [reflexivity|].
  refine (proj1 (@fetchNearbyGasStations_sorted_stable plain_host
    (answering (FetchResolves true
       (JsonResolves (overpass_response [sample_node; sample_near_node]))))
    (VNum 40.7) (VNum (-74)) VUndef _ eq_refl _)).
  repeat constructor.
Defined.

(** C4, as stated, fails on a payload with an element that has no position:
    its distance is NaN, which [<=] relates to nothing, so the result is not
    in ascending order. *)
Lemma fetchNearbyGasStations_unsorted_with_NaN :
  ¬ (∀ (H : Host) fetch lat lng radius stations,
       fetchNearbyGasStations fetch lat lng radius = Fulfilled stations →
       StronglySorted distance_le stations).
Proof.
  intros claim.
  pose proof (claim plain_host
    (answering (FetchResolves true
       (JsonResolves (overpass_response
          [sample_node; sample_element_without_position]))))
    (VNum 40.7) (VNum (-74)) VUndef _ eq_refl) as Hsorted.
  vm_compute in Hsorted.
  inversion Hsorted as [|s l _ Hfirst]; subst.
  inversion Hfirst as [|s' l' Hle _]; subst.
  vm_compute in Hle. discriminate Hle.
Qed.

End StationFetcherExamples.

(** ** Nearest Selector *)

Section NearestSelector.

(** C7.  On a sequence of stations [findNearestStation] returns the first
    element when there is one and [null] when the sequence is empty,
    whatever the elements are and in whatever order they come. *)
Theorem findNearestStation_first {S U : Type} (stations : list S) (u : U) :
  findNearestStation (Some stations) u = head stations.
Proof. destruct stations as [|s l]; reflexivity. Qed.

(** C10.  The result of [findNearestStation] does not depend on the user
    location passed as second argument. *)
Theorem findNearestStation_ignores_userLocation {S U1 U2 : Type}
    (stations : option (list S)) (u1 : U1) (u2 : U2) :
  findNearestStation stations u1 = findNearestStation stations u2.
Proof. reflexivity. Qed.

End NearestSelector.

(** ** Route Fetcher *)

Section RouteFetcher.
Import JS.
Context `{Host}.

(** The route built from a readable first route. *)
Lemma fetchRoute_try_readable fetch start end_ url data coords distance duration :
  routeUrl start end_ = Normal url →
  fetch (routeRequest url) = FetchResolves true (JsonResolves data) →
  strict_eq_str (field data "code") "Ok" = true →
  truthy (field data "routes") = true →
  strict_eq_num (field (field data "routes") "length") 0 = false →
  let route := field (field data "routes") "0" in
  field (field route "geometry") "coordinates" = VArr coords →
  Forall (λ c, is_nullish c = false) coords →
  to_number (field route "distance") = Normal distance →
  to_number (field route "duration") = Normal duration →
  is_nullish (field route "legs") = false →
  fetchRoute_try fetch start end_ =
  Normal {| Route.coordinates := map (λ c, (field c "1", field c "0")) coords;
            Route.distance := (distance / 1609.34)%float;
            Route.duration := (duration / 60)%float;
            Route.steps :=
              or_else (field_opt (field (field route "legs") "0") "steps")
                      (VArr []) |}.
Proof.
  intros Hurl Hfetch Hcode Hroutes Hlen route Hcoords Hpairs Hdist Hdur Hlegs.
  assert (Hdata : is_nullish data = false).
  { apply (field_defined data "code").
    destruct (field data "code"); try discriminate Hcode; reflexivity. }
  assert (Hrs : is_nullish (field data "routes") = false)
    by now apply truthy_not_nullish.
  assert (Hgeo : is_nullish (field route "geometry") = false).
  { apply (field_defined _ "coordinates"). now rewrite Hcoords. }
  assert (Hroute : is_nullish route = false)
    by now apply (field_defined route "geometry").
  unfold fetchRoute_try. rewrite Hurl. run. rewrite Hfetch. run.
  rewrite (get_field data "code") by assumption. run. rewrite Hcode. run.
  rewrite !(get_field data "routes") by assumption. run. rewrite Hroutes. run.
  rewrite (get_field _ "length") by assumption. run. rewrite Hlen.
  rewrite (get_field _ "0") by assumption. run. fold route.
  rewrite (get_field route "geometry") by assumption. run.
  rewrite (get_field _ "coordinates") by assumption. run.
  rewrite Hcoords. unfold array_map.
  rewrite (mapM_Normal _ (λ c, (field c "1", field c "0"))).
  2:{ eapply Forall_impl; [exact Hpairs|]. intros c Hc. cbn beta.
      rewrite !get_field by assumption. reflexivity. }
  run. rewrite !(get_field route) by assumption. run.
  unfold js_div. rewrite Hdist, Hdur. cbn [to_number]. run.
  rewrite (get_field _ "0") by assumption. run.
  rewrite get_opt_field. run. reflexivity.
Qed.

(** Every listed failure makes the [try] block throw. *)
Lemma fetchRoute_try_failure fetch start end_ url :
  routeUrl start end_ = Normal url →
  routeFailure (fetch (routeRequest url)) →
  throws (fetchRoute_try fetch start end_).
Proof.
  intros Hurl Hfail. unfold fetchRoute_try. rewrite Hurl. run.
  inversion Hfail as [Ho|json Ho|Ho|data Hc Ho|data Hr Ho|data Hl Ho|data Hw Ho];
    run; try (eexists; reflexivity).
  all: destruct (is_nullish data) eqn:Hdata;
    [rewrite (get_nullish "code" Hdata); eexists; reflexivity|].
  all: rewrite (get_field data "code") by assumption; run.
  all: destruct (strict_eq_str (field data "code") "Ok"); run;
    try (eexists; reflexivity); try discriminate.
  all: rewrite !(get_field data "routes") by assumption; run.
  all: destruct (truthy (field data "routes")) eqn:Hroutes; run;
    try (eexists; reflexivity); try discriminate.
  all: apply truthy_not_nullish in Hroutes.
  all: rewrite (get_field _ "length") by assumption; run.
  all: destruct (strict_eq_num (field (field data "routes") "length") 0);
    try (eexists; reflexivity); try discriminate.
  rewrite (get_field _ "0") by assumption. run.
  set (route := field (field data "routes") "0") in *.
  destruct (is_nullish route) eqn:Hroute;
    [rewrite (get_nullish "geometry" Hroute); eexists; reflexivity|].
  rewrite (get_field route "geometry") by assumption. run.
  destruct (is_nullish (field route "geometry")) eqn:Hgeo;
    [rewrite (get_nullish "coordinates" Hgeo); eexists; reflexivity|].
  rewrite (get_field _ "coordinates") by assumption. run.
  unfold wellFormedRoute in Hw.
  destruct (field (field route "geometry") "coordinates") as [| | | | |coords|] eqn:Hcoords;
    try (eexists; reflexivity).
  unfold array_map.
  destruct (forallb (λ c, negb (is_nullish c)) coords) eqn:Hpairs.
  - rewrite (mapM_Normal _ (λ c, (field c "1", field c "0"))).
    2:{ apply forallb_true_Forall in Hpairs.
        eapply Forall_impl; [exact Hpairs|].
        intros c Hc. cbn beta. apply negb_true_iff in Hc.
        rewrite !get_field by assumption. reflexivity. }
    run. rewrite !(get_field route) by assumption. run.
    cbn [andb] in Hw. unfold js_div.
    destruct (convertible (field route "distance")) eqn:Hdist;
      [|rewrite (to_number_unconvertible _ Hdist); eexists; reflexivity].
    destruct (to_number_convertible _ Hdist) as [distance ->].
    cbn [to_number]. run.
    destruct (convertible (field route "duration")) eqn:Hdur;
      [|rewrite (to_number_unconvertible _ Hdur); eexists; reflexivity].
    destruct (to_number_convertible _ Hdur) as [duration ->].
    cbn [to_number]. run.
    cbn [andb] in Hw. apply negb_false_iff in Hw.
    rewrite (get_nullish "0" Hw). eexists; reflexivity.
  - destruct (mapM_Throw
      (λ coord, c1 ← get coord "1"; c0 ← get coord "0"; mret (c1, c0)) coords)
      as [e He].
    + apply forallb_false_Exists in Hpairs.
      eapply Exists_impl; [exact Hpairs|].
      intros c Hc. cbn beta in *. apply negb_false_iff in Hc.
      exists TypeError. rewrite (get_nullish "1" Hc). reflexivity.
    + rewrite He. eexists; reflexivity.
Qed.

Lemma field_length l : field (VArr l) "length" = VNum (length_number (length l)).
Proof. reflexivity. Qed.

Lemma field_first l :
  field (VArr l) "0" = match l with [] => VUndef | x :: _ => x end.
Proof. destruct l; reflexivity. Qed.

Lemma routes_nonempty route others :
  strict_eq_num (field (VArr (route :: others)) "length") 0 = false.
Proof. rewrite field_length. cbn [strict_eq_num]. apply length_number_is_zero. Qed.

(** C3, as amended.  On a successful response (transport success, status
    "Ok", non-empty routes) whose first route can be read, that is, carries
    [geometry.coordinates] as an array without [null] entries, a [distance]
    and a [duration] that convert to numbers, and [legs], [fetchRoute]
    returns the first route: every coordinate entry [c] becomes the pair
    ([c[1]], [c[0]]), so a pair (longitude, latitude) is swapped to
    (latitude, longitude); the distance is divided by 1609.34 and the
    duration by 60; the steps are those of the first leg, or the empty array
    when there is no first leg or it has no steps. *)
Theorem fetchRoute_first_route
    fetch start end_ url data route others coords distance duration :
  routeUrl start end_ = Normal url →
  fetch (routeRequest url) = FetchResolves true (JsonResolves data) →
  field data "code" = VStr "Ok" →
  field data "routes" = VArr (route :: others) →
  field (field route "geometry") "coordinates" = VArr coords →
  Forall (λ c, is_nullish c = false) coords →
  to_number (field route "distance") = Normal distance →
  to_number (field route "duration") = Normal duration →
  is_nullish (field route "legs") = false →
  ∃ r,
    fetchRoute fetch start end_ = Fulfilled (Some r) ∧
    Route.coordinates r = (λ c, (field c "1", field c "0")) <$> coords ∧
    (∀ pairs, coords = pair_value <$> pairs →
       Route.coordinates r = (λ p, (p.2, p.1)) <$> pairs) ∧
    Route.distance r = (distance / 1609.34)%float ∧
    Route.duration r = (duration / 60)%float ∧
    Route.steps r =
      or_else (field_opt (field (field route "legs") "0") "steps") (VArr []) ∧
    (field route "legs" = VArr [] → Route.steps r = VArr []).
Proof.
  intros Hurl Hfetch Hcode Hroutes Hcoords Hentries Hdist Hdur Hlegs.
  eexists. split.
  - unfold fetchRoute.
    rewrite (fetchRoute_try_readable fetch start end_ url data coords
               distance duration); try assumption; [reflexivity|..].
    + now rewrite Hcode.
    + now rewrite Hroutes.
    + rewrite Hroutes. apply routes_nonempty.
    + now rewrite Hroutes, field_first.
    + now rewrite Hroutes, field_first.
    + now rewrite Hroutes, field_first.
    + now rewrite Hroutes, field_first.
  - cbn [Route.coordinates Route.distance Route.duration Route.steps].
    rewrite Hroutes, field_first.
    split; [now rewrite map_as_fmap|]. split.
    { intros pairs ->. rewrite map_as_fmap, <- list_fmap_compose.
      apply list_fmap_ext. intros i [a b] _. reflexivity. }
    split; [reflexivity|]. split; [reflexivity|]. split; [reflexivity|].
    now intros ->.
Qed.

(** Every exchange either fails in one of the listed ways or carries a
    readable first route. *)
Lemma routeFailure_or_readable (o : fetch_outcome) :
  routeFailure o ∨
  ∃ data coords,
    o = FetchResolves true (JsonResolves data) ∧
    strict_eq_str (field data "code") "Ok" = true ∧
    truthy (field data "routes") = true ∧
    strict_eq_num (field (field data "routes") "length") 0 = false ∧
    field (field (field (field data "routes") "0") "geometry") "coordinates"
      = VArr coords ∧
    Forall (λ c, is_nullish c = false) coords ∧
    convertible (field (field (field data "routes") "0") "distance") = true ∧
    convertible (field (field (field data "routes") "0") "duration") = true ∧
    is_nullish (field (field (field data "routes") "0") "legs") = false.
Proof.
  destruct o as [|[] [|data]]; try (left; constructor; fail).
  destruct (strict_eq_str (field data "code") "Ok") eqn:Hcode;
    [|left; now apply route_code_not_Ok].
  destruct (truthy (field data "routes")) eqn:Hroutes;
    [|left; now apply route_routes_missing].
  destruct (strict_eq_num (field (field data "routes") "length") 0) eqn:Hlen;
    [left; now apply route_routes_empty|].
  destruct (wellFormedRoute (field (field data "routes") "0")) eqn:Hw;
    [|left; now apply route_first_malformed].
  right. unfold wellFormedRoute in Hw.
  apply andb_true_iff in Hw as [Hw Hl]. apply andb_true_iff in Hw as [Hw Hdur].
  apply andb_true_iff in Hw as [Hc Hdist].
  destruct (field (field (field (field data "routes") "0") "geometry")
              "coordinates") as [| | | | |coords|] eqn:Hcoords;
    try discriminate Hc.
  exists data, coords. repeat split; try assumption; try reflexivity.
  - apply forallb_true_Forall in Hc. eapply Forall_impl; [exact Hc|].
    intros c Hn. now apply negb_true_iff in Hn.
  - now apply negb_true_iff in Hl.
Qed.

(** The request URL is built exactly when the endpoints can be read. *)
Lemma routeUrl_returns start end_ :
  endpointsReadable start end_ = true → ∃ url, routeUrl start end_ = Normal url.
Proof.
  unfold endpointsReadable. intros Hr.
  repeat match type of Hr with
         | _ && _ = true => let H := fresh "Hc" in apply andb_true_iff in Hr as [Hr H]
         end.
  apply negb_true_iff in Hr. apply negb_true_iff in Hc1.
  unfold routeUrl. rewrite !(get_field start), !(get_field end_) by assumption.
  run.
  destruct (to_string_convertible _ Hc3) as [s1 ->]. run.
  destruct (to_string_convertible _ Hc2) as [s2 ->]. run.
  destruct (to_string_convertible _ Hc0) as [s3 ->]. run.
  destruct (to_string_convertible _ Hc) as [s4 ->]. run. eauto.
Qed.

Lemma routeUrl_throws start end_ :
  endpointsReadable start end_ = false → throws (routeUrl start end_).
Proof.
  unfold endpointsReadable, routeUrl. intros Hr.
  destruct (is_nullish start) eqn:Hs;
    [rewrite (get_nullish "lng" Hs); eexists; reflexivity|].
  rewrite !(get_field start) by assumption. run.
  destruct (convertible (field start "lng")) eqn:H1;
    [|rewrite (to_string_unconvertible _ H1); eexists; reflexivity].
  destruct (to_string_convertible _ H1) as [s1 ->]. run.
  destruct (convertible (field start "lat")) eqn:H2;
    [|rewrite (to_string_unconvertible _ H2); eexists; reflexivity].
  destruct (to_string_convertible _ H2) as [s2 ->]. run.
  destruct (is_nullish end_) eqn:He;
    [rewrite (get_nullish "lng" He); eexists; reflexivity|].
  rewrite !(get_field end_) by assumption. run.
  destruct (convertible (field end_ "lng")) eqn:H3;
    [|rewrite (to_string_unconvertible _ H3); eexists; reflexivity].
  destruct (to_string_convertible _ H3) as [s3 ->]. run.
  cbn [negb andb] in Hr.
  rewrite (to_string_unconvertible _ Hr). eexists; reflexivity.
Qed.

Lemma fetchRoute_unreadable_endpoints fetch start end_ :
  endpointsReadable start end_ = false →
  fetchRoute fetch start end_ = Fulfilled None.
Proof.
  intros Hr. unfold fetchRoute, fetchRoute_try.
  now destruct (routeUrl_throws _ _ Hr) as [e ->].
Qed.

Lemma fetchRoute_failure fetch start end_ url :
  routeUrl start end_ = Normal url →
  routeFailure (fetch (routeRequest url)) →
  fetchRoute fetch start end_ = Fulfilled None.
Proof.
  intros Hurl Hf. unfold fetchRoute.
  now destruct (fetchRoute_try_failure fetch start end_ url Hurl Hf) as [e ->].
Qed.

Lemma fetchRoute_readable fetch start end_ url :
  routeUrl start end_ = Normal url →
  routeFailure (fetch (routeRequest url)) ∨
  ∃ route, fetchRoute fetch start end_ = Fulfilled (Some route).
Proof.
  intros Hurl.
  destruct (routeFailure_or_readable (fetch (routeRequest url)))
    as [Hf|(data & coords & Ho & Hcode & Hroutes & Hlen & Hcoords & Hpairs
            & Hdist & Hdur & Hlegs)];
    [now left|right].
  destruct (to_number_convertible _ Hdist) as [distance Edist].
  destruct (to_number_convertible _ Hdur) as [duration Edur].
  unfold fetchRoute.
  rewrite (fetchRoute_try_readable fetch start end_ url data coords
             distance duration); try assumption.
  eexists. reflexivity.
Qed.

(** C6, as amended.  [fetchRoute] returns [null] exactly when the request
    URL cannot be built (an endpoint is [null] or [undefined], or one of its
    coordinates does not print), or the request is rejected or not ok, the
    body does not parse, the status is not "Ok", the routes collection is
    missing or empty, or the first route cannot be read (no
    [geometry.coordinates] array of entries other than [null], a [distance]
    or [duration] that does not convert, no [legs]); in every other case it
    returns a route. *)
Theorem fetchRoute_absent_iff_failure fetch (start end_ : value) :
  (fetchRoute fetch start end_ = Fulfilled None ↔
   endpointsReadable start end_ = false ∨
   ∃ url, routeUrl start end_ = Normal url ∧
          routeFailure (fetch (routeRequest url))) ∧
  (fetchRoute fetch start end_ ≠ Fulfilled None →
   ∃ route, fetchRoute fetch start end_ = Fulfilled (Some route)).
Proof.
  split.
  - split.
    + intros Hnone.
      destruct (endpointsReadable start end_) eqn:Hr; [|now left].
      right. destruct (routeUrl_returns _ _ Hr) as [url Hurl].
      exists url. split; [exact Hurl|].
      destruct (fetchRoute_readable fetch start end_ url Hurl)
        as [Hf|[route Hroute]]; [exact Hf|].
      rewrite Hroute in Hnone. discriminate Hnone.
    + intros [Hr|(url & Hurl & Hf)].
      * now apply fetchRoute_unreadable_endpoints.
      * now apply (fetchRoute_failure _ _ _ url).
  - intros Hsome. unfold fetchRoute in *.
    destruct (fetchRoute_try fetch start end_) as [route|]; [eauto|].
    now contradiction Hsome.
Qed.

End RouteFetcher.

Section RouteFetcherExamples.
Import JS.

(** The failures the specification names are failures of the code. *)
Lemma routeFailure_spec_sound o : routeFailure_spec o → routeFailure o.
Proof.
  intros [|json|[] data Hcode|[] data Hroutes].
  - apply route_request_rejected.
  - apply route_status_not_ok.
  - apply route_code_not_Ok.
    destruct (field data "code") as [| | | |s| |]; try reflexivity.
    cbn. apply String.eqb_neq. congruence.
  - apply route_status_not_ok.
  - apply route_routes_empty. rewrite Hroutes. reflexivity.
  - apply route_status_not_ok.
Qed.

Lemma fetchRoute_first_route_witness :
  ∃ r,
    @fetchRoute plain_host
      (answering (FetchResolves true (JsonResolves (routing_response sample_route))))
      sample_start sample_end = Fulfilled (Some r) ∧
    Route.coordinates r = [(VNum 40.7, VNum (-74)); (VNum 41, VNum (-73))] ∧
    Route.distance r = (160934 / 1609.34)%float ∧
    Route.duration r = 120%float ∧
    Route.steps r = VArr [VStr "depart"; VStr "arrive"].
Proof.
  destruct (@fetchRoute_first_route plain_host
              (answering (FetchResolves true
                 (JsonResolves (routing_response sample_route))))
              sample_start sample_end _ (routing_response sample_route)
              sample_route []
              [VArr [VNum (-74); VNum 40.7]; VArr [VNum (-73); VNum 41]]
              160934%float 7200%float
              eq_refl eq_refl eq_refl eq_refl eq_refl
              ltac:(repeat constructor) eq_refl eq_refl eq_refl)
    as (r & Hr & Hcoords & _ & Hdistance & Hduration & Hsteps & _).
  exists r. split; [exact Hr|]. split; [exact Hcoords|].
  split; [exact Hdistance|]. split; [exact Hduration | exact Hsteps].
Defined.

(** C3, as stated, fails on a successful response whose first route has no
    [legs] property: reading [route.legs[0]] throws and [fetchRoute] returns
    [null] instead of a route with empty steps. *)
Lemma fetchRoute_absent_without_legs :
  ¬ (∀ (H : Host) fetch start end_ url data route others,
       routeUrl start end_ = Normal url →
       fetch (routeRequest url) = FetchResolves true (JsonResolves data) →
       field data "code" = VStr "Ok" →
       field data "routes" = VArr (route :: others) →
       ∃ r, fetchRoute fetch start end_ = Fulfilled (Some r)).
Proof.
  intros claim.
  destruct (claim plain_host
    (answering (FetchResolves true
       (JsonResolves (routing_response sample_route_without_legs))))
    sample_start sample_end _
    (routing_response sample_route_without_legs)
    sample_route_without_legs [] eq_refl eq_refl eq_refl eq_refl) as [r Hr].
  vm_compute in Hr. discriminate Hr.
Qed.

Lemma fetchRoute_absent_iff_failure_witness :
  @fetchRoute plain_host
    (answering (FetchResolves true (JsonResolves (VObj {[ "code" := VStr "NoRoute" ]}))))
    sample_start sample_end = Fulfilled None ∧
  @fetchRoute plain_host (answering FetchRejects) VNull sample_end = Fulfilled None.
Proof.
  split.
  - apply (proj1 (@fetchRoute_absent_iff_failure plain_host
             (answering (FetchResolves true
                (JsonResolves (VObj {[ "code" := VStr "NoRoute" ]}))))
             sample_start sample_end)).
    right. eexists. split; [reflexivity|].
    apply route_code_not_Ok. reflexivity.
  - apply (proj1 (@fetchRoute_absent_iff_failure plain_host
             (answering FetchRejects) VNull sample_end)).
    left. reflexivity.
Defined.

(** C6, as stated, fails on a successful response of status "Ok" with one
    route that has no geometry: none of the three named conditions holds,
    and [fetchRoute] returns [null]. *)
Lemma fetchRoute_absent_on_unreadable_route :
  ¬ (∀ (H : Host) fetch start end_ url,
       routeUrl start end_ = Normal url →
       (fetchRoute fetch start end_ = Fulfilled None ↔
        routeFailure_spec (fetch (routeRequest url)))).
Proof.
  intros claim.
  pose proof (claim plain_host
    (answering (FetchResolves true (JsonResolves (routing_response (VObj ∅)))))
    sample_start sample_end _ eq_refl) as [Hspec _].
  specialize (Hspec eq_refl). unfold answering in Hspec.
  inversion Hspec as [| |ok data Hcode|ok data Hroutes]; subst.
  - apply Hcode. reflexivity.
  - vm_compute in Hroutes. discriminate Hroutes.
Qed.

End RouteFetcherExamples.

(** ** Failure policy of the two fetchers *)

Section FailurePolicy.
Import JS.

(** C5.  Both fetchers collapse what fails into "no result", and neither
    promise is ever rejected.  [fetchNearbyGasStations] returns the empty
    array when the query cannot be built, when the request is rejected,
    when the response is not ok, when the body does not parse and when the
    payload cannot be read ([elements] is not an array, or holds an element
    that is [null] or whose position or address cannot be converted); apart
    from a payload without elements, that is the only way it returns the
    empty array.  [fetchRoute] returns [null] when the URL cannot be built
    and on every failed routing exchange.  A payload that can be read is
    mapped, one station per element, whatever else is wrong with it. *)
Theorem fetchers_collapse_failures `{Host} (fetch : request → fetch_outcome) :
  (∀ lat lng radius,
     fetchNearbyGasStations fetch lat lng radius = Fulfilled [] ↔
     queryReadable lat lng radius = false ∨
     ∃ request,
       stationsRequest lat lng radius = Normal request ∧
       (stationsFailure (fetch request) ∨
        ∃ data, fetch request = FetchResolves true (JsonResolves data) ∧
                field data "elements" = VArr [])) ∧
  (∀ start end_,
     endpointsReadable start end_ = false ∨
     (∃ url, routeUrl start end_ = Normal url ∧
             routeFailure (fetch (routeRequest url))) →
     fetchRoute fetch start end_ = Fulfilled None) ∧
  (∀ lat lng radius request data elements,
     stationsRequest lat lng radius = Normal request →
     fetch request = FetchResolves true (JsonResolves data) →
     elementsOf data = Some elements →
     ∃ stations,
       fetchNearbyGasStations fetch lat lng radius = Fulfilled stations ∧
       length stations = length elements) ∧
  (∀ lat lng radius,
     ∃ stations, fetchNearbyGasStations fetch lat lng radius = Fulfilled stations) ∧
  (∀ start end_,
     ∃ route, fetchRoute fetch start end_ = Fulfilled route).
Proof.
  split; [|split; [|split; [|split]]].
  - intros lat lng radius. apply fetchNearbyGasStations_empty_iff.
  - intros start end_ [Hr|(url & Hurl & Hf)].
    + now apply fetchRoute_unreadable_endpoints.
    + now apply (fetchRoute_failure _ _ _ url).
  - intros lat lng radius request data elements Hreq Hfetch Hel.
    destruct (fetchNearbyGasStations_maps _ _ _ _ _ _ _ Hreq Hfetch Hel)
      as (upstream & Hmap & Hs).
    exists (JS.sort byDistance upstream). split; [exact Hs|].
    rewrite (Permutation_length (sort_Permutation byDistance upstream)).
    symmetry. exact (Forall2_length _ _ _ Hmap).
  - intros lat lng radius. unfold fetchNearbyGasStations. cbv zeta.
    destruct (fetchNearbyGasStations_try _ _ _ _); eauto.
  - intros start end_. unfold fetchRoute.
    destruct (fetchRoute_try _ _ _); eauto.
Qed.

Lemma fetchers_collapse_failures_witness :
  @fetchNearbyGasStations plain_host
    (answering (FetchResolves false JsonRejects))
    (VNum 40.7) (VNum (-74)) VUndef = Fulfilled [] ∧
  @fetchRoute plain_host (answering FetchRejects) sample_start sample_end
    = Fulfilled None.
Proof.
  split.
  - apply (proj1 (@fetchers_collapse_failures plain_host
                    (answering (FetchResolves false JsonRejects)))).
    right. eexists. split; [reflexivity|]. left.
    apply stations_status_not_ok.
  - apply (proj1 (proj2 (@fetchers_collapse_failures plain_host
                           (answering FetchRejects)))).
    right. eexists. split; [reflexivity|].
    apply route_request_rejected.
Defined.

(** C5, as stated, fails on a malformed payload that raises no exception:
    the elements [{}], [5] and ["x"] are no station records, and
    [fetchNearbyGasStations] returns three stations for them. *)
Lemma fetchNearbyGasStations_maps_malformed_payload :
  ¬ (∀ (H : Host) fetch lat lng radius request data,
       stationsRequest lat lng radius = Normal request →
       fetch request = FetchResolves true (JsonResolves data) →
       expectedShape_spec data = false →
       fetchNearbyGasStations fetch lat lng radius = Fulfilled []).
Proof.
  intros claim.
  pose proof (claim plain_host
    (answering (FetchResolves true (JsonResolves sample_malformed_payload)))
    (VNum 40.7) (VNum (-74)) VUndef _ sample_malformed_payload
    eq_refl eq_refl eq_refl) as Hempty.
  vm_compute in Hempty. discriminate Hempty.
Qed.

(** The same on the routing side: a first route without [distance] and
    [duration] is no failure; the route returned carries NaN for both. *)
Lemma fetchRoute_maps_route_without_distance :
  ∃ r,
    @fetchRoute plain_host
      (answering (FetchResolves true
         (JsonResolves (routing_response sample_route_without_distance))))
      sample_start sample_end = Fulfilled (Some r) ∧
    PrimFloat.is_nan (Route.distance r) = true ∧
    PrimFloat.is_nan (Route.duration r) = true.
Proof. eexists. split; [reflexivity|]. split; reflexivity. Qed.

End FailurePolicy.

(** ** Presentation Formatters *)

Section PresentationFormatters.
Import JS.

Lemma string_of_uint_revapp d : ∀ d',
  NilEmpty.string_of_uint (Decimal.revapp d d') =
  NilEmpty.string_of_uint (Decimal.rev d) +:+ NilEmpty.string_of_uint d'.
Proof.
  assert (Hassoc : ∀ a b c : string, (a +:+ b) +:+ c = a +:+ (b +:+ c)).
  { intros a b c. induction a as [|x a IH]; [reflexivity|].
    change (String x ((a +:+ b) +:+ c) = String x (a +:+ b +:+ c)).
    now f_equal. }
  unfold Decimal.rev.
  induction d as [|d IH|d IH|d IH|d IH|d IH|d IH|d IH|d IH|d IH|d IH];
    intros d'; [reflexivity|..];
    cbn [Decimal.revapp]; rewrite IH; symmetry; rewrite IH; symmetry;
    rewrite Hassoc; reflexivity.
Qed.

Lemma of_lu_to_lu a : Unsigned.of_lu (Unsigned.to_lu a) = a.
Proof.
  destruct a as [|p]; [reflexivity|].
  cbn [Unsigned.to_lu]. rewrite <- Unsigned.of_lu_rev.
  exact (Unsigned.of_to p).
Qed.

Lemma nztail_to_lu a : (0 < a)%N →
  nztail (Unsigned.to_lu a) = Unsigned.to_lu a ∧ Unsigned.to_lu a ≠ Decimal.Nil.
Proof.
  intros Ha. pose proof (Unsigned.to_of_lu (Unsigned.to_lu a)) as Hn.
  rewrite of_lu_to_lu in Hn. unfold lnorm in Hn.
  destruct (nztail (Unsigned.to_lu a)) eqn:Ht;
    [exfalso; pose proof (of_lu_to_lu a) as Ho; rewrite Hn in Ho;
     cbn in Ho; lia|..];
    (split; [symmetry; exact Hn|];
     intros E; rewrite E in Ht; cbn in Ht; discriminate Ht).
Qed.

Lemma to_lu_tenfold a k (d : Decimal.uint → Decimal.uint) :
  (0 < a)%N →
  (∀ u, Unsigned.of_lu (d u) = (k + 10 * Unsigned.of_lu u)%N) →
  (∀ u, u ≠ Decimal.Nil → nztail u = u → nztail (d u) = d u) →
  Unsigned.to_lu (k + 10 * a) = d (Unsigned.to_lu a).
Proof.
  intros Ha Hd Hnz. destruct (nztail_to_lu a Ha) as [Ht Hnil].
  rewrite <- (of_lu_to_lu a) at 1. rewrite <- Hd.
  rewrite Unsigned.to_of_lu. unfold lnorm. rewrite (Hnz _ Hnil Ht).
  pose proof (Hd Decimal.Nil) as H0.
  destruct (d (Unsigned.to_lu a)) eqn:E; try reflexivity.
  exfalso. pose proof (Hd (Unsigned.to_lu a)) as H1. rewrite E in H1.
  rewrite of_lu_to_lu in H1. cbn in H1. lia.
Qed.

Lemma to_uint_rev n : N.to_uint n = Decimal.rev (Unsigned.to_lu n).
Proof. now destruct n. Qed.

Lemma digits_of_N_snoc a k (d : Decimal.uint → Decimal.uint) c :
  (0 < a)%N →
  (∀ u, Unsigned.of_lu (d u) = (k + 10 * Unsigned.of_lu u)%N) →
  (∀ u, u ≠ Decimal.Nil → nztail u = u → nztail (d u) = d u) →
  (∀ u, Decimal.rev (d u) = Decimal.revapp u (d Decimal.Nil)) →
  NilEmpty.string_of_uint (d Decimal.Nil) = c →
  digits_of_N (k + 10 * a) = digits_of_N a +:+ c.
Proof.
  intros Ha Hd Hnz Hrev <-. destruct (nztail_to_lu a Ha) as [_ Hnil].
  assert (Hzero : ∀ u, u ≠ Decimal.Nil →
            NilZero.string_of_uint u = NilEmpty.string_of_uint u).
  { intros u Hu. now destruct u. }
  unfold digits_of_N. rewrite !to_uint_rev.
  rewrite (to_lu_tenfold a k d Ha Hd Hnz), Hrev.
  rewrite !Hzero.
  - apply string_of_uint_revapp.
  - intros E. now apply rev_nil_inv in E.
  - intros E. now apply revapp_nil_inv in E as [E _].
Qed.

Lemma digits_of_N_tenfold a k :
  (0 < a)%N → (k < 10)%N →
  digits_of_N (k + 10 * a) = digits_of_N a +:+ digits_of_N k.
Proof.
  intros Ha Hk.
  assert (Hnz : ∀ d : Decimal.uint → Decimal.uint,
            (∀ u, nztail (d u) = d (nztail u)) →
            ∀ u, u ≠ Decimal.Nil → nztail u = u → nztail (d u) = d u).
  { intros d Hd u _ Hu. now rewrite Hd, Hu. }
  assert (Hcases : (k = 0 ∨ k = 1 ∨ k = 2 ∨ k = 3 ∨ k = 4 ∨
                    k = 5 ∨ k = 6 ∨ k = 7 ∨ k = 8 ∨ k = 9)%N) by lia.
  destruct Hcases as [->|[->|[->|[->|[->|[->|[->|[->|[->| ->]]]]]]]]].
  - apply (digits_of_N_snoc a 0 Decimal.D0); try done.
    intros u Hu Ht. cbn [nztail]. rewrite Ht. now destruct u.
  - apply (digits_of_N_snoc a 1 Decimal.D1); try done. now apply Hnz.
  - apply (digits_of_N_snoc a 2 Decimal.D2); try done. now apply Hnz.
  - apply (digits_of_N_snoc a 3 Decimal.D3); try done. now apply Hnz.
  - apply (digits_of_N_snoc a 4 Decimal.D4); try done. now apply Hnz.
  - apply (digits_of_N_snoc a 5 Decimal.D5); try done. now apply Hnz.
  - apply (digits_of_N_snoc a 6 Decimal.D6); try done. now apply Hnz.
  - apply (digits_of_N_snoc a 7 Decimal.D7); try done. now apply Hnz.
  - apply (digits_of_N_snoc a 8 Decimal.D8); try done. now apply Hnz.
  - apply (digits_of_N_snoc a 9 Decimal.D9); try done. now apply Hnz.
Qed.

Lemma append_length (a b : string) :
  String.length (a +:+ b) = (String.length a + String.length b)%nat.
Proof. induction a as [|c a IH]; simpl; [reflexivity|]. f_equal. exact IH. Qed.

Lemma substring_prefix (a b : string) :
  String.substring 0 (String.length a) (a +:+ b) = a.
Proof.
  induction a as [|c a IH]; [now destruct b|].
  change (String c (String.substring 0 (String.length a) (a +:+ b)) = String c a).
  now f_equal.
Qed.

Lemma substring_suffix (a b : string) :
  String.substring (String.length a) (String.length b) (a +:+ b) = b.
Proof.
  induction a as [|c a IH]; [|exact IH].
  change (String.substring 0 (String.length b) b = b).
  induction b as [|c b IH]; [reflexivity|].
  change (String c (String.substring 0 (String.length b) b) = String c b).
  now f_equal.
Qed.

Lemma digits_of_N_nonempty n : (1 <= String.length (digits_of_N n))%nat.
Proof.
  unfold digits_of_N, NilZero.string_of_uint.
  destruct (N.to_uint n); cbn; lia.
Qed.

(** With one fraction digit, [fixed_digits] prints the tenths as the whole
    part, a point, and the last digit. *)
Lemma fixed_digits_tenths whole tenth :
  (tenth < 10)%N →
  fixed_digits (tenth + 10 * whole) 1 =
  digits_of_N whole +:+ "." +:+ digits_of_N tenth.
Proof.
  intros Hk.
  assert (Hcases : (tenth = 0 ∨ tenth = 1 ∨ tenth = 2 ∨ tenth = 3 ∨ tenth = 4 ∨
                    tenth = 5 ∨ tenth = 6 ∨ tenth = 7 ∨ tenth = 8 ∨ tenth = 9)%N)
    by lia.
  destruct (N.eq_dec whole 0%N) as [->|Hw].
  { destruct Hcases as [->|[->|[->|[->|[->|[->|[->|[->|[->| ->]]]]]]]]];
      reflexivity. }
  assert (Hlen : String.length (digits_of_N tenth) = 1%nat).
  { destruct Hcases as [->|[->|[->|[->|[->|[->|[->|[->|[->| ->]]]]]]]]];
      reflexivity. }
  unfold fixed_digits. rewrite digits_of_N_tenfold by lia.
  pose proof (digits_of_N_nonempty whole) as Hwhole.
  rewrite append_length, Hlen.
  destruct (Nat.leb_spec (String.length (digits_of_N whole) + 1) 1) as [Hle|_];
    [lia|].
  rewrite !append_length, !Hlen.
  replace (String.length (digits_of_N whole) + 1 - 1)%nat
    with (String.length (digits_of_N whole)) by lia.
  rewrite substring_prefix.
  pose proof (substring_suffix (digits_of_N whole) (digits_of_N tenth)) as Hs.
  rewrite Hlen in Hs. now rewrite Hs.
Qed.

(** *** Integers as binary64 values *)

Lemma binary_round_aux_canonical s m e :
  bounded prec emax m e = true →
  binary_round_aux prec emax s (Z.pos m) e loc_Exact = S754_finite s m e.
Proof.
  intros Hb. unfold bounded, canonical_mantissa in Hb.
  apply andb_true_iff in Hb as [Hc He]. apply Z.eqb_eq in Hc.
  unfold binary_round_aux, shr_fexp. cbn [Zdigits2 shr_record_of_loc].
  rewrite Hc, Z.sub_diag. cbn [shr shr_m loc_of_shr_record round_nearest_even].
  cbn [Zdigits2 shr_record_of_loc].
  rewrite Hc, Z.sub_diag. cbn [shr shr_m]. now rewrite He.
Qed.

Lemma digits2_pos_exact m d :
  2 ^ (d - 1) <= Z.pos m < 2 ^ d → Z.pos (digits2_pos m) = d.
Proof.
  intros [Hlo Hhi]. pose proof (digits2_pos_bounds m) as [Dlo Dhi].
  set (D := Z.pos (digits2_pos m)) in *.
  assert (0 < D) by (unfold D; lia). clearbody D.
  destruct (Z.lt_trichotomy D d) as [Hlt|[Heq|Hgt]]; [|exact Heq|].
  - assert (2 ^ D <= 2 ^ (d - 1)) by (apply Z.pow_le_mono_r; lia). lia.
  - assert (0 < d).
    { destruct (Z.le_gt_cases d 0) as [Hd|Hd]; [|exact Hd].
      exfalso. destruct (Z.eq_dec d 0) as [->|Hne].
      - change (2 ^ 0) with 1 in Hhi. lia.
      - rewrite Z.pow_neg_r in Hhi by lia. lia. }
    assert (2 ^ d <= 2 ^ (D - 1)) by (apply Z.pow_le_mono_r; lia). lia.
Qed.

(** An integer below 2^53 in magnitude is a binary64 value. *)
Lemma binary_round_exact s p :
  Z.pos p < 2 ^ prec →
  ∃ m e,
    binary_round prec emax s p 0 = S754_finite s m e ∧
    bounded prec emax m e = true ∧
    e <= 0 ∧ Z.pos m = Z.pos p * 2 ^ (- e).
Proof.
  intros Hp. pose proof (digits2_pos_bounds p) as [Dlo Dhi].
  set (d := Z.pos (digits2_pos p)) in *.
  assert (Hd : 0 < d <= prec).
  { split; [unfold d; lia|].
    destruct (Z.le_gt_cases d prec) as [Hle|Hgt]; [exact Hle|].
    assert (2 ^ prec <= 2 ^ (d - 1)) by (apply Z.pow_le_mono_r; lia). lia. }
  unfold binary_round.
  assert (Hf : fexp prec emax (d + 0) = d - prec).
  { unfold fexp, emin, emax, prec in *. lia. }
  fold d. rewrite Hf.
  destruct (shl_align p 0 (d - prec)) as [mz ez] eqn:Ea.
  pose proof (shl_align_value p 0 (d - prec) ltac:(lia)) as Hv.
  rewrite Ea in Hv. cbn [fst] in Hv.
  assert (Hez : ez = d - prec).
  { unfold shl_align in Ea.
    destruct (d - prec - 0) eqn:Ed; injection Ea as _ <-; lia. }
  subst ez.
  assert (Hb : bounded prec emax mz (d - prec) = true).
  { unfold bounded, canonical_mantissa.
    rewrite (digits2_pos_exact mz prec).
    - apply andb_true_iff. split; [apply Z.eqb_eq | apply Z.leb_le];
        unfold fexp, emin, emax, prec in *; lia.
    - rewrite Hv. replace (0 - (d - prec)) with (prec - d) by lia.
      assert (Hk : 0 < 2 ^ (prec - d)) by (apply Z.pow_pos_nonneg; lia).
      replace (2 ^ (prec - 1)) with (2 ^ (d - 1) * 2 ^ (prec - d)).
      2:{ rewrite <- Z.pow_add_r by lia. f_equal. lia. }
      replace (2 ^ prec) with (2 ^ d * 2 ^ (prec - d)).
      2:{ rewrite <- Z.pow_add_r by lia. f_equal. lia. }
      split; nia. }
  exists mz, (d - prec). rewrite (binary_round_aux_canonical s mz _ Hb).
  split; [reflexivity|]. split; [exact Hb|]. split; [lia|].
  rewrite Hv. now replace (0 - (d - prec)) with (- (d - prec)) by lia.
Qed.

Lemma float_of_Z_exact r :
  r ≠ 0 → Z.abs r < 2 ^ prec →
  ∃ m e,
    Prim2SF (float_of_Z r) = S754_finite (r <? 0) m e ∧
    e <= 0 ∧ Z.pos m = Z.abs r * 2 ^ (- e).
Proof.
  intros Hr Hlt. unfold float_of_Z, binary_normalize.
  destruct r as [|p|p]; [contradiction| |].
  - destruct (binary_round_exact false p Hlt) as (m & e & -> & Hb & He & Hm).
    exists m, e. rewrite Prim2SF_SF2Prim by exact Hb. now split.
  - destruct (binary_round_exact true p Hlt) as (m & e & -> & Hb & He & Hm).
    exists m, e. rewrite Prim2SF_SF2Prim by exact Hb. now split.
Qed.

Section Labels.
Context `{Host}.

(** A Number whose magnitude is an integer below 2^53 prints as that
    integer. *)
Lemma number_to_string_integral x s m e n :
  Prim2SF x = S754_finite s m e →
  (if 0 <=? e then Z.pos m * 2 ^ e = n else Z.pos m = n * 2 ^ (- e)) →
  n < 2 ^ 53 →
  number_to_string x = (if s then "-" else "") +:+ digits_of_N (Z.to_N n).
Proof.
  intros Hx Hn Hlt. unfold number_to_string. rewrite Hx. f_equal.
  unfold positive_to_string, integral_value.
  rewrite abs_spec, Hx. cbn [SFabs].
  destruct (Z.leb_spec 0 e) as [He|He].
  - rewrite Hn. now destruct (Z.ltb_spec n (2 ^ 53)); [|lia].
  - assert (0 < 2 ^ (- e)) by (apply Z.pow_pos_nonneg; lia).
    rewrite Hn, Z.mod_mul, Z.div_mul by lia. cbn [Z.eqb].
    now destruct (Z.ltb_spec n (2 ^ 53)); [|lia].
Qed.

Lemma decimal_signed (s : bool) n :
  0 < n →
  decimal (cond_Zopp s n) = (if s then "-" else "") +:+ digits_of_N (Z.to_N n).
Proof.
  intros Hn. unfold decimal. destruct s; cbn [cond_Zopp].
  - destruct (Z.ltb_spec (- n) 0); [|lia]. f_equal. f_equal. lia.
  - destruct (Z.ltb_spec n 0); [lia|]. f_equal. f_equal. lia.
Qed.

(** [Math.round] yields the nearest integer, the larger one on a tie, and
    that integer prints in decimal. *)
Lemma round_label x q :
  exact_value x = Some q →
  ∃ n, nearest_integer q n ∧
       (Z.abs n < 2 ^ 53 → number_to_string (JS.round x) = decimal n).
Proof.
  unfold exact_value, JS.round, nearest_integer.
  destruct (Prim2SF x) as [sz| | |s m e] eqn:Hx; try discriminate.
  { intros [= <-]. exists 0. split; [cbn; lia|]. intros _.
    unfold number_to_string. now rewrite Hx. }
  destruct (Z.leb_spec 0 e) as [He|He]; intros [= <-]; cbn [fst snd].
  { assert (0 < 2 ^ e) by (apply Z.pow_pos_nonneg; lia).
    exists (cond_Zopp s (Z.pos m) * 2 ^ e). split; [lia|]. intros Hlt.
    rewrite cond_Zopp_mul in *. rewrite decimal_signed by lia.
    apply (number_to_string_integral x s m e); [exact Hx| |].
    - now destruct (Z.leb_spec 0 e); [|lia].
    - destruct s; cbn [cond_Zopp] in Hlt; lia. }
  assert (Hden : 0 < 2 ^ (- e)) by (apply Z.pow_pos_nonneg; lia).
  set (den := 2 ^ (- e)) in *.
  destruct (Z.eqb_spec (Z.pos m mod den) 0) as [Hmod|Hmod].
  { apply Z.div_exact in Hmod; [|lia].
    set (k := Z.pos m / den) in *.
    assert (0 < k) by nia.
    exists (cond_Zopp s k). split.
    - destruct s; cbn [cond_Zopp]; nia.
    - intros Hlt. rewrite decimal_signed by lia.
      apply (number_to_string_integral x s m e); [exact Hx| |].
      + destruct (Z.leb_spec 0 e); [lia|]. fold den. lia.
      + destruct s; cbn [cond_Zopp] in Hlt; lia. }
  change (if s then Z.neg m else Z.pos m) with (cond_Zopp s (Z.pos m)).
  set (num := cond_Zopp s (Z.pos m)).
  set (r := (2 * num + den) / (2 * den)).
  exists r. split.
  { pose proof (Z.mul_div_le (2 * num + den) (2 * den) ltac:(lia)).
    pose proof (Z.mul_succ_div_gt (2 * num + den) (2 * den) ltac:(lia)).
    fold r in H0, H1. lia. }
  intros Hlt. destruct (Z.eqb_spec r 0) as [->|Hr].
  { now destruct s. }
  destruct (float_of_Z_exact r Hr Hlt) as (m' & e' & Hf & He' & Hm').
  rewrite (number_to_string_integral _ _ _ _ (Z.abs r) Hf).
  - unfold decimal. f_equal. f_equal. lia.
  - destruct (Z.leb_spec 0 e'); [|exact Hm'].
    replace e' with 0 in * by lia. cbn in Hm'. cbn. lia.
  - exact Hlt.
Qed.

Lemma exact_value_not_nan x q :
  exact_value x = Some q → PrimFloat.is_nan x = false.
Proof.
  intros Hq. destruct (PrimFloat.is_nan x) eqn:Hn; [|reflexivity].
  apply is_nan_Prim2SF in Hn. unfold exact_value in Hq.
  rewrite Hn in Hq. discriminate Hq.
Qed.

(** [toFixed(1)] yields the nearest tenth, the larger one on a tie, with
    one digit after the point. *)
Lemma toFixed_tenths x q :
  exact_value x = Some q → 0 < q.1 → q.1 < 10 ^ 21 * q.2 →
  ∃ whole tenth : N,
    (tenth < 10)%N ∧
    nearest_integer (tenfold q) (Z.of_N (tenth + 10 * whole)) ∧
    toFixed x 1 = digits_of_N whole +:+ "." +:+ digits_of_N tenth.
Proof.
  unfold exact_value, toFixed, nearest_integer, tenfold.
  destruct (Prim2SF x) as [sz| | |s m e] eqn:Hx; try discriminate.
  { intros [= <-]. cbn. lia. }
  assert (Hsplit : ∀ n : Z, 0 <= n →
            Z.to_N n = (Z.to_N n mod 10 + 10 * (Z.to_N n / 10))%N ∧
            (Z.to_N n mod 10 < 10)%N ∧
            Z.of_N (Z.to_N n mod 10 + 10 * (Z.to_N n / 10)) = n).
  { intros n Hn. pose proof (N.div_mod' (Z.to_N n) 10) as Hd.
    pose proof (N.mod_lt (Z.to_N n) 10 ltac:(lia)).
    split; [lia|]. split; [lia|]. lia. }
  change (10 ^ Z.of_nat 1) with 10.
  destruct (Z.leb_spec 0 e) as [He|He]; intros [= <-]; cbn [fst snd];
    intros Hpos Hlt.
  - assert (0 < 2 ^ e) by (apply Z.pow_pos_nonneg; lia).
    assert (s = false) as -> by (destruct s; [cbn [cond_Zopp] in Hpos; lia|easy]).
    cbn [cond_Zopp] in *.
    destruct (Z.leb_spec (10 ^ 21) (Z.pos m * 2 ^ e)) as [Hbig|_]; [lia|].
    cbn [andb].
    destruct (Hsplit (Z.pos m * 10 * 2 ^ e) ltac:(lia)) as (Hn & Hk & Hz).
    eexists _, _. split; [exact Hk|]. split; [rewrite Hz; lia|].
    rewrite Hn at 1. now rewrite fixed_digits_tenths by exact Hk.
  - assert (Hden : 0 < 2 ^ (- e)) by (apply Z.pow_pos_nonneg; lia).
    assert (s = false) as -> by (destruct s; [cbn [cond_Zopp] in Hpos; lia|easy]).
    cbn [cond_Zopp andb] in *.
    replace (2 ^ (1 - e)) with (2 * 2 ^ (- e)).
    2:{ replace (1 - e) with (1 + - e) by lia.
        rewrite (Z.pow_add_r 2 1 (- e)) by lia. reflexivity. }
    set (den := 2 ^ (- e)) in *.
    set (n := (2 * (Z.pos m * 10) + den) / (2 * den)).
    pose proof (Z.mul_div_le (2 * (Z.pos m * 10) + den) (2 * den) ltac:(lia))
      as Hle.
    pose proof (Z.mul_succ_div_gt (2 * (Z.pos m * 10) + den) (2 * den)
                  ltac:(lia)) as Hgt.
    fold n in Hle, Hgt.
    assert (0 <= n) by (apply Z.div_pos; lia).
    destruct (Hsplit n ltac:(lia)) as (Hn & Hk & Hz).
    eexists _, _. split; [exact Hk|]. split; [rewrite Hz; lia|].
    rewrite Hn at 1. now rewrite fixed_digits_tenths by exact Hk.
Qed.


Lemma append_assoc (a b c : string) : (a +:+ b) +:+ c = a +:+ b +:+ c.
Proof.
  induction a as [|x a IH]; [reflexivity|].
  change (String x ((a +:+ b) +:+ c) = String x (a +:+ b +:+ c)).
  now f_equal.
Qed.

Lemma exact_value_denominator x q : exact_value x = Some q → 0 < q.2.
Proof.
  unfold exact_value.
  destruct (Prim2SF x) as [sz| | |s m e]; try discriminate.
  - intros [= <-]. cbn. lia.
  - destruct (Z.leb_spec 0 e); intros [= <-]; cbn [snd]; [lia|].
    apply Z.pow_pos_nonneg; lia.
Qed.

Lemma nearest_integer_unique q n n' :
  0 < q.2 → nearest_integer q n → nearest_integer q n' → n' = n.
Proof.
  unfold nearest_integer. intros Hq [Hlo Hhi] [Hlo' Hhi'].
  destruct (Z.lt_trichotomy n' n) as [Hlt|[Heq|Hgt]]; [|exact Heq|].
  - assert (2 * q.2 * (n' + 1) <= 2 * q.2 * n)
      by (apply Z.mul_le_mono_nonneg_l; lia). lia.
  - assert (2 * q.2 * (n + 1) <= 2 * q.2 * n')
      by (apply Z.mul_le_mono_nonneg_l; lia). lia.
Qed.

(** A value that is not below 0.1 is above zero. *)
Lemma not_below_tenth_positive x q :
  (x <? 0.1)%float = false → exact_value x = Some q → 0 < q.1.
Proof.
  intros Hlt Hq. pose proof (exact_value_not_nan x q Hq) as Hn.
  rewrite ltb_ord in Hlt by (exact Hn || reflexivity).
  apply Z.ltb_ge in Hlt.
  assert (Htenth : 0 < ord 0.1) by (vm_compute; reflexivity).
  revert Hlt Htenth. generalize (ord 0.1). intros t Hlt Htenth.
  unfold exact_value in Hq. unfold ord in Hlt.
  destruct (Prim2SF x) as [sz| | |s m e]; try discriminate; cbn [SFord] in Hlt.
  - lia.
  - assert (0 < 2 ^ (e - emin)) by (apply Z.pow_pos_nonneg; [lia|
      destruct (Z.le_gt_cases emin e) as [Hle|Hgt]; [lia|];
      rewrite Z.pow_neg_r in Hlt by lia; rewrite Z.mul_0_r in Hlt;
      destruct s; cbn [cond_Zopp] in Hlt; lia]).
    destruct s; cbn [cond_Zopp] in Hlt; [lia|].
    destruct (Z.leb_spec 0 e); injection Hq as <-; cbn [fst]; [|lia].
    assert (0 < 2 ^ e) by (apply Z.pow_pos_nonneg; lia). lia.
Qed.

(** C9.  [formatDistance] labels a distance below 0.1 miles in whole feet:
    the integer nearest to [miles * 5280], the larger one when two are
    equally near, in decimal and followed by " ft".  It labels any other
    distance below 10^21 miles in miles with one decimal: the tenth
    nearest to [miles], the larger one when two are equally near, as the
    whole part, a point, one digit and " mi".  So 0.05 gives "264 ft", 2.5
    gives "2.5 mi", 0.0123 (64.944 feet) gives "65 ft", 2.46 gives
    "2.5 mi" and 0.25 gives "0.3 mi".  A distance that is not finite is
    not labelled with a number: "NaN mi", "Infinity mi", "-Infinity ft". *)
Theorem formatDistance_label :
  (∀ miles q,
     (miles <? 0.1)%float = true →
     exact_value (miles * 5280) = Some q →
     ∃ n : Z,
       nearest_integer q n ∧
       (∀ n', nearest_integer q n' → n' = n) ∧
       (Z.abs n < 2 ^ 53 →
        formatDistance (VNum miles) = Normal (decimal n +:+ " ft"))) ∧
  (∀ miles q,
     (miles <? 0.1)%float = false →
     exact_value miles = Some q →
     q.1 < 10 ^ 21 * q.2 →
     ∃ whole tenth : N,
       (tenth < 10)%N ∧
       nearest_integer (tenfold q) (Z.of_N (tenth + 10 * whole)) ∧
       (∀ n', nearest_integer (tenfold q) n' → n' = Z.of_N (tenth + 10 * whole)) ∧
       formatDistance (VNum miles) =
       Normal (digits_of_N whole +:+ "." +:+ digits_of_N tenth +:+ " mi")) ∧
  formatDistance (VNum 0.05) = Normal "264 ft" ∧
  formatDistance (VNum 2.5) = Normal "2.5 mi" ∧
  formatDistance (VNum 0.0123) = Normal "65 ft" ∧
  formatDistance (VNum 2.46) = Normal "2.5 mi" ∧
  formatDistance (VNum 0.25) = Normal "0.3 mi" ∧
  formatDistance (VNum nan) = Normal "NaN mi" ∧
  formatDistance (VNum infinity) = Normal "Infinity mi" ∧
  formatDistance (VNum neg_infinity) = Normal "-Infinity ft".
Proof.
  split; [|split; [|repeat split; vm_compute; reflexivity]].
  - intros miles q Hbelow Hq.
    destruct (round_label _ _ Hq) as (n & Hn & Hlabel).
    exists n. split; [exact Hn|]. split.
    + intros n' Hn'.
      exact (nearest_integer_unique q n n' (exact_value_denominator _ _ Hq) Hn Hn').
    + intros Hlt. unfold formatDistance, js_lt_num. cbn [to_number]. run.
      rewrite Hbelow. run. now rewrite (Hlabel Hlt).
  - intros miles q Hbelow Hq Hlt.
    pose proof (not_below_tenth_positive _ _ Hbelow Hq) as Hpos.
    destruct (toFixed_tenths _ _ Hq Hpos Hlt) as (whole & tenth & Hk & Hn & Hlabel).
    exists whole, tenth. split; [exact Hk|]. split; [exact Hn|]. split.
    + intros n' Hn'.
      apply (nearest_integer_unique (tenfold q)); [|exact Hn|exact Hn'].
      exact (exact_value_denominator _ _ Hq).
    + unfold formatDistance, js_lt_num. cbn [to_number]. run.
      rewrite Hbelow, Hlabel. run. now rewrite !append_assoc.
Qed.

End Labels.
End PresentationFormatters.

Section PresentationFormattersExamples.
Import JS.

Lemma formatDistance_label_witness :
  @formatDistance plain_host (VNum 0.0123) = Normal "65 ft" ∧
  @formatDistance plain_host (VNum 2.46) = Normal "2.5 mi".
Proof.
  split.
  - destruct (proj1 (@formatDistance_label plain_host) 0.0123%float
                (default (0, 1) (exact_value (0.0123 * 5280))) eq_refl eq_refl)
      as (n & _ & Hunique & Hlabel).
    assert (Hn : 65 = n) by (apply Hunique; vm_compute; split; [discriminate|reflexivity]).
    subst n. apply Hlabel. reflexivity.
  - destruct (proj1 (proj2 (@formatDistance_label plain_host)) 2.46%float
                (default (0, 1) (exact_value 2.46)) eq_refl eq_refl eq_refl)
      as (whole & tenth & Hk & _ & Hunique & Hlabel).
    assert (Hn : 25 = Z.of_N (tenth + 10 * whole))
      by (apply Hunique; vm_compute; split; [discriminate|reflexivity]).
    assert (whole = 2%N ∧ tenth = 5%N) as [-> ->] by lia.
    exact Hlabel.
Defined.

(** C9, as stated, fails on a distance that is not a number: NaN is not
    below 0.1, and the label "NaN mi" is neither whole feet nor miles to
    one decimal place.  [fetchNearbyGasStations] produces such a distance
    for an element without a position. *)
Lemma formatDistance_label_of_NaN :
  ¬ (∀ (H : Host) (miles : float),
       ∃ label, formatDistance (VNum miles) = Normal label ∧
                (feetLabel_spec label ∨ milesLabel_spec label)).
Proof.
  intros claim.
  destruct (claim plain_host nan) as (label & Hlabel & Hspec).
  change (Normal "NaN mi" = Normal label) in Hlabel.
  injection Hlabel as <-. destruct Hspec as [[n Hn]|Hmiles].
  - revert Hn. generalize (decimal n). intros s E.
    do 6 (destruct s as [|? s]; [discriminate E|];
          lazy beta iota delta [String.append] in E; injection E as _ E).
    destruct s; discriminate E.
  - destruct Hmiles as (whole & tenth & _ & Hw). revert Hw.
    generalize (digits_of_N whole), (digits_of_N tenth +:+ " mi").
    intros s t E.
    do 6 (destruct s as [|? s]; [discriminate E|];
          lazy beta iota delta [String.append] in E; injection E as _ E).
    destruct s; discriminate E.
Qed.

End PresentationFormattersExamples.

(* ================================================================== *)
(** * Further properties                                               *)
(* ================================================================== *)

(** ** More binary64 arithmetic *)

Section MoreFloatFacts.

Lemma is_nan_eq x : PrimFloat.is_nan x = true → x = nan.
Proof.
  intros Hx%is_nan_Prim2SF. apply Prim2SF_inj. now rewrite Hx.
Qed.

Lemma sub_nan_r x : (x - nan)%float = nan.
Proof.
  apply Prim2SF_inj. rewrite sub_spec, Prim2SF_nan.
  destruct (Prim2SF x); reflexivity.
Qed.

Lemma add_nan_r x : (x + nan)%float = nan.
Proof.
  apply Prim2SF_inj. rewrite add_spec, Prim2SF_nan.
  destruct (Prim2SF x); reflexivity.
Qed.

(** Finite values: zeros and finite non-zero numbers. *)
Lemma is_finite_Prim2SF x :
  PrimFloat.is_finite x = true →
  (∃ s, Prim2SF x = S754_zero s) ∨ (∃ s m e, Prim2SF x = S754_finite s m e).
Proof.
  unfold PrimFloat.is_finite, PrimFloat.is_infinity.
  intros [Hn Hi]%negb_true_iff%orb_false_iff.
  apply not_nan_Prim2SF in Hn.
  rewrite FloatAxioms.eqb_spec, abs_spec in Hi.
  destruct (Prim2SF x) as [s|s| |s m e]; eauto; try congruence.
  discriminate Hi.
Qed.

(** The difference of a finite value with itself is +0. *)
Lemma sub_diag x : PrimFloat.is_finite x = true → (x - x)%float = 0%float.
Proof.
  intros Hx. apply Prim2SF_inj. rewrite sub_spec.
  change (Prim2SF 0) with (S754_zero false).
  destruct (is_finite_Prim2SF x Hx) as [[s ->]|(s & m & e & ->)].
  - destruct s; reflexivity.
  - cbn [SF64sub SFsub]. rewrite Z.sub_diag. reflexivity.
Qed.

(** A finite value times a zero is a zero. *)
Lemma mul_zero_r x z sz :
  PrimFloat.is_finite x = true → Prim2SF z = S754_zero sz →
  ∃ s, Prim2SF (x * z) = S754_zero s.
Proof.
  intros Hx Hz. rewrite mul_spec, Hz.
  destruct (is_finite_Prim2SF x Hx) as [[s ->]|(s & m & e & ->)];
    eexists; reflexivity.
Qed.

Lemma is_finite_zero z s : Prim2SF z = S754_zero s → PrimFloat.is_finite z = true.
Proof.
  intros Hz. unfold PrimFloat.is_finite, PrimFloat.is_infinity.
  apply negb_true_iff, orb_false_iff. split.
  - destruct (PrimFloat.is_nan z) eqn:E; [|reflexivity].
    apply is_nan_Prim2SF in E. congruence.
  - rewrite FloatAxioms.eqb_spec, abs_spec, Hz. reflexivity.
Qed.

Lemma add_zero_l z s : Prim2SF z = S754_zero s → (0 + z)%float = 0%float.
Proof.
  intros Hz. apply Prim2SF_inj. rewrite add_spec, Hz.
  change (Prim2SF 0) with (S754_zero false). destruct s; reflexivity.
Qed.

(** *** Products that stay finite *)

Lemma Zdigits2_bound m n : 0 <= m → m < 2 ^ n → 0 <= n → Zdigits2 m <= n.
Proof.
  destruct m as [|p|p]; cbn [Zdigits2]; try lia. intros _ Hm Hn.
  pose proof (digits2_pos_bounds p) as [Hlo _].
  assert (Hlt : 2 ^ (Z.pos (digits2_pos p) - 1) < 2 ^ n) by lia.
  apply Z.pow_lt_mono_r_iff in Hlt; lia.
Qed.

Lemma shr_fexp_spec m e l :
  0 <= m →
  let k := Z.max (fexp prec emax (Zdigits2 m + e) - e) 0 in
  shr_m (fst (shr_fexp prec emax m e l)) = m / 2 ^ k ∧
  snd (shr_fexp prec emax m e l) = e + k.
Proof.
  intros Hm. unfold shr_fexp, shr.
  destruct (fexp prec emax (Zdigits2 m + e) - e) as [|p|p]; cbn [fst snd Z.max Z.compare].
  - rewrite shr_m_of_loc. change (2 ^ 0) with 1. rewrite Z.div_1_r. lia.
  - rewrite shr_m_iter by (rewrite shr_m_of_loc; lia).
    rewrite shr_m_of_loc. split; reflexivity.
  - rewrite shr_m_of_loc. change (2 ^ 0) with 1. rewrite Z.div_1_r. lia.
Qed.

Lemma round_nearest_even_bounds m l :
  m <= round_nearest_even m l <= m + 1.
Proof.
  destruct l as [|[]]; cbn [round_nearest_even]; try destruct (Z.even m); lia.
Qed.

(** Rounding a magnitude below the largest finite value does not overflow. *)
Lemma binary_round_aux_finite s m e lo :
  0 < m → lo <= e → e <= emax - prec →
  m * 2 ^ (e - lo) < (2 ^ prec - 1) * 2 ^ (emax - prec - lo) →
  (∃ s', binary_round_aux prec emax s m e loc_Exact = S754_zero s') ∨
  (∃ s' m' e', binary_round_aux prec emax s m e loc_Exact = S754_finite s' m' e').
Proof.
  intros Hm Hlo He Hlt. unfold binary_round_aux.
  pose proof (shr_fexp_spec m e loc_Exact ltac:(lia)) as [Hm1 He1].
  destruct (shr_fexp prec emax m e loc_Exact) as [mrs1 e1]. cbn [fst snd] in *.
  set (k := Z.max (fexp prec emax (Zdigits2 m + e) - e) 0) in *.
  assert (Hk : 0 <= k) by lia.
  assert (P1 : 0 < 2 ^ k) by now apply pow2_pos.
  assert (P2 : 0 < 2 ^ (e - lo)) by (apply pow2_pos; lia).
  (* the magnitude stays below 2^emax *)
  assert (Hm_lt : m < 2 ^ (emax - e)).
  { apply (Z.mul_lt_mono_pos_r (2 ^ (e - lo))); [exact P2|].
    rewrite <- Z.pow_add_r by (unfold emax, prec in *; lia).
    replace (emax - e + (e - lo)) with (prec + (emax - prec - lo)) by lia.
    rewrite Z.pow_add_r by (unfold emax, prec in *; lia).
    assert (0 < 2 ^ (emax - prec - lo)) by (apply pow2_pos; unfold emax, prec in *; lia).
    nia. }
  assert (Hd : Zdigits2 m <= emax - e).
  { apply Zdigits2_bound; unfold emax, prec in *; lia. }
  assert (He1_le : e1 <= emax - prec).
  { rewrite He1. unfold k, fexp. unfold emin, emax, prec in *. lia. }
  clearbody k.
  assert (Hm1_lt : shr_m mrs1 < (2 ^ prec - 1) * 2 ^ (emax - prec - e1)).
  { rewrite Hm1. apply Z.div_lt_upper_bound; [exact P1|].
    apply (Z.mul_lt_mono_pos_r (2 ^ (e - lo))); [exact P2|].
    eapply Z.lt_le_trans; [exact Hlt|]. apply Z.eq_le_incl.
    replace (emax - prec - lo) with ((emax - prec - e1) + k + (e - lo))
      by (clear -He1; lia).
    rewrite (Z.pow_add_r 2 (emax - prec - e1 + k) (e - lo)) by lia.
    rewrite (Z.pow_add_r 2 (emax - prec - e1) k) by lia. ring. }
  assert (Hm1_pos : 0 <= shr_m mrs1).
  { rewrite Hm1. apply Z.div_pos; lia. }
  pose proof (round_nearest_even_bounds (shr_m mrs1) (loc_of_shr_record mrs1)) as Hr.
  set (m2 := round_nearest_even (shr_m mrs1) (loc_of_shr_record mrs1)) in *.
  assert (Hm2_lt : m2 < 2 ^ (emax - e1)).
  { replace (emax - e1) with (prec + (emax - prec - e1)) by lia.
    rewrite (Z.pow_add_r 2 prec (emax - prec - e1)) by (unfold prec in *; lia).
    assert (0 < 2 ^ (emax - prec - e1)) by (apply pow2_pos; lia).
    nia. }
  assert (Hd2 : Zdigits2 m2 <= emax - e1).
  { apply Zdigits2_bound; unfold emax, prec in *; lia. }
  pose proof (shr_fexp_spec m2 e1 loc_Exact ltac:(lia)) as [Hm3 He3].
  destruct (shr_fexp prec emax m2 e1 loc_Exact) as [mrs2 e2]. cbn [fst snd] in *.
  assert (He2_le : e2 <= emax - prec).
  { rewrite He3. unfold fexp. unfold emin, emax, prec in *. lia. }
  assert (Hm3_pos : 0 <= shr_m mrs2).
  { rewrite Hm3. apply Z.div_pos; [lia|]. apply pow2_pos. lia. }
  destruct (shr_m mrs2) as [|q|q]; [left; eauto| |lia].
  apply Z.leb_le in He2_le. rewrite He2_le. right; eauto.
Qed.


Lemma zero_or_finite_is_finite z :
  (∃ s, Prim2SF z = S754_zero s) ∨ (∃ s m e, Prim2SF z = S754_finite s m e) →
  PrimFloat.is_finite z = true.
Proof.
  intros Hz. unfold PrimFloat.is_finite, PrimFloat.is_infinity.
  apply negb_true_iff, orb_false_iff. split.
  - destruct (PrimFloat.is_nan z) eqn:E; [|reflexivity].
    apply is_nan_Prim2SF in E. destruct Hz as [[s Hz]|(s & m & e & Hz)]; congruence.
  - rewrite FloatAxioms.eqb_spec, abs_spec.
    destruct Hz as [[s ->]|(s & m & e & ->)]; reflexivity.
Qed.

Lemma ltb_true_ord x y : (x <? y)%float = true → ord x < ord y.
Proof.
  intros Hlt.
  destruct (PrimFloat.is_nan x) eqn:Hx.
  { apply is_nan_Prim2SF in Hx. rewrite FloatAxioms.ltb_spec, Hx in Hlt.
    discriminate Hlt. }
  destruct (PrimFloat.is_nan y) eqn:Hy.
  { apply is_nan_Prim2SF in Hy. rewrite FloatAxioms.ltb_spec, Hy in Hlt.
    destruct (Prim2SF x); discriminate Hlt. }
  rewrite ltb_ord in Hlt by assumption. now apply Z.ltb_lt.
Qed.

Lemma leb_true_ord x y : (x <=? y)%float = true → ord x <= ord y.
Proof.
  intros Hle.
  destruct (PrimFloat.is_nan x) eqn:Hx.
  { apply is_nan_Prim2SF in Hx. rewrite FloatAxioms.leb_spec, Hx in Hle.
    discriminate Hle. }
  destruct (PrimFloat.is_nan y) eqn:Hy.
  { apply is_nan_Prim2SF in Hy. rewrite FloatAxioms.leb_spec, Hy in Hle.
    destruct (Prim2SF x); discriminate Hle. }
  rewrite leb_ord in Hle by assumption. now apply Z.leb_le.
Qed.

Lemma ord_one : ord 1 = 2 ^ (- emin).
Proof. reflexivity. Qed.

Lemma abs_ltb_one_finite y :
  (abs y <? 1)%float = true → PrimFloat.is_finite y = true.
Proof.
  intros Hy. apply zero_or_finite_is_finite.
  rewrite FloatAxioms.ltb_spec, abs_spec in Hy.
  destruct (Prim2SF y) as [s|s| |s m e]; eauto; discriminate Hy.
Qed.

Lemma abs_leb_one_finite y :
  (abs y <=? 1)%float = true → PrimFloat.is_finite y = true.
Proof.
  intros Hy. apply zero_or_finite_is_finite.
  rewrite FloatAxioms.leb_spec, abs_spec in Hy.
  destruct (Prim2SF y) as [s|s| |s m e]; eauto; discriminate Hy.
Qed.

Lemma ord_abs_nonneg y : 0 <= ord (abs y).
Proof.
  unfold ord. rewrite abs_spec.
  destruct (Prim2SF y) as [s|s| |s m e]; cbn [SFabs SFord cond_Zopp]; lia.
Qed.

(** The largest magnitude of a finite value *)
Lemma ord_abs_finite x :
  PrimFloat.is_finite x = true →
  ord (abs x) <= (2 ^ prec - 1) * 2 ^ (emax - prec - emin).
Proof.
  intros Hx. pose proof (Prim2SF_valid x) as Vx.
  unfold ord. rewrite abs_spec.
  destruct (is_finite_Prim2SF x Hx) as [[sx Ex]|(sx & mx & ex & Ex)];
    rewrite Ex in *; cbn [SFabs SFord cond_Zopp].
  - unfold emin, emax, prec. cbn. lia.
  - cbn [valid_binary] in Vx.
    pose proof (bounded_inv _ _ Vx) as (Hex & Hdx & _).
    pose proof (digits2_pos_bounds mx) as [_ Hmx].
    assert (Hmx' : Z.pos mx < 2 ^ prec).
    { eapply Z.lt_le_trans; [exact Hmx|]. apply Z.pow_le_mono_r; lia. }
    apply Z.mul_le_mono_nonneg; [lia|lia|apply Z.lt_le_incl, pow2_pos; lia|].
    apply Z.pow_le_mono_r; lia.
Qed.

(** A product whose magnitude stays below the largest finite value, one
    factor being at most 1 in magnitude, is finite. *)
Lemma mul_is_finite x y :
  PrimFloat.is_finite x = true → PrimFloat.is_finite y = true →
  ord (abs y) <= 2 ^ (- emin) →
  ord (abs x) * ord (abs y) < (2 ^ prec - 1) * 2 ^ (emax - prec - 2 * emin) →
  PrimFloat.is_finite (x * y) = true.
Proof.
  intros Hx Hy Hone Hlt. apply zero_or_finite_is_finite.
  pose proof (Prim2SF_valid x) as Vx. pose proof (Prim2SF_valid y) as Vy.
  unfold ord in Hone, Hlt. rewrite !abs_spec in *. rewrite mul_spec.
  destruct (is_finite_Prim2SF x Hx) as [[sx Ex]|(sx & mx & ex & Ex)];
    destruct (is_finite_Prim2SF y Hy) as [[sy Ey]|(sy & my & ey & Ey)];
    rewrite Ex, Ey in *; try (left; eexists; reflexivity).
  cbn [SF64mul SFmul]. cbn [SFabs SFord cond_Zopp] in Hone, Hlt.
  cbn [valid_binary] in Vx, Vy.
  apply bounded_inv in Vx as (Hex & _). apply bounded_inv in Vy as (Hey & _).
  assert (Hey0 : ey <= 0).
  { assert (P : 0 < 2 ^ (ey - emin)) by (apply pow2_pos; lia).
    assert (Hp : 2 ^ (ey - emin) <= 2 ^ (- emin)) by nia.
    apply Z.pow_le_mono_r_iff in Hp; unfold emin, emax, prec in *; lia. }
  apply (binary_round_aux_finite _ _ _ (2 * emin)); [lia|lia|lia|].
  eapply Z.le_lt_trans; [|exact Hlt]. apply Z.eq_le_incl.
  replace (ex + ey - 2 * emin) with ((ex - emin) + (ey - emin)) by lia.
  rewrite (Z.pow_add_r 2 (ex - emin) (ey - emin)) by lia.
  rewrite Pos2Z.inj_mul. ring.
Qed.

Lemma largest_finite_scaled :
  (2 ^ prec - 1) * 2 ^ (emax - prec - 2 * emin) =
  (2 ^ prec - 1) * 2 ^ (emax - prec - emin) * 2 ^ (- emin).
Proof.
  replace (emax - prec - 2 * emin) with ((emax - prec - emin) + - emin) by lia.
  rewrite (Z.pow_add_r 2 (emax - prec - emin) (- emin))
    by (unfold emin, emax, prec; lia).
  ring.
Qed.

(** Scaling a finite value by a factor below 1 in magnitude *)
Lemma mul_small_is_finite x y :
  PrimFloat.is_finite x = true → (abs y <? 1)%float = true →
  PrimFloat.is_finite (x * y) = true.
Proof.
  intros Hx Hy. pose proof (abs_ltb_one_finite y Hy) as Hfy.
  apply ltb_true_ord in Hy. rewrite ord_one in Hy.
  pose proof (ord_abs_finite x Hx) as HX.
  pose proof (ord_abs_nonneg x) as HX0. pose proof (ord_abs_nonneg y) as HY0.
  apply mul_is_finite; [assumption|assumption|lia|].
  rewrite largest_finite_scaled.
  set (X := ord (abs x)) in *. set (Y := ord (abs y)) in *.
  set (B := (2 ^ prec - 1) * 2 ^ (emax - prec - emin)) in *.
  assert (0 < B) by (unfold B; reflexivity).
  set (N := 2 ^ (- emin)) in *. clearbody X Y B N. nia.
Qed.

(** The square of a value of magnitude at most 1 *)
Lemma square_is_finite c :
  (abs c <=? 1)%float = true → PrimFloat.is_finite (c * c) = true.
Proof.
  intros Hc. pose proof (abs_leb_one_finite c Hc) as Hfc.
  apply leb_true_ord in Hc. rewrite ord_one in Hc.
  pose proof (ord_abs_nonneg c) as HC0.
  apply mul_is_finite; [assumption|assumption|lia|].
  rewrite largest_finite_scaled.
  set (C := ord (abs c)) in *.
  set (B := (2 ^ prec - 1) * 2 ^ (emax - prec - emin)) in *.
  assert (2 ^ (- emin) < B) by (unfold B; reflexivity).
  set (N := 2 ^ (- emin)) in *.
  assert (0 < N) by (unfold N; reflexivity).
  clearbody C B N. nia.
Qed.

End MoreFloatFacts.

(** ** Distance Calculator: edge cases *)

Section DistanceEdgeCases.
Import JS.
Context `{Host}.

Lemma sin_nan : JS.sin nan = nan.
Proof. reflexivity. Qed.

(** Once the haversine term is NaN, so is the distance. *)
Lemma haversine_of_nan u : (3959 * (2 * JS.atan2 (JS.sqrt nan) u))%float = nan.
Proof.
  change (JS.sqrt nan) with nan. unfold JS.atan2.
  change (PrimFloat.is_nan nan) with true. cbn [orb].
  rewrite !mul_nan_r. reflexivity.
Qed.

Lemma half_sine_nan : JS.sin (nan * (PI / 180) / 2) = nan.
Proof. rewrite (mul_nan_l (PI / 180)), (div_nan_l 2). reflexivity. Qed.

Lemma calculateDistance_nan_lat a1 o1 a2 o2 :
  (a2 - a1)%float = nan →
  calculateDistance (VNum a1) (VNum o1) (VNum a2) (VNum o2) = Normal nan.
Proof.
  intros E. unfold calculateDistance, toRadians, js_sub. cbn [to_number]. run.
  cbv zeta. f_equal.
  rewrite E, half_sine_nan, (mul_nan_l nan), add_nan_l.
  apply haversine_of_nan.
Qed.

Lemma calculateDistance_nan_lon a1 o1 a2 o2 :
  (o2 - o1)%float = nan →
  calculateDistance (VNum a1) (VNum o1) (VNum a2) (VNum o2) = Normal nan.
Proof.
  intros E. unfold calculateDistance, toRadians, js_sub. cbn [to_number]. run.
  cbv zeta. f_equal.
  rewrite E, half_sine_nan, !mul_nan_r, add_nan_r.
  apply haversine_of_nan.
Qed.

Lemma calculateDistance_nan_arg a1 o1 a2 o2 :
  PrimFloat.is_nan a1 || PrimFloat.is_nan o1 ||
  PrimFloat.is_nan a2 || PrimFloat.is_nan o2 = true →
  calculateDistance (VNum a1) (VNum o1) (VNum a2) (VNum o2) = Normal nan.
Proof.
  intros Hnan.
  apply orb_true_iff in Hnan as [Hnan|E%is_nan_eq];
    [apply orb_true_iff in Hnan as [Hnan|E%is_nan_eq];
     [apply orb_true_iff in Hnan as [E%is_nan_eq|E%is_nan_eq]|]|].
  - apply calculateDistance_nan_lat. rewrite E. apply sub_nan_r.
  - apply calculateDistance_nan_lon. rewrite E. apply sub_nan_r.
  - apply calculateDistance_nan_lat. rewrite E. apply sub_nan_l.
  - apply calculateDistance_nan_lon. rewrite E. apply sub_nan_l.
Qed.

Lemma coercesToNaN_number v :
  convertible v = true →
  ∃ x, to_number v = Normal x ∧ PrimFloat.is_nan x = coercesToNaN v.
Proof.
  intros Hv. destruct (to_number_convertible _ Hv) as [x Hx].
  exists x. split; [exact Hx|]. unfold coercesToNaN. now rewrite Hx.
Qed.

(** Four arguments that convert, one of them to NaN, give NaN. *)
Lemma calculateDistance_coerced_nan lat1 lon1 lat2 lon2 :
  convertible lat1 && convertible lon1 && convertible lat2 && convertible lon2
    = true →
  coercesToNaN lat1 || coercesToNaN lon1 ||
  coercesToNaN lat2 || coercesToNaN lon2 = true →
  calculateDistance lat1 lon1 lat2 lon2 = Normal nan.
Proof.
  intros Hc Hnan.
  apply andb_true_iff in Hc as [Hc H4]. apply andb_true_iff in Hc as [Hc H3].
  apply andb_true_iff in Hc as [H1 H2].
  destruct (coercesToNaN_number _ H1) as (a1 & E1 & N1).
  destruct (coercesToNaN_number _ H2) as (o1 & E2 & N2).
  destruct (coercesToNaN_number _ H3) as (a2 & E3 & N3).
  destruct (coercesToNaN_number _ H4) as (o2 & E4 & N4).
  rewrite (calculateDistance_coerced _ _ _ _ _ _ _ _ E1 E2 E3 E4).
  apply calculateDistance_nan_arg. now rewrite N1, N2, N3, N4.
Qed.

(** X1.  A coordinate that is not a number makes the distance NaN: when
    the four arguments convert to Numbers and one of them converts to NaN
    ([undefined], a NaN, a plain object), [calculateDistance] returns NaN,
    whatever the other three are.  An argument that does not convert at
    all makes the call throw a TypeError instead. *)
Theorem calculateDistance_NaN_coordinate (lat1 lon1 lat2 lon2 : value) :
  (convertible lat1 && convertible lon1 && convertible lat2 && convertible lon2
     = true →
   coercesToNaN lat1 || coercesToNaN lon1 ||
   coercesToNaN lat2 || coercesToNaN lon2 = true →
   calculateDistance lat1 lon1 lat2 lon2 = Normal nan) ∧
  (convertible lat1 && convertible lon1 && convertible lat2 && convertible lon2
     = false →
   calculateDistance lat1 lon1 lat2 lon2 = Throw TypeError).
Proof.
  split.
  - apply calculateDistance_coerced_nan.
  - apply calculateDistance_unconvertible.
Qed.

Lemma is_finite_not_nan x : PrimFloat.is_finite x = true → PrimFloat.is_nan x = false.
Proof.
  unfold PrimFloat.is_finite. now intros [Hn _]%negb_true_iff%orb_false_iff.
Qed.

(** Degrees within the finite range convert to finite radians. *)
Lemma radians_finite x :
  PrimFloat.is_finite x = true →
  PrimFloat.is_finite (x * (PI / 180)) = true.
Proof. intros Hx. now apply mul_small_is_finite. Qed.

(** X2.  The distance from a point to itself is exactly 0, for every
    latitude and longitude that convert to finite Numbers, on a platform
    whose [Math.sin] maps +0 to +0, whose [Math.atan2(+0, 1)] is +0 (both
    fixed by ECMAScript) and whose [Math.cos] stays within [-1, 1] on
    finite arguments. *)
Theorem calculateDistance_same_point (lat lon : value) (x y : float) :
  sin_approx 0 = 0%float →
  atan2_approx 0 1 = 0%float →
  (∀ x, PrimFloat.is_finite x = true → (abs (cos_approx x) <=? 1)%float = true) →
  to_number lat = Normal x →
  to_number lon = Normal y →
  PrimFloat.is_finite x = true →
  PrimFloat.is_finite y = true →
  calculateDistance lat lon lat lon = Normal 0%float.
Proof.
  intros Hsin Hatan Hcos Ex Ey Hlat Hlon.
  rewrite (calculateDistance_coerced _ _ _ _ _ _ _ _ Ex Ey Ex Ey).
  unfold calculateDistance, toRadians, js_sub. cbn [to_number]. run.
  cbv zeta. f_equal.
  rewrite !sub_diag by assumption.
  change (0 * (PI / 180) / 2)%float with 0%float.
  replace (JS.sin 0) with 0%float by (symmetry; exact Hsin).
  pose proof (radians_finite x Hlat) as Hrad.
  unfold JS.cos. rewrite (is_finite_not_nan _ Hrad).
  pose proof (square_is_finite _ (Hcos _ Hrad)) as Hsq.
  set (c := cos_approx (x * (PI / 180))) in *.
  destruct (mul_zero_r (c * c) 0 false Hsq eq_refl) as [s1 E1].
  destruct (mul_zero_r (c * c * 0) 0 false (is_finite_zero _ _ E1) eq_refl)
    as [s2 E2].
  change (0 * 0)%float with 0%float.
  rewrite (add_zero_l _ _ E2).
  change (JS.sqrt 0) with 0%float. change (JS.sqrt (1 - 0)) with 1%float.
  unfold JS.atan2. change (PrimFloat.is_nan 0 || PrimFloat.is_nan 1) with false.
  cbv iota. rewrite Hatan. reflexivity.
Qed.

End DistanceEdgeCases.

Section DistanceEdgeCasesExamples.
Import JS.

Lemma calculateDistance_NaN_coordinate_witness :
  @calculateDistance plain_host (VNum 40.7) VUndef (VNum 41) (VNum (-73))
    = Normal nan ∧
  @calculateDistance plain_host VUndef (VNum 0)
      (VObj {[ "toString" := VNum 1 ]}) (VNum 0)
    = Throw TypeError.
Proof.
  split.
  - apply (proj1 (@calculateDistance_NaN_coordinate plain_host
                    (VNum 40.7) VUndef (VNum 41) (VNum (-73)))); reflexivity.
  - apply (proj2 (@calculateDistance_NaN_coordinate plain_host
                    VUndef (VNum 0) (VObj {[ "toString" := VNum 1 ]}) (VNum 0))).
    reflexivity.
Defined.

Lemma calculateDistance_same_point_witness :
  @calculateDistance plain_host (VNum 40.7) (VNum (-74)) (VNum 40.7) (VNum (-74))
  = Normal 0%float.
Proof.
  apply (@calculateDistance_same_point plain_host _ _ 40.7%float (-74)%float);
    reflexivity.
Defined.

End DistanceEdgeCasesExamples.

(** ** Station Fetcher: what a station carries *)

Section StationRecords.
Import JS.
Context `{Host}.

Lemma or_else_truthy a b : truthy b = true → truthy (or_else a b) = true.
Proof. intros Hb. unfold or_else. now destruct (truthy a) eqn:Ha. Qed.

(** X3.  Every station has a display name: the element's [tags.name] when
    that is truthy, else its [tags.brand] when that is truthy, else the
    literal "Gas Station"; so the name is never [undefined] or empty, even
    for an element without tags. *)
Theorem toStation_name_never_blank (lat lng element : value) (st : Station.t) :
  toStation lat lng element = Normal st →
  Station.name st =
    or_else (field_opt (field element "tags") "name")
      (or_else (field_opt (field element "tags") "brand") (VStr "Gas Station")) ∧
  truthy (Station.name st) = true.
Proof.
  intros Hst. destruct (toStation_fields _ _ _ _ Hst) as (_ & Hname & _).
  split; [exact Hname|]. rewrite Hname. now do 2 apply or_else_truthy.
Qed.

End StationRecords.

Section StationRecordsExamples.
Import JS.

Lemma toStation_name_never_blank_witness :
  ∃ st,
    @toStation plain_host (VNum 40.7) (VNum (-74)) sample_node = Normal st ∧
    Station.name st = VStr "Gas Station" ∧
    truthy (Station.name st) = true.
Proof.
  eexists. split; [reflexivity|].
  destruct (@toStation_name_never_blank plain_host
              (VNum 40.7) (VNum (-74)) sample_node _ eq_refl) as [Hname Ht].
  split; [exact Hname | exact Ht].
Defined.

End StationRecordsExamples.

Section StationListProperties.
Import JS.
Context `{Host}.

(** X4.  One station per element: on a payload that can be read, the
    result holds exactly as many stations as the payload has elements, with
    the same ids; no element is dropped, whether it lies outside the radius
    or has no coordinates at all. *)
Theorem fetchNearbyGasStations_one_station_per_element
    fetch (lat lng radius : value) (request : request) (data : value)
    (elements : list value) :
  stationsRequest lat lng radius = Normal request →
  fetch request = FetchResolves true (JsonResolves data) →
  elementsOf data = Some elements →
  ∃ stations,
    fetchNearbyGasStations fetch lat lng radius = Fulfilled stations ∧
    length stations = length elements ∧
    Permutation (Station.id <$> stations) ((λ e, field e "id") <$> elements).
Proof.
  intros Hreq Hfetch Hel.
  destruct (fetchNearbyGasStations_maps _ _ _ _ _ _ _ Hreq Hfetch Hel)
    as (upstream & Hmap & Hs).
  exists (JS.sort byDistance upstream). split; [exact Hs|].
  pose proof (sort_Permutation byDistance upstream) as Hperm.
  assert (Hids : Station.id <$> upstream = (λ e, field e "id") <$> elements).
  { clear -Hmap. induction Hmap as [|e st l k Hst _ IH]; [reflexivity|].
    cbn [fmap list_fmap]. f_equal; [|exact IH].
    now destruct (toStation_fields _ _ _ _ Hst) as [-> _]. }
  split.
  - rewrite (Permutation_length Hperm). symmetry. exact (Forall2_length _ _ _ Hmap).
  - rewrite <- Hids. now apply fmap_Permutation.
Qed.

Lemma leb_refl x : PrimFloat.is_nan x = false → (x <=? x)%float = true.
Proof. intros Hx. rewrite leb_ord by assumption. apply Z.leb_refl. Qed.

(** The first station of the result is at most as far as every station. *)
Lemma fetchNearbyGasStations_head_closest fetch lat lng radius first rest :
  fetchNearbyGasStations fetch lat lng radius = Fulfilled (first :: rest) →
  Forall (λ s, PrimFloat.is_nan (Station.distance s) = false) (first :: rest) →
  Forall (distance_le first) (first :: rest).
Proof.
  intros Hfetch Hreal.
  destruct (fetchNearbyGasStations_sorts fetch lat lng radius) as [upstream Hs].
  rewrite Hs in Hfetch. injection Hfetch as Hsort.
  assert (Hup : Forall (λ s, PrimFloat.is_nan (Station.distance s) = false) upstream).
  { rewrite <- (sort_Permutation byDistance upstream). now rewrite Hsort. }
  pose proof (sort_byDistance_sorted upstream Hup) as Hsorted.
  rewrite Hsort in Hsorted.
  apply StronglySorted_inv in Hsorted as [_ Hrest].
  constructor; [|exact Hrest].
  apply leb_refl. now apply Forall_inv in Hreal.
Qed.

(** X5.  The nearest station is a closest one: when no distance is NaN,
    the station [findNearestStation] picks from the result of
    [fetchNearbyGasStations] is at most as far away as every station of the
    result. *)
Theorem nearest_station_is_closest {U : Type}
    fetch (lat lng radius : value) (stations : list Station.t)
    (userLocation : U) (nearest : Station.t) :
  fetchNearbyGasStations fetch lat lng radius = Fulfilled stations →
  Forall (λ s, PrimFloat.is_nan (Station.distance s) = false) stations →
  findNearestStation (Some stations) userLocation = Some nearest →
  Forall (distance_le nearest) stations.
Proof.
  intros Hfetch Hreal Hnearest.
  destruct stations as [|first rest]; [discriminate|].
  cbn in Hnearest. injection Hnearest as <-.
  exact (fetchNearbyGasStations_head_closest _ _ _ _ _ _ Hfetch Hreal).
Qed.

(** X6.  A station without a position is labelled "NaN mi": when the
    latitude or longitude of the query or of the station converts to NaN
    (an element with neither coordinates nor a centre gets [undefined]),
    the distance the station carries formats as "NaN mi". *)
Theorem station_without_position_reads_NaN_mi
    (lat lng element : value) (st : Station.t) :
  toStation lat lng element = Normal st →
  coercesToNaN lat || coercesToNaN lng ||
  coercesToNaN (Station.lat st) || coercesToNaN (Station.lng st) = true →
  formatDistance (VNum (Station.distance st)) = Normal "NaN mi".
Proof.
  intros Hst Hnan. destruct (toStation_position _ _ _ _ Hst) as (_ & _ & Hd).
  destruct (convertible lat && convertible lng &&
            convertible (Station.lat st) && convertible (Station.lng st)) eqn:Hc.
  - rewrite (calculateDistance_coerced_nan _ _ _ _ Hc Hnan) in Hd.
    injection Hd as <-. reflexivity.
  - rewrite (calculateDistance_unconvertible _ _ _ _ Hc) in Hd. discriminate Hd.
Qed.

End StationListProperties.

Section StationListExamples.
Import JS.

Lemma fetchNearbyGasStations_one_station_per_element_witness :
  ∃ stations,
    @fetchNearbyGasStations plain_host
      (answering (FetchResolves true (JsonResolves
         (overpass_response [sample_node; sample_element_without_position]))))
      (VNum 40.7) (VNum (-74)) (VNum 8000) = Fulfilled stations ∧
    length stations = 2%nat ∧
    Permutation (Station.id <$> stations) [VNum 1; VNum 2].
Proof.
  exact (@fetchNearbyGasStations_one_station_per_element plain_host
           (answering (FetchResolves true (JsonResolves
              (overpass_response [sample_node; sample_element_without_position]))))
           (VNum 40.7) (VNum (-74)) (VNum 8000) _ _ _ eq_refl eq_refl eq_refl).
Defined.

Lemma nearest_station_is_closest_witness :
  ∃ stations nearest,
    @fetchNearbyGasStations plain_host
      (answering (FetchResolves true (JsonResolves
         (overpass_response [sample_node; sample_near_node]))))
      (VNum 40.7) (VNum (-74)) (VNum 8000) = Fulfilled stations ∧
    findNearestStation (Some stations) sample_start = Some nearest ∧
    Station.id nearest = VNum 3 ∧
    Forall (distance_le nearest) stations.
Proof.
  eexists. eexists. split; [reflexivity|]. split; [reflexivity|].
  split; [reflexivity|].
  apply (@nearest_station_is_closest plain_host value
           (answering (FetchResolves true (JsonResolves
              (overpass_response [sample_node; sample_near_node]))))
           (VNum 40.7) (VNum (-74)) (VNum 8000) _ sample_start _ eq_refl);
    [|reflexivity].
  repeat constructor.
Defined.

Lemma station_without_position_reads_NaN_mi_witness :
  ∃ st,
    @toStation plain_host (VNum 40.7) (VNum (-74)) sample_element_without_position
      = Normal st ∧
    Station.lat st = VUndef ∧
    @formatDistance plain_host (VNum (Station.distance st)) = Normal "NaN mi".
Proof.
  eexists. split; [reflexivity|]. split; [reflexivity|].
  apply (@station_without_position_reads_NaN_mi plain_host
           (VNum 40.7) (VNum (-74)) sample_element_without_position _ eq_refl).
  reflexivity.
Defined.

End StationListExamples.

(** ** Address Formatter and Route Fetcher: edge cases *)

Section UtilityEdgeCases.
Import JS.
Context `{Host}.

Lemma join_length_ge sep p ps :
  (String.length p <= String.length (join sep (p :: ps)))%nat.
Proof.
  cbn [join]. revert p. induction ps as [|q ps IH]; intros p; cbn [foldl]; [lia|].
  etransitivity; [|apply IH]. rewrite !append_length. lia.
Qed.

Lemma nonempty_Some s t : nonempty s = Some t → t ≠ "".
Proof.
  unfold nonempty. destruct (String.eqb s "") eqn:E; [discriminate|].
  intros [= <-]. now apply String.eqb_neq.
Qed.

(** X7.  The formatted address is never the empty string: for tags with
    string values, [formatAddress] returns [null] or a string of at least
    one character. *)
Theorem formatAddress_never_empty (tags : option (gmap string string)) :
  formatAddress (tags_value tags) = Normal VNull ∨
  ∃ s, formatAddress (tags_value tags) = Normal (VStr s) ∧ s ≠ "".
Proof.
  destruct tags as [m|]; [|now left].
  rewrite formatAddress_object. unfold formatAddress_nonempty.
  destruct (omap (λ k, m !! k ≫= nonempty) addressKeys) as [|p ps] eqn:Hparts;
    [now left|].
  right. eexists. split; [reflexivity|].
  assert (Hp : p ≠ "").
  { assert (Hin : p ∈ omap (λ k, m !! k ≫= nonempty) addressKeys)
      by (rewrite Hparts; left).
    apply list_elem_of_omap in Hin as (k & _ & Hk).
    destruct (m !! k) as [v|]; [|discriminate]. exact (nonempty_Some _ _ Hk). }
  intros Hempty. pose proof (join_length_ge ", " p ps) as Hlen.
  rewrite Hempty in Hlen. destruct p; [congruence | cbn in Hlen; lia].
Qed.

(** X8.  A missing endpoint gives no route and no exception: when the start
    or the destination is [null] or [undefined], [fetchRoute] resolves to
    [null], whatever the network would answer. *)
Theorem fetchRoute_missing_endpoint fetch (start end_ : value) :
  is_nullish start || is_nullish end_ = true →
  fetchRoute fetch start end_ = Fulfilled None.
Proof.
  intros Hnull. apply fetchRoute_unreadable_endpoints.
  unfold endpointsReadable.
  destruct (is_nullish start); [reflexivity|].
  cbn [orb] in Hnull. rewrite Hnull. cbn [negb].
  now rewrite andb_false_r.
Qed.

End UtilityEdgeCases.

Section UtilityEdgeCasesExamples.
Import JS.

Lemma fetchRoute_missing_endpoint_witness :
  @fetchRoute plain_host
    (answering (FetchResolves true (JsonResolves (routing_response sample_route))))
    sample_start VNull = Fulfilled None.
Proof.
  apply (@fetchRoute_missing_endpoint plain_host). reflexivity.
Defined.

End UtilityEdgeCasesExamples.

(** ** The map component *)

Section MapComponentProperties.
Import JS.
Context `{Host}.

Lemma fetchNearbyGasStations_fulfils fetch lat lng radius :
  ∃ stations, fetchNearbyGasStations fetch lat lng radius = Fulfilled stations.
Proof.
  destruct (fetchNearbyGasStations_sorts fetch lat lng radius) as [u Hu]. eauto.
Qed.

Lemma fetchRoute_fulfils fetch start end_ :
  ∃ route, fetchRoute fetch start end_ = Fulfilled route.
Proof.
  unfold fetchRoute. destruct (fetchRoute_try fetch start end_); eauto.
Qed.

(** A step that returns hands its value on. *)
Lemma step_bind {A B} (a : A) (f : A → Run.t B) : step (Normal a) ≫= f = f a.
Proof. unfold mbind, run_bind. cbn. now destruct (f a). Qed.

(** The setter calls of a refresh, for a location that can be read: the
    list, and then the first station of a list that is not empty. *)
Lemma updateNearest_calls fetch userLocation stations :
  is_nullish userLocation = false →
  fetchNearbyGasStations fetch (field userLocation "lat") (field userLocation "lng")
    (VNum 8000) = Fulfilled stations →
  ∃ route,
    (∀ nearest rest, stations = nearest :: rest →
       fetchRoute fetch userLocation (stationObject nearest) = Fulfilled route) ∧
    updateNearest fetch userLocation =
    {| Run.calls :=
         setGasStations stations ::
         match stations with
         | [] => []
         | nearest :: _ =>
             [setNearestStation
                {| Nearest.station := nearest;
                   Nearest.route := Route.coordinates <$> route;
                   Nearest.duration := Route.duration <$> route |}]
         end;
       Run.completion := Normal tt |}.
Proof.
  intros Hu Hst. unfold updateNearest.
  rewrite !(get_field userLocation) by assumption. rewrite !step_bind, Hst.
  cbn [await]. rewrite step_bind.
  destruct stations as [|nearest rest].
  - exists None. split; [discriminate|]. reflexivity.
  - destruct (fetchRoute_fulfils fetch userLocation (stationObject nearest))
      as [route Hroute].
    exists route. split; [now intros ? ? [= <- <-]|].
    cbn [length Nat.ltb Nat.leb findNearestStation Nat.eqb lookup list_lookup].
    rewrite Hroute. reflexivity.
Qed.

(** A refresh without a location calls no setter and throws. *)
Lemma updateNearest_without_location fetch userLocation :
  is_nullish userLocation = true →
  updateNearest fetch userLocation =
  {| Run.calls := []; Run.completion := Throw TypeError |}.
Proof.
  intros Hu. unfold updateNearest. now rewrite (get_nullish "lat" Hu).
Qed.

(** The first fetch makes the calls of a refresh and then marks the
    fetcher initialised. *)
Lemma fetchStations_as_updateNearest fetch userLocation :
  fetchStations fetch userLocation =
  (updateNearest fetch userLocation;; calling (setHasInitialized true)).
Proof.
  unfold fetchStations, updateNearest.
  destruct (get userLocation "lat") as [lat|]; [rewrite !step_bind|reflexivity].
  destruct (get userLocation "lng") as [lng|]; [rewrite !step_bind|reflexivity].
  destruct (fetchNearbyGasStations fetch lat lng (VNum 8000)) as [stations|];
    cbn [await]; [rewrite !step_bind|reflexivity].
  destruct (0 <? length stations)%nat; [|reflexivity].
  destruct (findNearestStation (Some stations) userLocation) as [nearest|];
    [|reflexivity].
  destruct (fetchRoute fetch userLocation (stationObject nearest)) as [route|];
    reflexivity.
Qed.

(** X9.  A refresh rejects only without a location: the promises of
    [updateNearest] and [fetchStations] are rejected exactly when
    [userLocation] is [null] or [undefined], and then before any setter is
    called; no answer of the network makes them reject. *)
Theorem refresh_rejects_iff_no_location fetch (userLocation : value) :
  ((∃ e, async (Run.completion (updateNearest fetch userLocation)) = Rejected e) ↔
   is_nullish userLocation = true) ∧
  ((∃ e, async (Run.completion (fetchStations fetch userLocation)) = Rejected e) ↔
   is_nullish userLocation = true) ∧
  (is_nullish userLocation = true →
   Run.calls (updateNearest fetch userLocation) = [] ∧
   Run.calls (fetchStations fetch userLocation) = []).
Proof.
  rewrite fetchStations_as_updateNearest.
  destruct (is_nullish userLocation) eqn:Hu.
  - rewrite (updateNearest_without_location _ _ Hu).
    repeat split; try reflexivity; intros _; exists TypeError; reflexivity.
  - destruct (fetchNearbyGasStations_fulfils fetch (field userLocation "lat")
                (field userLocation "lng") (VNum 8000)) as [stations Hst].
    destruct (updateNearest_calls fetch userLocation stations Hu Hst)
      as (route & _ & ->).
    repeat split; try discriminate; intros [e He]; discriminate He.
Qed.

(** X10.  A refresh that found stations makes exactly two setter calls, in
    this order: [setGasStations] with the list, and, one routing round trip
    later, [setNearestStation] with the first station of that list, extended
    by the coordinates and the duration of the route ([undefined] without a
    route).  Until the second call the nearest station stored before stays
    in place.  Once it has been made, the nearest-only view displays the
    stored object itself, with its route and duration; and in a state that
    still holds the list of this refresh, that object is the first station
    of the list, and no listed station is closer when no distance is NaN. *)
Theorem refresh_highlights_a_closest_station fetch (userLocation : value)
    (first : Station.t) (rest : list Station.t) :
  is_nullish userLocation = false →
  fetchNearbyGasStations fetch (field userLocation "lat") (field userLocation "lng")
    (VNum 8000) = Fulfilled (first :: rest) →
  ∃ route nearest,
    fetchRoute fetch userLocation (stationObject first) = Fulfilled route ∧
    nearest = {| Nearest.station := first;
                 Nearest.route := Route.coordinates <$> route;
                 Nearest.duration := Route.duration <$> route |} ∧
    updateNearest fetch userLocation =
    {| Run.calls := [setGasStations (first :: rest); setNearestStation nearest];
       Run.completion := Normal tt |} ∧
    (∀ state,
       MapState.nearestStation (afterCall state (setGasStations (first :: rest)))
       = MapState.nearestStation state) ∧
    (∀ state,
       let state' := afterCall state (setNearestStation nearest) in
       displayedStations false (MapState.gasStations state')
         (MapState.nearestStation state') = [nearest] ∧
       (MapState.gasStations state = first :: rest →
        head (MapState.gasStations state') = Some (Nearest.station nearest) ∧
        (Forall (λ s, PrimFloat.is_nan (Station.distance s) = false)
           (MapState.gasStations state') →
         Forall (distance_le (Nearest.station nearest))
           (MapState.gasStations state')))).
Proof.
  intros Hu Hst.
  destruct (updateNearest_calls fetch userLocation _ Hu Hst)
    as (route & Hroute & Hcalls).
  exists route. eexists. split; [exact (Hroute _ _ eq_refl)|].
  split; [reflexivity|]. split; [exact Hcalls|]. split; [reflexivity|].
  intros state state'. split; [reflexivity|].
  intros Hlist. subst state'. cbn [afterCall MapState.gasStations Nearest.station].
  rewrite Hlist. split; [reflexivity|].
  exact (fetchNearbyGasStations_head_closest _ _ _ _ _ _ Hst).
Qed.

(** X11.  A failed refresh empties the list but keeps the highlight: when
    the station query cannot be built or the station request fails
    (rejected, status not ok, body unparsable or unreadable),
    [updateNearest] makes one setter call, [setGasStations([])], and so
    leaves the nearest station stored before in place. *)
Theorem failed_refresh_keeps_stale_nearest fetch (userLocation : value) :
  is_nullish userLocation = false →
  queryReadable (field userLocation "lat") (field userLocation "lng") (VNum 8000)
    = false ∨
  (∃ request,
     stationsRequest (field userLocation "lat") (field userLocation "lng")
       (VNum 8000) = Normal request ∧
     stationsFailure (fetch request)) →
  updateNearest fetch userLocation =
  {| Run.calls := [setGasStations []]; Run.completion := Normal tt |} ∧
  ∀ state,
    afterCalls state (Run.calls (updateNearest fetch userLocation)) =
    {| MapState.gasStations := [];
       MapState.nearestStation := MapState.nearestStation state;
       MapState.hasInitialized := MapState.hasInitialized state |}.
Proof.
  intros Hu Hfail.
  assert (Hst : fetchNearbyGasStations fetch (field userLocation "lat")
                  (field userLocation "lng") (VNum 8000) = Fulfilled []).
  { destruct Hfail as [Hq|(request & Hreq & Hf)].
    - now apply fetchNearbyGasStations_unreadable.
    - now apply (fetchNearbyGasStations_failure _ _ _ _ request). }
  destruct (updateNearest_calls fetch userLocation [] Hu Hst)
    as (route & _ & Hcalls).
  rewrite Hcalls. split; reflexivity.
Qed.

(** Calls other than [setHasInitialized] leave the flag alone. *)
Lemma afterCalls_keeps_flag calls state :
  Forall (λ c, ∀ b, c ≠ setHasInitialized b) calls →
  MapState.hasInitialized (afterCalls state calls) = MapState.hasInitialized state.
Proof.
  intros Hcalls. revert state.
  induction Hcalls as [|c calls Hc _ IH]; intros state; [reflexivity|].
  cbn [afterCalls foldl]. fold (afterCalls (afterCall state c) calls).
  rewrite IH. destruct c; try reflexivity. now contradiction (Hc initialized).
Qed.

(** X12.  The first effect never rejects, and it does nothing without a
    location or once the fetcher is initialised.  Otherwise
    [setHasInitialized(true)] is the last setter call of its run, made
    after both network round trips: at every earlier point of the run the
    flag is as it was, so an effect that runs again in between (the user
    location has changed) starts another fetch. *)
Theorem initialEffect_marks_initialized_last fetch (userLocation : value)
    (hasInitialized : bool) :
  Run.completion (initialEffect fetch userLocation hasInitialized) = Normal tt ∧
  (truthy userLocation = false ∨ hasInitialized = true →
   Run.calls (initialEffect fetch userLocation hasInitialized) = []) ∧
  (truthy userLocation = true → hasInitialized = false →
   ∃ stored,
     Run.calls (initialEffect fetch userLocation hasInitialized) =
     stored ++ [setHasInitialized true] ∧
     Forall (λ c, ∀ b, c ≠ setHasInitialized b) stored ∧
     ∀ state before later,
       stored = before ++ later →
       MapState.hasInitialized (afterCalls state before)
       = MapState.hasInitialized state ∧
       ∀ fetch' userLocation',
         MapState.hasInitialized state = false →
         truthy userLocation' = true →
         initialEffect fetch' userLocation'
           (MapState.hasInitialized (afterCalls state before))
         = fetchStations fetch' userLocation').
Proof.
  unfold initialEffect at 1 2 3.
  destruct (truthy userLocation) eqn:Hu;
    [|split; [reflexivity|]; split; [reflexivity|discriminate]].
  destruct hasInitialized;
    [split; [reflexivity|]; split; [reflexivity|discriminate]|].
  cbn [negb orb].
  pose proof (truthy_not_nullish _ Hu) as Hnn.
  destruct (fetchNearbyGasStations_fulfils fetch (field userLocation "lat")
              (field userLocation "lng") (VNum 8000)) as [stations Hst].
  destruct (updateNearest_calls fetch userLocation stations Hnn Hst)
    as (route & _ & Hcalls).
  rewrite fetchStations_as_updateNearest, Hcalls.
  split; [reflexivity|]. split; [now intros [|]|]. intros _ _.
  set (stored := setGasStations stations :: _).
  exists stored. split; [reflexivity|].
  assert (Hstored : Forall (λ c, ∀ b, c ≠ setHasInitialized b) stored).
  { unfold stored. destruct stations; repeat constructor; discriminate. }
  split; [exact Hstored|].
  intros state before later Hsplit.
  rewrite Hsplit in Hstored. apply Forall_app in Hstored as [Hbefore _].
  rewrite (afterCalls_keeps_flag _ _ Hbefore). split; [reflexivity|].
  intros fetch' userLocation' Hflag Hu'. unfold initialEffect.
  now rewrite Hflag, Hu'.
Qed.

End MapComponentProperties.

Section MapComponentExamples.
Import JS.

Lemma refresh_highlights_a_closest_station_witness :
  ∃ first rest nearest,
    @updateNearest plain_host
      (overpassAnswering
         (FetchResolves true (JsonResolves
            (overpass_response [sample_node; sample_near_node])))
         (FetchResolves true (JsonResolves (routing_response sample_route))))
      sample_start =
    {| Run.calls := [setGasStations (first :: rest); setNearestStation nearest];
       Run.completion := Normal tt |} ∧
    Station.id <$> first :: rest = [VNum 3; VNum 1] ∧
    Nearest.station nearest = first ∧
    Nearest.duration nearest = Some 120%float.
Proof.
  set (fetch := overpassAnswering
         (FetchResolves true (JsonResolves
            (overpass_response [sample_node; sample_near_node])))
         (FetchResolves true (JsonResolves (routing_response sample_route)))).
  set (stations :=
         match @fetchNearbyGasStations plain_host fetch
                 (VNum 40.7) (VNum (-74)) (VNum 8000) with
         | Fulfilled l => l
         | Rejected _ => []
         end).
  set (first := match stations with
                | s :: _ => s
                | [] => Nearest.station sample_nearest
                end).
  assert (Hst : @fetchNearbyGasStations plain_host fetch
                  (field sample_start "lat") (field sample_start "lng") (VNum 8000)
                = Fulfilled (first :: tail stations)) by reflexivity.
  destruct (@refresh_highlights_a_closest_station plain_host fetch sample_start
              first (tail stations) eq_refl Hst)
    as (route & nearest & Hroute & Hnearest & Hcalls & _).
  exists first, (tail stations), nearest.
  split; [exact Hcalls|]. split; [reflexivity|].
  assert (Hr : route = match @fetchRoute plain_host fetch sample_start
                               (stationObject first) with
                       | Fulfilled r => r
                       | Rejected _ => None
                       end) by now rewrite Hroute.
  rewrite Hnearest, Hr. split; reflexivity.
Defined.

Lemma failed_refresh_keeps_stale_nearest_witness :
  @updateNearest plain_host (answering FetchRejects) sample_start =
  {| Run.calls := [setGasStations []]; Run.completion := Normal tt |} ∧
  afterCalls
    {| MapState.gasStations := [Nearest.station sample_nearest];
       MapState.nearestStation := Some sample_nearest;
       MapState.hasInitialized := true |}
    (Run.calls (@updateNearest plain_host (answering FetchRejects) sample_start)) =
  {| MapState.gasStations := [];
     MapState.nearestStation := Some sample_nearest;
     MapState.hasInitialized := true |}.
Proof.
  destruct (@failed_refresh_keeps_stale_nearest plain_host
              (answering FetchRejects) sample_start eq_refl
              (or_intror (ex_intro _ _ (conj eq_refl stations_request_rejected))))
    as [Hcalls Hstate].
  split; [exact Hcalls | apply Hstate].
Defined.

End MapComponentExamples.

(** ** The exhaust trail *)

Section ExhaustTrail.

Lemma slice_last_reverse {A} n (l : list A) :
  slice_last n (reverse l) = reverse (take n l).
Proof.
  unfold slice_last. now rewrite reverse_take, length_reverse.
Qed.

Lemma take_imap {A B} (f : nat → A → B) n l :
  take n (imap f l) = imap f (take n l).
Proof.
  revert f n. induction l as [|x l IH]; intros f [|n]; try reflexivity.
  cbn [take imap]. f_equal. apply IH.
Qed.

Lemma filter_all {A} (f : A → bool) (l : list A) :
  Forall (λ x, f x = true) l → List.filter f l = l.
Proof.
  induction 1 as [|x l Hx _ IH]; [reflexivity|].
  cbn [List.filter]. now rewrite Hx, IH.
Qed.

(** A puff stays visible through its first five firings. *)
Lemma agedPuff_visible k now : (k <= 5)%nat → visible (agedPuff k now).
Proof.
  intros Hk. do 6 (destruct k as [|k]; [reflexivity|]). lia.
Qed.

(** One firing on a trail that holds the puffs of [recent], newest first
    in [recent]. *)
Lemma updateExhaustPuffs_aged now recent :
  (length recent <= 5)%nat →
  updateExhaustPuffs now (reverse (imap agedPuff recent)) =
  reverse (imap agedPuff (take 5 (now :: recent))).
Proof.
  intros Hlen. unfold updateExhaustPuffs. cbv zeta.
  rewrite map_as_fmap, fmap_reverse, fmap_imap.
  rewrite (imap_ext _ (agedPuff ∘ S)) by reflexivity.
  rewrite filter_all.
  2:{ apply Forall_reverse, Forall_forall. intros puff Hin.
      apply elem_of_lookup_imap in Hin as (i & t & -> & Hi).
      apply lookup_lt_Some in Hi. apply (agedPuff_visible (S i) t). lia. }
  change ({| Puff.id := now; Puff.left := -10; Puff.opacity := 0.8 |})
    with (agedPuff 0 now).
  rewrite <- reverse_cons, <- (imap_cons agedPuff).
  now rewrite slice_last_reverse, take_imap.
Qed.

(** X13.  The trail is the puffs of the last five firings: after the
    interval has fired at the given times, the trail holds, oldest first,
    one puff per firing among the five most recent, the puff of the k-th
    most recent firing shifted and faded exactly k times.  A puff therefore
    never fades out; it is cut off by the limit of five while its opacity is
    still positive. *)
Theorem exhaustTrail_last_five_firings (ticks : list float) :
  exhaustTrail ticks = reverse (imap agedPuff (take 5 (reverse ticks))) ∧
  Puff.id <$> exhaustTrail ticks = slice_last 5 ticks ∧
  Forall visible (exhaustTrail ticks).
Proof.
  assert (Htrail : exhaustTrail ticks
                   = reverse (imap agedPuff (take 5 (reverse ticks)))).
  { induction ticks as [|t ticks IH] using rev_ind; [reflexivity|].
    unfold exhaustTrail in *. rewrite foldl_snoc, IH.
    rewrite updateExhaustPuffs_aged by (rewrite length_take; lia).
    rewrite reverse_snoc. do 2 f_equal.
    cbn [take]. f_equal. rewrite take_take. reflexivity. }
  split; [exact Htrail|]. rewrite Htrail. split.
  - rewrite fmap_reverse, fmap_imap.
    rewrite (imap_ext _ (λ _ t, t)) by reflexivity.
    rewrite <- (reverse_involutive ticks) at 2.
    rewrite slice_last_reverse. f_equal.
    generalize (take 5 (reverse ticks)). intros l.
    change (λ (_ : nat) (t : float), t) with (@const (float → float) nat id).
    now rewrite imap_const, list_fmap_id.
  - apply Forall_reverse, Forall_forall. intros puff Hin.
    apply elem_of_lookup_imap in Hin as (i & t & -> & Hi).
    apply lookup_lt_Some in Hi. rewrite length_take in Hi.
    apply agedPuff_visible. lia.
Qed.

(** X14.  Whatever the trail was, one firing leaves between one and five
    puffs, at most one more than before, all of them visible, the new puff
    last. *)
Theorem updateExhaustPuffs_bounds (now : float) (prev : list Puff.t) :
  (1 <= length (updateExhaustPuffs now prev) <= 5)%nat ∧
  (length (updateExhaustPuffs now prev) <= S (length prev))%nat ∧
  last (updateExhaustPuffs now prev) =
    Some {| Puff.id := now; Puff.left := (-10)%float; Puff.opacity := 0.8%float |} ∧
  Forall visible (updateExhaustPuffs now prev).
Proof.
  unfold updateExhaustPuffs, slice_last. cbv zeta.
  set (newPuff := {| Puff.id := now; Puff.left := _; Puff.opacity := _ |}).
  set (updated := List.filter _ _).
  assert (Hupdated : (length updated <= length prev)%nat).
  { unfold updated. etransitivity; [apply List.filter_length_le|].
    now rewrite length_map. }
  rewrite length_drop, length_app. cbn [length].
  split; [lia|]. split; [lia|]. split.
  - rewrite <- head_reverse, reverse_drop, reverse_snoc, length_app.
    cbn [length].
    replace (length updated + 1 - (length updated + 1 - 5))%nat
      with (S (Nat.min (length updated) 4)) by lia.
    reflexivity.
  - apply Forall_drop, Forall_app. split.
    + apply Forall_forall. intros puff Hin. unfold updated in Hin.
      apply list_elem_of_In, List.filter_In in Hin as [_ Hvis]. exact Hvis.
    + constructor; [reflexivity|constructor].
Qed.

End ExhaustTrail.

(** ** The page component *)

Section PageProperties.
Import JS.
Context `{Host}.


(** X16.  A position Nominatim cannot resolve leaves the address as it
    was: a body that is an object without a truthy [address] changes
    nothing, and the HTTP status of the response is not consulted.  (For
    coordinates that do not print, no request is made and the address
    becomes "Unknown location".) *)
Theorem reverseGeocode_without_address_keeps_current
    (ok : bool) (data lat lng currentAddress : value) :
  is_nullish data = false →
  truthy (field data "address") = false →
  reverseGeocode (answering (FetchResolves ok (JsonResolves data)))
    lat lng currentAddress =
  Fulfilled (if convertible lat && convertible lng then currentAddress
             else VStr "Unknown location").
Proof.
  intros Hdata Haddress.
  unfold reverseGeocode, reverseGeocode_try, nominatimUrl, answering.
  destruct (convertible lat) eqn:Hlat;
    [|now rewrite (to_string_unconvertible _ Hlat)].
  destruct (to_string_convertible _ Hlat) as [slat ->]. run.
  destruct (convertible lng) eqn:Hlng;
    [|now rewrite (to_string_unconvertible _ Hlng)].
  destruct (to_string_convertible _ Hlng) as [slng ->]. run.
  rewrite (get_field data) by assumption. run. now rewrite Haddress.
Qed.

End PageProperties.

Section PageExamples.
Import JS.


Lemma reverseGeocode_without_address_keeps_current_witness :
  @reverseGeocode plain_host
    (answering (FetchResolves false (JsonResolves nominatim_error)))
    (VNum 0) (VNum 0) (VStr "Locating...") = Fulfilled (VStr "Locating...").
Proof.
  apply (@reverseGeocode_without_address_keeps_current plain_host); reflexivity.
Defined.

End PageExamples.

Section PageCallbackProperties.
Import JS.
Context `{Host}.

(** X17.  Once geolocation has answered, the map is shown and its station
    fetches cannot reject: after the error callback, and after a success
    callback that could read the position, loading is over and the stored
    location is an object, so the page mounts the map, and neither
    [fetchStations] nor [updateNearest] rejects on that location. *)
Theorem geolocation_answer_mounts_map fetch (position : value)
    (state state' : PageState.t) :
  state' = error_ state ∨ success fetch position state = Normal state' →
  mapMounted state' = true ∧
  ∀ fetch',
    async (Run.completion (fetchStations fetch' (PageState.userLocation state')))
      = Fulfilled tt ∧
    async (Run.completion (updateNearest fetch' (PageState.userLocation state')))
      = Fulfilled tt.
Proof.
  intros Hanswer.
  assert (Hlocation : ∃ lat lng,
            PageState.userLocation state' = locationObject lat lng ∧
            PageState.isLoading state' = false).
  { destruct Hanswer as [->|Hsuccess]; [now eexists _, _|].
    unfold success in Hsuccess.
    destruct (get position "coords") as [coords|]; [|discriminate].
    revert Hsuccess. run.
    destruct (get coords "latitude") as [latitude|]; [|discriminate]. run.
    destruct (get coords "longitude") as [longitude|]; [|discriminate]. run.
    destruct (reverseGeocode fetch latitude longitude _) as [address|];
      [|discriminate].
    cbn [await]. run. intros [= <-]. now eexists _, _. }
  destruct Hlocation as (lat & lng & Hloc & Hloading).
  split; [unfold mapMounted; now rewrite Hloc, Hloading|].
  intros fetch'. rewrite Hloc.
  destruct (fetchNearbyGasStations_fulfils fetch'
              (field (locationObject lat lng) "lat")
              (field (locationObject lat lng) "lng") (VNum 8000))
    as [stations Hst].
  destruct (updateNearest_calls fetch' (locationObject lat lng)
              stations eq_refl Hst) as (route & _ & Hcalls).
  rewrite fetchStations_as_updateNearest, Hcalls. split; reflexivity.
Qed.

End PageCallbackProperties.

Section PageCallbackExamples.
Import JS.

Lemma geolocation_answer_mounts_map_witness :
  @mapMounted (error_ initialPageState) = true ∧
  async (Run.completion
           (@updateNearest plain_host (answering FetchRejects)
              (PageState.userLocation (error_ initialPageState))))
    = Fulfilled tt.
Proof.
  destruct (@geolocation_answer_mounts_map plain_host (answering FetchRejects)
              VNull initialPageState (error_ initialPageState) (or_introl eq_refl))
    as [Hmounted Hfetch].
  split; [exact Hmounted|].
  exact (proj2 (Hfetch (answering FetchRejects))).
Defined.

End PageCallbackExamples.
